(** * Mission Pinball Framework: show playback engine and OPP serial protocol

    A shallow embedding of [mpf/assets/show.py] (classes [Show] and
    [RunningShow]) and of [mpf/platforms/opp.py]: the receive side
    ([HardwarePlatform] and [SerialCommunicator._receive_loop]) and the
    driver side (lights, solenoids, switch states and the machine loop),
    followed by the properties of the specification that were checked
    against them and by further properties read off the code.

    Conventions of the embedding:
    - Python objects that are mutated in place (lists, dicts) live in a
      store and are referred to by location, so that aliasing between the
      show template and the copies handed to running instances is visible;
    - a Python float is an IEEE 754 binary64 number; the embedding holds
      the finite ones, each as the rational it denotes ([Q]), and its
      arithmetic rounds the exact result to the nearest float, ties to even,
      as the interpreter does; comparisons are exact;
    - an exception is a value of [exn] carried by the [Raise] outcome, next
      to the state in which it was raised;
    - collaborators that are not part of the two files (output players,
      clock, switch controller, logger) are observed through the calls made
      to them, recorded in order in a trace. *)

From Stdlib Require Import ZArith QArith String Ascii List Lia.
From Equations Require Import Equations.
From stdpp Require Import base list strings pretty.

Set Warnings "-register-all".

Local Open Scope string_scope.
Local Open Scope list_scope.
Local Open Scope Z_scope.

(* ===================================================================== *)
(** * Python data *)
(* ===================================================================== *)

Module Py.

(** Immutable (hashable) Python values. *)
Inductive scalar :=
| SNone
| SBool (b : bool)
| SInt (z : Z)
| SFloat (q : Q)
| SStr (s : string).

(** Parsed show data as the YAML loader and the config validators hand it
    over: a finite tree. *)
Inductive pyval :=
| PScalar (s : scalar)
| PList (l : list pyval)
| PDict (kvs : list (scalar * pyval)).

(** Values held in variables, list cells and dict slots: a scalar or a
    reference to a mutable object of the store. *)
Definition loc := nat.

Inductive value :=
| VScalar (s : scalar)
| VRef (l : loc).

Inductive obj :=
| OList (items : list value)
| ODict (kvs : list (scalar * value)).

Definition VNone : value := VScalar SNone.

(** The exceptions the modelled code can raise.  [BadRef] is an artefact
    of the store model (a dangling location); CPython cannot produce it. *)
Inductive exn :=
| ValueError
| TypeError
| KeyError
| IndexError
| AttributeError
| ZeroDivisionError
| RecursionError
| AssertionError
| OverflowError
| BadRef.

Inductive result (A : Type) :=
| Ok (a : A)
| Raise (e : exn).
Arguments Ok {A} a.
Arguments Raise {A} e.

(** ** Equality and truth of scalars *)

Definition num_of (s : scalar) : option Q :=
  match s with
  | SBool b => Some (if b then 1%Q else 0%Q)
  | SInt z => Some (inject_Z z)
  | SFloat q => Some q
  | _ => None
  end.

(** Python's [==] on scalars: numbers compare by value across [bool],
    [int] and [float]; a string only equals the same string. *)
Definition py_eqb (a b : scalar) : bool :=
  match num_of a, num_of b with
  | Some x, Some y => Qeq_bool x y
  | None, None =>
      match a, b with
      | SNone, SNone => true
      | SStr s, SStr t => String.eqb s t
      | _, _ => false
      end
  | _, _ => false
  end.

(** An object usable as a list index ([__index__]): [int] and [bool]. *)
Definition index_of (s : scalar) : option Z :=
  match s with
  | SInt z => Some z
  | SBool b => Some (if b then 1 else 0)
  | _ => None
  end.

(** Python list indexing: negative indices count from the end. *)
Definition norm_index (i : Z) (len : nat) : option nat :=
  if (0 <=? i) && (i <? Z.of_nat len) then Some (Z.to_nat i)
  else if (- Z.of_nat len <=? i) && (i <? 0) then Some (Z.to_nat (Z.of_nat len + i))
  else None.

Definition Qlt_bool (a b : Q) : bool := negb (Qle_bool b a).

(** ** Floats

    A float is the rational it denotes; the two zeros are one (nothing in
    the code tells them apart).  [round64] is the rounding of binary64: 53
    significant bits, the least exponent that of the subnormal numbers,
    nearest value, ties to the even significand.  A result whose rounding
    is beyond the largest float (for Python, [inf]) is not a value of the
    embedding; [round64] leaves its exponent unbounded there. *)

(** Nearest integer to [n / d] for [d > 0], ties to the even one. *)
Definition round_half_even (n d : Z) : Z :=
  let q := n / d in
  match 2 * (n mod d) ?= d with
  | Lt => q
  | Gt => q + 1
  | Eq => if Z.even q then q else q + 1
  end.

Definition round64 (x : Q) : Q :=
  let n := Qnum x in
  let d := Zpos (Qden x) in
  if n =? 0 then 0%Q
  else
    let a := Z.abs n in
    let e0 := Z.log2 a - Z.log2 d in
    (* [e] is the exponent of [a / d]: [2 ^ e <= a / d < 2 ^ (e + 1)] *)
    let e := if d * 2 ^ Z.max 0 e0 <=? a * 2 ^ Z.max 0 (- e0) then e0 else e0 - 1 in
    (* the weight of the last bit of the significand *)
    let k := Z.max e (-1022) - 52 in
    let m := round_half_even (a * 2 ^ Z.max 0 (- k)) (d * 2 ^ Z.max 0 k) in
    Qred (Qmake (Z.sgn n * m * 2 ^ Z.max 0 k) (Z.to_pos (2 ^ Z.max 0 (- k)))).

(** [a + b], [a - b] and [a / b] on floats ([b] not zero). *)
Definition float_add (a b : Q) : Q := round64 (a + b).
Definition float_sub (a b : Q) : Q := round64 (a - b).
Definition float_div (a b : Q) : Q := round64 (a / b).

(** [float(z)] for an int, as in [z / 1000.0]: [OverflowError] when the
    int rounds to no finite float. *)
Definition float_of_int (z : Z) : result Q :=
  let q := round64 (inject_Z z) in
  if Qle_bool (inject_Z (2 ^ 1024)) q || Qle_bool q (inject_Z (- 2 ^ 1024))
  then Raise OverflowError else Ok q.

(** [a % b] on floats, for [b] not zero: C's [fmod], which is exact and
    has the sign of [a], moved by [b] when its sign is not that of [b]. *)
Definition py_fmod (a b : Q) : Q :=
  let m := Qred (a - b * inject_Z (Z.quot (Qnum (a / b)) (Zpos (Qden (a / b))))) in
  if Qeq_bool m 0 then 0%Q
  else if xorb (Qlt_bool b 0) (Qlt_bool m 0) then round64 (m + b) else m.

(** ** Association lists with Python dict behaviour *)

Section Assoc.
Context {V : Type}.

Fixpoint dict_get (kvs : list (scalar * V)) (k : scalar) : option V :=
  match kvs with
  | [] => None
  | (k', v) :: rest => if py_eqb k' k then Some v else dict_get rest k
  end.

Definition dict_has (kvs : list (scalar * V)) (k : scalar) : bool :=
  match dict_get kvs k with Some _ => true | None => false end.

(** [d[k] = v]: an existing key keeps its position (and its original key
    object); a new key goes last. *)
Fixpoint dict_set (kvs : list (scalar * V)) (k : scalar) (v : V) : list (scalar * V) :=
  match kvs with
  | [] => [(k, v)]
  | (k', v') :: rest =>
      if py_eqb k' k then (k', v) :: rest else (k', v') :: dict_set rest k v
  end.

(** [d.pop(k)]: the value and the dict without the entry. *)
Fixpoint dict_remove (kvs : list (scalar * V)) (k : scalar) : option (V * list (scalar * V)) :=
  match kvs with
  | [] => None
  | (k', v) :: rest =>
      if py_eqb k' k then Some (v, rest)
      else match dict_remove rest k with
           | Some (x, rest') => Some (x, (k', v) :: rest')
           | None => None
           end
  end.

End Assoc.

(** ** Strings *)

(** [t in s] for two strings. *)
Fixpoint is_substring (t s : string) : bool :=
  String.prefix t s ||
  match s with
  | EmptyString => false
  | String _ s' => is_substring t s'
  end.

Definition lparen : ascii := "("%char.
Definition rparen : ascii := ")"%char.
Definition newline : ascii := ascii_of_nat 10.

(** The text up to the first [)] of [s], when no line break comes first:
    what the lazy group [(.*?)] followed by the lookahead [(?=\))] matches
    at the start of [s]. *)
Fixpoint take_until_close (s : string) : option string :=
  match s with
  | EmptyString => None
  | String c rest =>
      if Ascii.eqb c rparen then Some EmptyString
      else if Ascii.eqb c newline then None
      else match take_until_close rest with
           | Some t => Some (String c t)
           | None => None
           end
  end.

(** First element of [re.compile('(?<=\()(.*?)(?=\))').findall(s)], if
    any: the leftmost position preceded by [(] from which a [)] is reached
    on the same line. *)
Fixpoint find_token (s : string) : option string :=
  match s with
  | EmptyString => None
  | String c rest =>
      if Ascii.eqb c lparen then
        match take_until_close rest with
        | Some t => Some t
        | None => find_token rest
        end
      else find_token rest
  end.

(** ['({})'.format(token)] *)
Definition paren (token : string) : string :=
  String lparen (String.append token (String rparen EmptyString)).

(** ** State and exception monad *)

Definition M (S A : Type) : Type := S -> result A * S.

Definition ret {S A} (a : A) : M S A := fun s => (Ok a, s).
Definition raise {S A} (e : exn) : M S A := fun s => (Raise e, s).
Definition bind {S A B} (m : M S A) (k : A -> M S B) : M S B :=
  fun s => match m s with
           | (Ok a, s') => k a s'
           | (Raise e, s') => (Raise e, s')
           end.
Definition gets {S A} (f : S -> A) : M S A := fun s => (Ok (f s), s).
Definition modify {S} (f : S -> S) : M S unit := fun s => (Ok tt, f s).

Declare Scope py_scope.
Delimit Scope py_scope with py.
Notation "x <- c1 ;; c2" := (bind c1 (fun x => c2))
  (at level 100, c1 at next level, right associativity) : py_scope.
Notation "c1 ;; c2" := (bind c1 (fun _ => c2))
  (at level 100, right associativity) : py_scope.

Local Open Scope py_scope.

(** [for x in xs: body(x)] *)
Fixpoint for_each {S A} (xs : list A) (body : A -> M S unit) : M S unit :=
  match xs with
  | [] => ret tt
  | x :: rest => body x ;; for_each rest body
  end.

(** A loop that carries a local variable from one round to the next. *)
Fixpoint fold_each {S A B} (xs : list A) (acc : B) (body : B -> A -> M S B) : M S B :=
  match xs with
  | [] => ret acc
  | x :: rest => acc' <- body acc x ;; fold_each rest acc' body
  end.

Definition when {S} (b : bool) (m : M S unit) : M S unit :=
  if b then m else ret tt.

Definition lift {S A} (r : result A) : M S A :=
  match r with
  | Ok a => ret a
  | Raise e => raise e
  end.

End Py.

(* ===================================================================== *)
(** * mpf/assets/show.py *)
(* ===================================================================== *)

Module ShowModel.
Import Py.
Local Open Scope py_scope.

(** A path into nested show data: dict keys and list indices. *)
Definition path := list scalar.

(** The keyword arguments of [Show.play].  [callback] and [mode] are opaque
    identities of objects owned by the caller; [speed] is the float
    [float(speed)] handed to the running show. *)
Module Args.
Record t := {
  priority : Z;
  hold : option bool;
  speed : Q;
  start_step : Z;
  callback : option nat;
  loops : Z;
  sync_ms : Z;
  reset : bool;
  mode : option nat;
  manual_advance : bool;
  key : option string;
  show_tokens : option (list (string * scalar))
}.
End Args.

(** The signature defaults of [Show.play]. *)
Definition default_args : Args.t :=
  {| Args.priority := 0; Args.hold := None; Args.speed := 1%Q;
     Args.start_step := 1; Args.callback := None; Args.loops := -1;
     Args.sync_ms := 0; Args.reset := true; Args.mode := None;
     Args.manual_advance := false; Args.key := None;
     Args.show_tokens := None |}.

(** The attributes of a [RunningShow] object. *)
Module RS.
Record t := {
  show_steps : value;
  priority : Z;
  hold : bool;
  speed : Q;
  callback : option nat;
  loops : Z;
  reset : bool;
  mode : option nat;
  manual_advance : bool;
  key : option string;
  show_tokens : list (string * scalar);
  _stopped : bool;
  _total_steps : Z;
  next_step_index : Z;
  next_step_time : Q
}.
Definition set_loops (n : Z) (r : t) : t :=
  let '(Build_t a b c d e _ g h i j k l m o p) := r in Build_t a b c d e n g h i j k l m o p.
Definition set_stopped (v : bool) (r : t) : t :=
  let '(Build_t a b c d e f g h i j k _ m o p) := r in Build_t a b c d e f g h i j k v m o p.
Definition set_total_steps (n : Z) (r : t) : t :=
  let '(Build_t a b c d e f g h i j k l _ o p) := r in Build_t a b c d e f g h i j k l n o p.
Definition set_hold (v : bool) (r : t) : t :=
  let '(Build_t a b _ d e f g h i j k l m o p) := r in Build_t a b v d e f g h i j k l m o p.
Definition set_next_step_index (n : Z) (r : t) : t :=
  let '(Build_t a b c d e f g h i j k l m _ p) := r in Build_t a b c d e f g h i j k l m n p.
Definition set_next_step_time (q : Q) (r : t) : t :=
  let '(Build_t a b c d e f g h i j k l m o _) := r in Build_t a b c d e f g h i j k l m o q.
End RS.

(** Calls made to collaborators, in the order they happen. *)
Inductive event :=
| LogInvalidStepTimes
| NotifyShowStarting (inst : nat)
| NotifyShowStopping (inst : nat)
| ShowPlayCallback (section : string) (settings : value) (mode : option nat)
    (caller : nat) (priority : Z) (hold : bool) (show_tokens : list (string * scalar))
| PlayerClear (section : string) (caller : nat) (priority : Z)
| CallbackFired (cb : nat).

(** The state the two classes work on: the object store, the attributes of
    one [Show], the [RunningShow] objects created so far (an instance is
    named by its index), the machine clock with its pending one-shot
    timers, and the trace.  [load_requests] holds the priorities of the
    pending [Asset.load(callback=self._autoplay, priority=...)] calls. *)
Record machine := {
  heap : list obj;
  file : option string;
  loaded : bool;
  show_steps : value;
  total_steps : option Z;
  tokens : list string;
  token_values : list (string * list path);
  token_keys : list (string * list path);
  running : list nat;
  _autoplay_settings : option Args.t;
  load_requests : list Z;
  instances : list RS.t;
  clock_time : Q;
  clock_events : list (nat * Q);
  trace : list event
}.

Definition set_heap (x : list obj) (s : machine) : machine :=
  let '(Build_machine _ b c d e f g h i j k l m n o) := s in Build_machine x b c d e f g h i j k l m n o.
Definition set_loaded (x : bool) (s : machine) : machine :=
  let '(Build_machine a b _ d e f g h i j k l m n o) := s in Build_machine a b x d e f g h i j k l m n o.
Definition set_show_steps (x : value) (s : machine) : machine :=
  let '(Build_machine a b c _ e f g h i j k l m n o) := s in Build_machine a b c x e f g h i j k l m n o.
Definition set_total_steps (x : option Z) (s : machine) : machine :=
  let '(Build_machine a b c d _ f g h i j k l m n o) := s in Build_machine a b c d x f g h i j k l m n o.
Definition set_tokens (x : list string) (s : machine) : machine :=
  let '(Build_machine a b c d e _ g h i j k l m n o) := s in Build_machine a b c d e x g h i j k l m n o.
Definition set_token_values (x : list (string * list path)) (s : machine) : machine :=
  let '(Build_machine a b c d e f _ h i j k l m n o) := s in Build_machine a b c d e f x h i j k l m n o.
Definition set_token_keys (x : list (string * list path)) (s : machine) : machine :=
  let '(Build_machine a b c d e f g _ i j k l m n o) := s in Build_machine a b c d e f g x i j k l m n o.
Definition set_running (x : list nat) (s : machine) : machine :=
  let '(Build_machine a b c d e f g h _ j k l m n o) := s in Build_machine a b c d e f g h x j k l m n o.
Definition set_autoplay_settings (x : option Args.t) (s : machine) : machine :=
  let '(Build_machine a b c d e f g h i _ k l m n o) := s in Build_machine a b c d e f g h i x k l m n o.
Definition set_load_requests (x : list Z) (s : machine) : machine :=
  let '(Build_machine a b c d e f g h i j _ l m n o) := s in Build_machine a b c d e f g h i j x l m n o.
Definition set_instances (x : list RS.t) (s : machine) : machine :=
  let '(Build_machine a b c d e f g h i j k _ m n o) := s in Build_machine a b c d e f g h i j k x m n o.
Definition set_clock_time (x : Q) (s : machine) : machine :=
  let '(Build_machine a b c d e f g h i j k l _ n o) := s in Build_machine a b c d e f g h i j k l x n o.
Definition set_clock_events (x : list (nat * Q)) (s : machine) : machine :=
  let '(Build_machine a b c d e f g h i j k l m _ o) := s in Build_machine a b c d e f g h i j k l m x o.
Definition set_trace (x : list event) (s : machine) : machine :=
  let '(Build_machine a b c d e f g h i j k l m n _) := s in Build_machine a b c d e f g h i j k l m n x.

Definition Mm := M machine.

Definition emit (e : event) : Mm unit :=
  modify (fun s => set_trace (trace s ++ [e]) s).

(** ** The object store *)

Definition alloc (o : obj) : Mm value :=
  fun s => (Ok (VRef (length (heap s))), set_heap (heap s ++ [o]) s).

Definition deref (l : loc) : Mm obj :=
  fun s => match heap s !! l with
           | Some o => (Ok o, s)
           | None => (Raise BadRef, s)
           end.

Definition store (l : loc) (o : obj) : Mm unit :=
  modify (fun s => set_heap (<[l := o]> (heap s)) s).

(** [target[x]] *)
Definition py_getitem (target : value) (x : scalar) : Mm value :=
  match target with
  | VScalar (SStr str) =>
      match index_of x with
      | Some i =>
          match norm_index i (String.length str) with
          | Some n =>
              match String.get n str with
              | Some c => ret (VScalar (SStr (String c EmptyString)))
              | None => raise IndexError
              end
          | None => raise IndexError
          end
      | None => raise TypeError
      end
  | VScalar _ => raise TypeError
  | VRef l =>
      o <- deref l ;;
      match o with
      | OList items =>
          match index_of x with
          | Some i =>
              match norm_index i (length items) with
              | Some n =>
                  match items !! n with
                  | Some v => ret v
                  | None => raise IndexError
                  end
              | None => raise IndexError
              end
          | None => raise TypeError
          end
      | ODict kvs =>
          match dict_get kvs x with
          | Some v => ret v
          | None => raise KeyError
          end
      end
  end.

(** [target[x] = v] *)
Definition py_setitem (target : value) (x : scalar) (v : value) : Mm unit :=
  match target with
  | VScalar _ => raise TypeError
  | VRef l =>
      o <- deref l ;;
      match o with
      | OList items =>
          match index_of x with
          | Some i =>
              match norm_index i (length items) with
              | Some n => store l (OList (<[n := v]> items))
              | None => raise IndexError
              end
          | None => raise TypeError
          end
      | ODict kvs => store l (ODict (dict_set kvs x v))
      end
  end.

(** [target.pop(k)]: a dict removes the key, a list takes [k] as an
    index. *)
Definition py_pop (target : value) (k : scalar) : Mm value :=
  match target with
  | VScalar _ => raise AttributeError
  | VRef l =>
      o <- deref l ;;
      match o with
      | OList items =>
          match index_of k with
          | Some i =>
              match norm_index i (length items) with
              | Some n =>
                  match items !! n with
                  | Some v => store l (OList (take n items ++ drop (S n) items)) ;; ret v
                  | None => raise IndexError
                  end
              | None => raise IndexError
              end
          | None => raise TypeError
          end
      | ODict kvs =>
          match dict_remove kvs k with
          | Some (v, kvs') => store l (ODict kvs') ;; ret v
          | None => raise KeyError
          end
      end
  end.

(** [target.append(v)] *)
Definition py_append (target : value) (v : value) : Mm unit :=
  match target with
  | VScalar _ => raise AttributeError
  | VRef l =>
      o <- deref l ;;
      match o with
      | OList items => store l (OList (items ++ [v]))
      | ODict _ => raise AttributeError
      end
  end.

(** [x in container] *)
Definition py_contains (x : scalar) (container : value) : Mm bool :=
  match container with
  | VScalar (SStr str) =>
      match x with
      | SStr t => ret (is_substring t str)
      | _ => raise TypeError
      end
  | VScalar _ => raise TypeError
  | VRef l =>
      o <- deref l ;;
      match o with
      | OList items =>
          ret (existsb (fun v => match v with VScalar e => py_eqb e x | VRef _ => false end) items)
      | ODict kvs => ret (dict_has kvs x)
      end
  end.

(** [len(v)] *)
Definition py_len (v : value) : Mm Z :=
  match v with
  | VScalar (SStr str) => ret (Z.of_nat (String.length str))
  | VScalar _ => raise TypeError
  | VRef l =>
      o <- deref l ;;
      match o with
      | OList items => ret (Z.of_nat (length items))
      | ODict kvs => ret (Z.of_nat (length kvs))
      end
  end.

(** [list(d.items())] for a dict [d] *)
Definition py_items (v : value) : Mm (list (scalar * value)) :=
  match v with
  | VScalar _ => raise AttributeError
  | VRef l =>
      o <- deref l ;;
      match o with
      | ODict kvs => ret kvs
      | OList _ => raise AttributeError
      end
  end.

(** Parsed data entering the store: every list and dict of the tree
    becomes an object of its own. *)
Fixpoint alloc_tree (t : pyval) : Mm value :=
  match t with
  | PScalar c => ret (VScalar c)
  | PList l =>
      items <- (fix go (ts : list pyval) : Mm (list value) :=
                  match ts with
                  | [] => ret []
                  | t' :: rest => v <- alloc_tree t' ;; vs <- go rest ;; ret (v :: vs)
                  end) l ;;
      alloc (OList items)
  | PDict kvs =>
      items <- (fix go (ts : list (scalar * pyval)) : Mm (list (scalar * value)) :=
                  match ts with
                  | [] => ret []
                  | (k, t') :: rest => v <- alloc_tree t' ;; vs <- go rest ;; ret ((k, v) :: vs)
                  end) kvs ;;
      alloc (ODict items)
  end.

(** Reading a value of the store back as a tree, to depth [fuel]. *)
Fixpoint reify (fuel : nat) (h : list obj) (v : value) : option pyval :=
  match v with
  | VScalar c => Some (PScalar c)
  | VRef l =>
      match fuel with
      | O => None
      | S fuel' =>
          match h !! l with
          | Some (OList items) =>
              option_map PList
                (foldr (fun x acc =>
                          match reify fuel' h x, acc with
                          | Some t, Some ts => Some (t :: ts)
                          | _, _ => None
                          end) (Some []) items)
          | Some (ODict kvs) =>
              option_map PDict
                (foldr (fun kv acc =>
                          match reify fuel' h (snd kv), acc with
                          | Some t, Some ts => Some ((fst kv, t) :: ts)
                          | _, _ => None
                          end) (Some []) kvs)
          | None => None
          end
      end
  end.

(** ** Operations on parsed data (the loader's input) *)

(** Truth value of parsed data ([not data]). *)
Definition pv_truthy (t : pyval) : bool :=
  match t with
  | PScalar SNone => false
  | PScalar (SBool b) => b
  | PScalar (SInt z) => negb (z =? 0)
  | PScalar (SFloat q) => negb (Qeq_bool q 0)
  | PScalar (SStr str) => negb (String.eqb str "")
  | PList l => match l with [] => false | _ => true end
  | PDict kvs => match kvs with [] => false | _ => true end
  end.

(** [x in step] *)
Definition pv_contains (x : scalar) (step : pyval) : result bool :=
  match step with
  | PDict kvs => Ok (dict_has kvs x)
  | PList l =>
      Ok (existsb (fun t => match t with PScalar e => py_eqb e x | _ => false end) l)
  | PScalar (SStr str) =>
      match x with
      | SStr t => Ok (is_substring t str)
      | _ => Raise TypeError
      end
  | PScalar _ => Raise TypeError
  end.

(** [step[k]] for a string key [k] *)
Definition pv_getitem (step : pyval) (k : string) : result pyval :=
  match step with
  | PDict kvs =>
      match dict_get kvs (SStr k) with
      | Some t => Ok t
      | None => Raise KeyError
      end
  | _ => Raise TypeError
  end.

(** [step[k] = t] for a string key [k] *)
Definition pv_setitem (step : pyval) (k : string) (t : pyval) : result pyval :=
  match step with
  | PDict kvs => Ok (PDict (dict_set kvs (SStr k) t))
  | _ => Raise TypeError
  end.

(** [step.items()] *)
Definition pv_items (step : pyval) : result (list (scalar * pyval)) :=
  match step with
  | PDict kvs => Ok kvs
  | _ => Raise AttributeError
  end.

(** [str(t)[0] == '+'].  Only a string can start with a plus sign: the
    text of [None], of a boolean, of a number, of a list and of a dict starts
    with a letter, a digit, a minus sign or a bracket.  The empty string
    has no first character. *)
Definition starts_with_plus (t : pyval) : result bool :=
  match t with
  | PScalar (SStr EmptyString) => Raise IndexError
  | PScalar (SStr (String c _)) => Ok (Ascii.eqb c "+"%char)
  | _ => Ok false
  end.

(** ** Collaborators *)

(** What [show.py] consumes from the rest of the framework:
    - [show_players]: the section names registered in
      [ConfigPlayer.show_players];
    - [validate_show_config section device settings]: the validated entry
      the section's player returns (a dict), or the exception it raises;
    - [string_to_secs]: [Util.string_to_secs];
    - [get_show_file_version], [file_manager_load], [show_version]: the
      version probe, [FileManager.load] and [int(__show_version__)];
    - [recursion_limit]: the depth at which the interpreter raises
      [RecursionError]. *)
Record collaborators := {
  show_players : list string;
  validate_show_config : string -> scalar -> pyval -> result (list (scalar * pyval));
  string_to_secs : pyval -> result Q;
  get_show_file_version : string -> Z;
  file_manager_load : string -> pyval;
  show_version : Z;
  recursion_limit : nat
}.

Inductive token_type := TKey | TValue.

(** The attributes [Show.__init__] sets before it looks at [data], on a
    machine whose clock reads [now]. *)
Definition new_show (f : option string) (now : Q) : machine :=
  {| heap := []; file := f; loaded := false; show_steps := VNone;
     total_steps := None; tokens := []; token_values := []; token_keys := [];
     running := []; _autoplay_settings := None; load_requests := [];
     instances := []; clock_time := now; clock_events := []; trace := [] |}.

(** A step of the loader's loop either goes on with the new running total
    or leaves [do_load_show] through [return False]. *)
Inductive step_outcome :=
| Continue (total_step_time : Q)
| ReturnFalse.

Definition sentinel : string := "dummy_default!#$".

Section Show.
Variable env : collaborators.

Definition is_show_player (k : scalar) : option string :=
  match k with
  | SStr name => if existsb (String.eqb name) (show_players env) then Some name else None
  | _ => None
  end.

(** *** class Show *)

Definition load_show_from_disk (f : string) : Mm pyval :=
  if get_show_file_version env f =? show_version env
  then ret (file_manager_load env f)
  else raise ValueError.

(** [token_dict[token].append(path)], creating the list when the token is
    new. *)
Fixpoint add_path (d : list (string * list path)) (token : string) (p : path)
  : list (string * list path) :=
  match d with
  | [] => [(token, [p])]
  | (t, ps) :: rest =>
      if String.eqb t token then (t, ps ++ [p]) :: rest
      else (t, ps) :: add_path rest token p
  end.

Definition _add_token (token : string) (p : path) (ty : token_type) : Mm unit :=
  modify (fun s => if existsb (String.eqb token) (tokens s) then s
                   else set_tokens (tokens s ++ [token]) s) ;;
  match ty with
  | TKey => modify (fun s => set_token_keys (add_path (token_keys s) token p) s)
  | TValue => modify (fun s => set_token_values (add_path (token_values s) token p) s)
  end.

(** [findall] raises [TypeError] on anything that is not a string, and the
    method returns. *)
Definition _check_token (p : path) (data : value) (ty : token_type) : Mm unit :=
  match data with
  | VScalar (SStr str) =>
      match find_token str with
      | Some token => _add_token token p ty
      | None => ret tt
      end
  | _ => ret tt
  end.

Fixpoint _walk_show (depth : nat) (data : value) (p : path) (list_index : option Z)
  : Mm unit :=
  match depth with
  | O => raise RecursionError
  | S depth' =>
      match data with
      | VScalar _ => _check_token p data TValue
      | VRef l =>
          o <- deref l ;;
          match o with
          | ODict kvs =>
              for_each kvs (fun kv =>
                _check_token p (VScalar (fst kv)) TKey ;;
                _walk_show depth' (snd kv) (p ++ [fst kv]) None)
          | OList items =>
              fold_each items list_index (fun li i =>
                _check_token p i TKey ;;
                let li' := match li with None => 0 | Some n => n + 1 end in
                _walk_show depth' i (p ++ [SInt li']) (Some li') ;;
                ret (Some li')) ;;
              ret tt
          end
      end
  end.

Definition _get_tokens : Mm unit :=
  ss <- gets show_steps ;;
  _walk_show (recursion_limit env) ss [] None.

(** The deep copy handed to a running instance.  The default argument is
    recognised by value, also in nested calls. *)
Fixpoint get_show_steps (depth : nat) (data : value) : Mm value :=
  match depth with
  | O => raise RecursionError
  | S depth' =>
      data <- (match data with
               | VScalar (SStr str) =>
                   if String.eqb str sentinel then gets show_steps else ret data
               | _ => ret data
               end) ;;
      match data with
      | VScalar _ => ret data
      | VRef l =>
          o <- deref l ;;
          match o with
          | ODict kvs =>
              new_dict <- alloc (ODict []) ;;
              for_each kvs (fun kv =>
                c <- get_show_steps depth' (snd kv) ;;
                py_setitem new_dict (fst kv) c) ;;
              ret new_dict
          | OList items =>
              new_list <- alloc (OList []) ;;
              for_each items (fun i =>
                c <- get_show_steps depth' i ;;
                py_append new_list c) ;;
              ret new_list
          end
      end
  end.

(** One section of a step: [actions[key] = validated_config], or
    [ValueError] for a key that is neither a registered section nor
    ['time']. *)
Definition load_section (actions : value) (key : scalar) (v : pyval) : Mm unit :=
  match is_show_player key with
  | Some name =>
      validated_config <- alloc (ODict []) ;;
      entries <- (match v with
                  | PDict kvs => ret kvs
                  | PScalar c => ret [(c, PDict [])]
                  | PList _ => raise TypeError
                  end) ;;
      for_each entries (fun ds =>
        validated <- lift (validate_show_config env name (fst ds) (snd ds)) ;;
        for_each validated (fun kt =>
          x <- alloc_tree (snd kt) ;;
          py_setitem validated_config (fst kt) x)) ;;
      py_setitem actions key validated_config
  | None =>
      if py_eqb key (SStr "time") then ret tt else raise ValueError
  end.

(** The rest of the loop body once [actions['time']] is known to be [t]:
    the running total, the step's sections, and the append. *)
Definition finish_step (actions : value) (step : pyval) (total_step_time t : Q)
  : Mm step_outcome :=
  py_setitem actions (SStr "time") (VScalar (SFloat t)) ;;
  items <- lift (pv_items step) ;;
  for_each items (fun kv => load_section actions (fst kv) (snd kv)) ;;
  ss <- gets show_steps ;;
  py_append ss actions ;;
  ret (Continue (float_add total_step_time t)).

(** The body of [for step_num, step in enumerate(data)]. *)
Definition load_step (step_num : nat) (step : pyval) (total_step_time : Q)
  : Mm step_outcome :=
  actions <- alloc (ODict []) ;;
  has_time <- lift (pv_contains (SStr "time") step) ;;
  step <- (if has_time then ret step
           else lift (pv_setitem step "time"
                        (match step_num with
                         | O => PScalar (SInt 0)
                         | S _ => PScalar (SStr "+1")
                         end))) ;;
  time_entry <- lift (pv_getitem step "time") ;;
  step_time <- lift (string_to_secs env time_entry) ;;
  when (Nat.eqb step_num 0 && Qlt_bool 0 step_time)
       (zero <- alloc (ODict [(SStr "time", VScalar (SInt 0))]) ;;
        ss <- gets show_steps ;;
        py_append ss zero) ;;
  relative <- lift (starts_with_plus time_entry) ;;
  if relative then
    finish_step actions step total_step_time step_time
  else if Qlt_bool step_time total_step_time then
    emit LogInvalidStepTimes ;;
    ret ReturnFalse
  else
    finish_step actions step total_step_time (float_sub step_time total_step_time).

Fixpoint load_steps (step_num : nat) (data : list pyval) (total_step_time : Q)
  : Mm step_outcome :=
  match data with
  | [] => ret (Continue total_step_time)
  | step :: rest =>
      o <- load_step step_num step total_step_time ;;
      match o with
      | Continue t => load_steps (S step_num) rest t
      | ReturnFalse => ret ReturnFalse
      end
  end.

(** [self.show_steps = list()] *)
Definition reset_show_steps : Mm unit :=
  ss <- alloc (OList []) ;;
  modify (set_show_steps ss).

(** [Show.do_load_show(data)]; the result is the method's return value
    ([None], or [False] for step times out of order). *)
Definition do_load_show (data : pyval) : Mm scalar :=
  reset_show_steps ;;
  f <- gets file ;;
  data <- (match f with
           | Some name =>
               if negb (pv_truthy data) && negb (String.eqb name "")
               then load_show_from_disk name
               else ret data
           | None => ret data
           end) ;;
  steps <- (match data with
            | PDict kvs => ret (map (fun kv => PScalar (fst kv)) kvs)
            | PList l => ret l
            | PScalar _ => raise ValueError
            end) ;;
  o <- load_steps 0 steps 0 ;;
  match o with
  | Continue _ =>
      ss <- gets show_steps ;;
      n <- py_len ss ;;
      modify (set_total_steps (Some n)) ;;
      _get_tokens ;;
      ret SNone
  | ReturnFalse => ret (SBool false)
  end.

(** [Show.do_load()] *)
Definition do_load : Mm scalar := do_load_show (PScalar SNone).

Definition _do_unload : Mm unit :=
  modify (set_show_steps VNone).

(** The tail of [Show.__init__]: [if data: self.do_load_show(data);
    self.loaded = True]. *)
Definition Show_init (data : pyval) : Mm unit :=
  when (pv_truthy data)
       (do_load_show data ;;
        modify (set_loaded true)).

(** Modelled from the spec: [Asset.load(callback, priority)], inherited
    from [mpf/core/assets.py], which is not among the sources.  The request
    is recorded; [_autoplay] is the only callback [Show] ever passes. *)
Definition Asset_load (priority : Z) : Mm unit :=
  modify (fun s => set_load_requests (load_requests s ++ [priority]) s).

(** *** class RunningShow *)

Definition get_inst (self : nat) : Mm RS.t :=
  fun s => match instances s !! self with
           | Some r => (Ok r, s)
           | None => (Raise BadRef, s)
           end.

Definition update_inst (self : nat) (f : RS.t -> RS.t) : Mm unit :=
  modify (fun s => set_instances (alter f self (instances s)) s).

Definition new_inst (r : RS.t) : Mm nat :=
  fun s => (Ok (length (instances s)), set_instances (instances s ++ [r]) s).

(** [clock.schedule_once(self._run_next_step, delay)] *)
Definition schedule_once (self : nat) (delay : Q) : Mm unit :=
  modify (fun s => set_clock_events (clock_events s ++ [(self, delay)]) s).

(** [clock.unschedule(self._run_next_step, True)] *)
Definition unschedule (self : nat) : Mm unit :=
  modify (fun s =>
    set_clock_events (List.filter (fun ev => negb (Nat.eqb (fst ev) self)) (clock_events s)) s).

(** [show.running.remove(self)] *)
Definition running_remove (self : nat) : Mm unit :=
  fun s => if existsb (Nat.eqb self) (running s)
           then (Ok tt, set_running (List.filter (fun i => negb (Nat.eqb i self)) (running s)) s)
           else (Raise KeyError, s).

(** [show.running.add(self)] *)
Definition running_add (self : nat) : Mm unit :=
  modify (fun s => if existsb (Nat.eqb self) (running s) then s
                   else set_running (running s ++ [self]) s).

(** [a / b] for a number [a] and a float [b]: an int (or bool) is made a
    float first, then the quotient is rounded. *)
Definition py_div (a : value) (b : Q) : Mm Q :=
  match a with
  | VScalar (SFloat x) =>
      if Qeq_bool b 0 then raise ZeroDivisionError else ret (float_div x b)
  | VScalar (SInt z) =>
      x <- lift (float_of_int z) ;;
      if Qeq_bool b 0 then raise ZeroDivisionError else ret (float_div x b)
  | VScalar (SBool c) =>
      x <- lift (float_of_int (if c then 1 else 0)) ;;
      if Qeq_bool b 0 then raise ZeroDivisionError else ret (float_div x b)
  | _ => raise TypeError
  end.

Definition stop (self : nat) (hold : option bool) : Mm unit :=
  r <- get_inst self ;;
  if RS._stopped r then ret tt
  else
    update_inst self (RS.set_stopped true) ;;
    emit (NotifyShowStopping self) ;;
    running_remove self ;;
    unschedule self ;;
    let hold := match hold with Some h => h | None => RS.hold r end in
    when (negb hold)
         (for_each (show_players env) (fun player =>
            emit (PlayerClear player self (RS.priority r)))) ;;
    match RS.callback r with
    | Some cb => emit (CallbackFired cb)
    | None => ret tt
    end.

(** The scheduling tail of [_run_next_step]. *)
Definition schedule_next (self : nat) : Mm scalar :=
  r <- get_inst self ;;
  if RS.manual_advance r then ret SNone
  else
    step <- py_getitem (RS.show_steps r) (SInt (RS.next_step_index r)) ;;
    t <- py_getitem step (SStr "time") ;;
    time_to_next_step <- py_div t (RS.speed r) ;;
    now <- gets clock_time ;;
    update_inst self (RS.set_next_step_time (float_add now time_to_next_step)) ;;
    schedule_once self time_to_next_step ;;
    ret (SFloat time_to_next_step).

(** The result is the method's return value: [None], [False] or the time
    to the next step. *)
Definition _run_next_step (self : nat) : Mm scalar :=
  r <- get_inst self ;;
  now <- gets clock_time ;;
  if Qlt_bool now (RS.next_step_time r) then ret SNone
  else
    step <- py_getitem (RS.show_steps r) (SInt (RS.next_step_index r)) ;;
    items <- py_items step ;;
    for_each items (fun kv =>
      if py_eqb (fst kv) (SStr "time") then ret tt
      else match is_show_player (fst kv) with
           | Some name =>
               nested <- py_contains (fst kv) (snd kv) ;;
               settings <- (if nested then py_getitem (snd kv) (fst kv) else ret (snd kv)) ;;
               emit (ShowPlayCallback name settings (RS.mode r) self (RS.priority r)
                       (RS.hold r) (RS.show_tokens r))
           | None => ret tt
           end) ;;
    if RS.next_step_index r =? RS._total_steps r - 1 then
      if RS.loops r >? 0 then
        update_inst self (RS.set_loops (RS.loops r - 1)) ;;
        schedule_next self
      else if RS.loops r <? 0 then
        update_inst self (RS.set_next_step_index 0) ;;
        schedule_next self
      else
        stop self None ;;
        ret (SBool false)
    else
      update_inst self (RS.set_next_step_index (RS.next_step_index r + 1)) ;;
      schedule_next self.

(** [target = self.show_steps; for x in xs: target = target[rename(x)]] *)
Definition walk_path (root : value) (xs : path) (rename : scalar -> scalar) : Mm value :=
  fold_each xs root (fun target x => py_getitem target (rename x)).

Definition _replace_tokens (self : nat) (kwargs : list (string * scalar)) : Mm unit :=
  r <- get_inst self ;;
  vals <- gets token_values ;;
  for_each kwargs (fun tr =>
    match dict_get (map (fun e => (SStr (fst e), snd e)) vals) (SStr (fst tr)) with
    | Some paths =>
        for_each paths (fun token_path =>
          target <- walk_path (RS.show_steps r) (removelast token_path) (fun x => x) ;;
          match last token_path with
          | Some k => py_setitem target k (VScalar (snd tr))
          | None => raise IndexError
          end)
    | None => ret tt
    end) ;;
  keys <- gets token_keys ;;
  fold_each kwargs [] (fun (keys_replaced : list (scalar * scalar)) tr =>
    match dict_get (map (fun e => (SStr (fst e), snd e)) keys) (SStr (fst tr)) with
    | Some paths =>
        let key_name := SStr (paren (fst tr)) in
        fold_each paths keys_replaced (fun keys_replaced token_path =>
          target <- walk_path (RS.show_steps r) token_path
                      (fun x => match dict_get keys_replaced x with
                                | Some y => y
                                | None => x
                                end) ;;
          v <- py_pop target key_name ;;
          py_setitem target (snd tr) v ;;
          ret (dict_set keys_replaced key_name (snd tr)))
    | None => ret keys_replaced
    end) ;;
  ret tt.

(** [RunningShow.__init__]; the result names the new object. *)
Definition RunningShow_init (steps : value) (priority : Z) (hold : option bool)
    (speed : Q) (start_step : Z) (callback : option nat) (loops : Z) (sync_ms : Z)
    (reset : bool) (mode : option nat) (manual_advance : bool) (key : option string)
    (show_tokens : list (string * scalar)) : Mm nat :=
  self <- new_inst {| RS.show_steps := steps; RS.priority := priority;
                      RS.hold := match hold with Some h => h | None => false end;
                      RS.speed := speed; RS.callback := callback; RS.loops := loops;
                      RS.reset := reset; RS.mode := mode;
                      RS.manual_advance := manual_advance; RS.key := key;
                      RS.show_tokens := show_tokens; RS._stopped := false;
                      RS._total_steps := 0; RS.next_step_index := 0;
                      RS.next_step_time := 0 |} ;;
  n <- py_len steps ;;
  update_inst self (RS.set_total_steps n) ;;
  update_inst self (RS.set_next_step_index
                      (if 0 <? start_step then start_step - 1
                       else if start_step <? 0 then n + start_step
                       else 0)) ;;
  when (match hold with None => true | Some _ => false end)
       (update_inst self (RS.set_hold (n =? 1))) ;;
  toks <- gets tokens ;;
  when (match show_tokens, toks with _ :: _, _ :: _ => true | _, _ => false end)
       (_replace_tokens self show_tokens) ;;
  running_add self ;;
  emit (NotifyShowStarting self) ;;
  now <- gets clock_time ;;
  update_inst self (RS.set_next_step_time now) ;;
  (if sync_ms =? 0 then
     _run_next_step self ;; ret tt
   else
     ms <- lift (float_of_int sync_ms) ;;
     let period := float_div ms 1000 in
     let delay_secs := float_sub period (py_fmod now period) in
     update_inst self (RS.set_next_step_time (float_add now delay_secs)) ;;
     schedule_once self delay_secs) ;;
  ret self.

Definition pause (self : nat) : Mm unit := unschedule self.

Definition resume (self : nat) : Mm unit := _run_next_step self ;; ret tt.

Definition advance (self : nat) (steps : Z) (show_step : option Z) : Mm Z :=
  if match show_step with Some n => n <? 0 | None => false end then raise ValueError
  else
    unschedule self ;;
    r <- get_inst self ;;
    let steps_to_advance := steps - 1 in
    (if negb (steps_to_advance =? 0) then
       update_inst self (RS.set_next_step_index (RS._total_steps r mod steps_to_advance))
     else match show_step with
          | Some n => update_inst self (RS.set_next_step_index (n - 1))
          | None => ret tt
          end) ;;
    _run_next_step self ;;
    r <- get_inst self ;;
    ret (RS.next_step_index r - 1).

(** *** Show.play *)

(** [Show.play] with keyword arguments [a]; the result is [Some] of the new [RunningShow], or
    [None] for the [False] returned while the show is not loaded. *)
Definition play (a : Args.t) : Mm (option nat) :=
  let show_tokens := match Args.show_tokens a with Some d => d | None => [] end in
  toks <- gets tokens ;;
  if negb (forallb (fun tr => existsb (String.eqb (fst tr)) toks) show_tokens)
  then raise ValueError
  else
    is_loaded <- gets loaded ;;
    if negb is_loaded then
      modify (set_autoplay_settings
                (Some {| Args.priority := Args.priority a; Args.hold := Args.hold a;
                         Args.speed := Args.speed a; Args.start_step := Args.start_step a;
                         Args.callback := Args.callback a; Args.loops := Args.loops a;
                         Args.sync_ms := Args.sync_ms a; Args.reset := Args.reset a;
                         Args.mode := Args.mode a;
                         Args.manual_advance := Args.manual_advance a;
                         Args.key := Args.key a;
                         Args.show_tokens := Some show_tokens |})) ;;
      Asset_load (Args.priority a) ;;
      ret None
    else
      total <- gets total_steps ;;
      let hold := match Args.hold a with
                  | Some h => Some h
                  | None => match total with
                            | Some 1 => Some true
                            | _ => None
                            end
                  end in
      loops <- (match total with
                | Some n => ret (if n >? 1 then Args.loops a else 0)
                | None => raise TypeError
                end) ;;
      steps <- get_show_steps (recursion_limit env) (VScalar (SStr sentinel)) ;;
      self <- RunningShow_init steps (Args.priority a)
                (Some (match hold with Some h => h | None => false end))
                (Args.speed a) (Args.start_step a) (Args.callback a) loops
                (Args.sync_ms a) (Args.reset a) (Args.mode a)
                (Args.manual_advance a) (Args.key a) show_tokens ;;
      ret (Some self).

(** [Show._autoplay]: [play] with the stored settings as keyword
    arguments; an empty settings dict plays with the defaults of the
    signature. *)
Definition _autoplay : Mm unit :=
  settings <- gets _autoplay_settings ;;
  play (match settings with Some a => a | None => default_args end) ;;
  ret tt.



(** A sequence of [play] calls, one after the other, whatever each of
    them returns or raises. *)
Definition plays (calls : list Args.t) (s : machine) : machine :=
  foldl (fun st a => (play a st).2) s calls.

End Show.


End ShowModel.

(* ===================================================================== *)
(** * mpf/platforms/opp.py: the receive side *)
(* ===================================================================== *)

Module OppModel.
Import Py.
Local Open Scope py_scope.

Definition byte := Byte.byte.

(** [ord(b)] of a one-byte string, and bytes of a message as integers. *)
Definition ord (b : byte) : Z := Z.of_N (Byte.to_N b).

(** The constants and CRC routines of [OppRs232Intf]
    ([mpf/platforms/opp_common/opp_rs232_intf.py], not among the sources):
    every constant is a one-byte string. *)
Record OppRs232Intf := {
  INV_CMD : byte;
  EOM_CMD : byte;
  GET_GEN2_CFG : byte;
  READ_GEN2_INP_CMD : byte;
  GET_GET_VERS_CMD : byte;
  CARD_ID_GEN2_CARD : byte;
  CARD_ID_TYPE_MASK : byte;
  WING_SOL : byte;
  WING_INP : byte;
  WING_INCAND : byte;
  WING_NEO : byte;
  NUM_G2_WING_PER_BRD : nat;
  crc8 : list byte -> byte
}.

Definition MIN_FW : Z := 0x00000100.
Definition BAD_FW_VERSION : Z := 0x01020304.

Record OPPInputCard := {
  addr : Z;
  oldState : Z;
  mask : Z;
  cardNum : string
}.

Definition set_oldState (x : Z) (c : OPPInputCard) : OPPInputCard :=
  {| addr := addr c; oldState := x; mask := mask c; cardNum := cardNum c |}.

Inductive log_event :=
| DebugInvResp
| DebugCfgResp
| DebugVersResp
| InfoFoundBoards (n : Z)
| InfoFirmware (version : Z)
| WarnBadCRC (msg : list byte)
| WarnMalformedCfg (msg : list byte)
| WarnMalformedVers (msg : list byte)
| WarnUnknownCommand (msg : list byte).

(** The attributes of [HardwarePlatform] the receive side works on, the
    [partMsg] buffer of its [SerialCommunicator], and the calls made to
    the switch controller and the logger.  A card is one object reached
    both from [opp_inputs] and from [inpAddrDict]: the dict holds the
    card's position in the list.  The per-channel dicts hold the channel
    numbers they are keyed by. *)
Record platform := {
  opp_incands : list (Z * Z);
  incandDict : list string;
  opp_solenoid : list (Z * Z);
  solDict : list string;
  opp_inputs : list OPPInputCard;
  inpDict : list string;
  inpAddrDict : list (Z * nat);
  read_input_msg : list byte;
  opp_neopixels : list Z;
  neoCardDict : list string;
  numGen2Brd : Z;
  gen2AddrArr : list Z;
  currInpData : list Z;
  badCRC : Z;
  oppFirmwareVers : list Z;
  minVersion : Z;
  has_switch_controller : bool;
  receive_queue : list (list byte);
  partMsg : list byte;
  switch_events : list (string * Z);
  log : list log_event
}.

Definition set_opp_incands (x : list (Z * Z)) (s : platform) : platform :=
  let '(Build_platform _ b c d e f g h i j k l m n o p q r t u v) := s in
  Build_platform x b c d e f g h i j k l m n o p q r t u v.
Definition set_incandDict (x : list string) (s : platform) : platform :=
  let '(Build_platform a _ c d e f g h i j k l m n o p q r t u v) := s in
  Build_platform a x c d e f g h i j k l m n o p q r t u v.
Definition set_opp_solenoid (x : list (Z * Z)) (s : platform) : platform :=
  let '(Build_platform a b _ d e f g h i j k l m n o p q r t u v) := s in
  Build_platform a b x d e f g h i j k l m n o p q r t u v.
Definition set_solDict (x : list string) (s : platform) : platform :=
  let '(Build_platform a b c _ e f g h i j k l m n o p q r t u v) := s in
  Build_platform a b c x e f g h i j k l m n o p q r t u v.
Definition set_opp_inputs (x : list OPPInputCard) (s : platform) : platform :=
  let '(Build_platform a b c d _ f g h i j k l m n o p q r t u v) := s in
  Build_platform a b c d x f g h i j k l m n o p q r t u v.
Definition set_inpDict (x : list string) (s : platform) : platform :=
  let '(Build_platform a b c d e _ g h i j k l m n o p q r t u v) := s in
  Build_platform a b c d e x g h i j k l m n o p q r t u v.
Definition set_inpAddrDict (x : list (Z * nat)) (s : platform) : platform :=
  let '(Build_platform a b c d e f _ h i j k l m n o p q r t u v) := s in
  Build_platform a b c d e f x h i j k l m n o p q r t u v.
Definition set_read_input_msg (x : list byte) (s : platform) : platform :=
  let '(Build_platform a b c d e f g _ i j k l m n o p q r t u v) := s in
  Build_platform a b c d e f g x i j k l m n o p q r t u v.
Definition set_opp_neopixels (x : list Z) (s : platform) : platform :=
  let '(Build_platform a b c d e f g h _ j k l m n o p q r t u v) := s in
  Build_platform a b c d e f g h x j k l m n o p q r t u v.
Definition set_neoCardDict (x : list string) (s : platform) : platform :=
  let '(Build_platform a b c d e f g h i _ k l m n o p q r t u v) := s in
  Build_platform a b c d e f g h i x k l m n o p q r t u v.
Definition set_numGen2Brd (x : Z) (s : platform) : platform :=
  let '(Build_platform a b c d e f g h i j _ l m n o p q r t u v) := s in
  Build_platform a b c d e f g h i j x l m n o p q r t u v.
Definition set_gen2AddrArr (x : list Z) (s : platform) : platform :=
  let '(Build_platform a b c d e f g h i j k _ m n o p q r t u v) := s in
  Build_platform a b c d e f g h i j k x m n o p q r t u v.
Definition set_currInpData (x : list Z) (s : platform) : platform :=
  let '(Build_platform a b c d e f g h i j k l _ n o p q r t u v) := s in
  Build_platform a b c d e f g h i j k l x n o p q r t u v.
Definition set_badCRC (x : Z) (s : platform) : platform :=
  let '(Build_platform a b c d e f g h i j k l m _ o p q r t u v) := s in
  Build_platform a b c d e f g h i j k l m x o p q r t u v.
Definition set_oppFirmwareVers (x : list Z) (s : platform) : platform :=
  let '(Build_platform a b c d e f g h i j k l m n _ p q r t u v) := s in
  Build_platform a b c d e f g h i j k l m n x p q r t u v.
Definition set_minVersion (x : Z) (s : platform) : platform :=
  let '(Build_platform a b c d e f g h i j k l m n o _ q r t u v) := s in
  Build_platform a b c d e f g h i j k l m n o x q r t u v.
Definition set_receive_queue (x : list (list byte)) (s : platform) : platform :=
  let '(Build_platform a b c d e f g h i j k l m n o p q _ t u v) := s in
  Build_platform a b c d e f g h i j k l m n o p q x t u v.
Definition set_partMsg (x : list byte) (s : platform) : platform :=
  let '(Build_platform a b c d e f g h i j k l m n o p q r _ u v) := s in
  Build_platform a b c d e f g h i j k l m n o p q r x u v.
Definition set_switch_events (x : list (string * Z)) (s : platform) : platform :=
  let '(Build_platform a b c d e f g h i j k l m n o p q r t _ v) := s in
  Build_platform a b c d e f g h i j k l m n o p q r t x v.
Definition set_log (x : list log_event) (s : platform) : platform :=
  let '(Build_platform a b c d e f g h i j k l m n o p q r t u _) := s in
  Build_platform a b c d e f g h i j k l m n o p q r t u x.

Definition Mp := M platform.

Definition log_msg (e : log_event) : Mp unit :=
  modify (fun s => set_log (log s ++ [e]) s).

(** [msg[i]] *)
Definition msg_at (msg : list byte) (i : nat) : Mp Z :=
  match msg !! i with
  | Some b => ret (ord b)
  | None => raise IndexError
  end.

Inductive handler :=
| h_inv_resp
| h_eom_resp
| h_get_gen2_cfg_resp
| h_read_gen2_inp_resp
| h_vers_resp.

(** A dict keyed by integers, filled by assignments in order. *)
Fixpoint table_set {V} (d : list (Z * V)) (k : Z) (v : V) : list (Z * V) :=
  match d with
  | [] => [(k, v)]
  | (k', v') :: rest => if k' =? k then (k', v) :: rest else (k', v') :: table_set rest k v
  end.

Fixpoint table_get {V} (d : list (Z * V)) (k : Z) : option V :=
  match d with
  | [] => None
  | (k', v) :: rest => if k' =? k then Some v else table_get rest k
  end.

(** [range(0, 32)] with the card's channel numbers [card + '-' + str(index)]
    of the bits set in [mask]. *)
Definition channel_number (card : string) (index : nat) : string :=
  String.append card (String.append "-" (pretty index)).

Definition channels (card : string) (mask : Z) (n : nat) : list string :=
  map (channel_number card)
      (List.filter (fun index => negb (Z.land (Z.shiftl 1 (Z.of_nat index)) mask =? 0)) (seq 0 n)).

Definition add_keys (d : list string) (ks : list string) : list string :=
  foldl (fun acc k => if existsb (String.eqb k) acc then acc else acc ++ [k]) d ks.

Section Platform.
Variable intf : OppRs232Intf.

(** [calc_crc8_part_msg(msg, start_index, num_chars)] reads
    [msg[start_index .. start_index + num_chars - 1]]. *)
Definition calc_crc8_part_msg (msg : list byte) (start_index num_chars : nat) : Mp Z :=
  if (start_index + num_chars <=? length msg)%nat
  then ret (ord (crc8 intf (take num_chars (drop start_index msg))))
  else raise IndexError.

Definition calc_crc8_whole_msg (msg : list byte) : list byte := [crc8 intf msg].

(** The table built in [HardwarePlatform.__init__]. *)
Definition opp_commands : list (Z * handler) :=
  table_set (table_set (table_set (table_set (table_set []
    (ord (INV_CMD intf)) h_inv_resp)
    (ord (EOM_CMD intf)) h_eom_resp)
    (ord (GET_GEN2_CFG intf)) h_get_gen2_cfg_resp)
    (ord (READ_GEN2_INP_CMD intf)) h_read_gen2_inp_resp)
    (ord (GET_GET_VERS_CMD intf)) h_vers_resp.

Definition card_name (a : Z) : string := pretty (a - ord (CARD_ID_GEN2_CARD intf)).

(** [OPPIncandCard(addr, mask, incand_dict)] appended to [opp_incands] *)
Definition new_incand_card (a m : Z) : Mp unit :=
  modify (fun s => set_incandDict (add_keys (incandDict s) (channels (card_name a) m 32)) s) ;;
  modify (fun s => set_opp_incands (opp_incands s ++ [(a, m)]) s).

(** [OPPSolenoidCard(addr, mask, sol_dict, platform)] appended to
    [opp_solenoid] *)
Definition new_solenoid_card (a m : Z) : Mp unit :=
  modify (fun s => set_solDict (add_keys (solDict s) (channels (card_name a) m 16)) s) ;;
  modify (fun s => set_opp_solenoid (opp_solenoid s ++ [(a, m)]) s).

(** [OPPInputCard(addr, mask, inp_dict, inp_addr_dict)] appended to
    [opp_inputs] *)
Definition new_input_card (a m : Z) : Mp unit :=
  modify (fun s => set_inpAddrDict (table_set (inpAddrDict s) a (length (opp_inputs s))) s) ;;
  modify (fun s => set_inpDict (add_keys (inpDict s) (channels (card_name a) m 32)) s) ;;
  modify (fun s => set_opp_inputs
                     (opp_inputs s ++ [{| addr := a; oldState := 0; mask := m;
                                          cardNum := card_name a |}]) s).

(** [OPPNeopixelCard(addr, neo_card_dict, platform)] appended to
    [opp_neopixels] *)
Definition new_neopixel_card (a : Z) : Mp unit :=
  modify (fun s => set_neoCardDict (add_keys (neoCardDict s) [card_name a]) s) ;;
  modify (fun s => set_opp_neopixels (opp_neopixels s ++ [a]) s).

(** The [while msg[index] != EOM] loop of [inv_resp], on [msg[index:]]. *)
Fixpoint inv_loop (rest : list byte) : Mp unit :=
  match rest with
  | [] => raise IndexError
  | b :: rest' =>
      if ord b =? ord (EOM_CMD intf) then ret tt
      else
        when (Z.land (ord b) (ord (CARD_ID_TYPE_MASK intf)) =? ord (CARD_ID_GEN2_CARD intf))
             (modify (fun s => set_numGen2Brd (numGen2Brd s + 1) s) ;;
              modify (fun s => set_gen2AddrArr (gen2AddrArr s ++ [ord b]) s) ;;
              modify (fun s => set_currInpData (currInpData s ++ [0]) s)) ;;
        inv_loop rest'
  end.

Definition inv_resp (msg : list byte) : Mp unit :=
  log_msg DebugInvResp ;;
  inv_loop (drop 1 msg) ;;
  n <- gets numGen2Brd ;;
  log_msg (InfoFoundBoards n).

Definition eom_resp (msg : list byte) : Mp unit := ret tt.

(** The masks collected from the wing bytes of one sub-frame:
    [(has_neo, sol_mask, inp_mask, incand_mask)]. *)
Definition wing_masks (msg : list byte) (curr_index : nat)
  : Mp (bool * Z * Z * Z) :=
  fold_each (seq 0 (NUM_G2_WING_PER_BRD intf)) (false, 0, 0, 0)
    (fun acc wing_index =>
       let '(has_neo, sol_mask, inp_mask, incand_mask) := acc in
       w <- msg_at msg (curr_index + 2 + wing_index) ;;
       let wi := Z.of_nat wing_index in
       if w =? ord (WING_SOL intf) then
         ret (has_neo, Z.lor sol_mask (Z.shiftl 0x0f (4 * wi)),
              Z.lor inp_mask (Z.shiftl 0x0f (8 * wi)), incand_mask)
       else if w =? ord (WING_INP intf) then
         ret (has_neo, sol_mask, Z.lor inp_mask (Z.shiftl 0xff (8 * wi)), incand_mask)
       else if w =? ord (WING_INCAND intf) then
         ret (has_neo, sol_mask, inp_mask, Z.lor incand_mask (Z.shiftl 0xff (8 * wi)))
       else if w =? ord (WING_NEO intf) then
         ret (true, sol_mask, inp_mask, incand_mask)
       else ret acc).

(** The poll command of one input card. *)
Definition inp_msg (a : byte) : list byte :=
  let body := [a; READ_GEN2_INP_CMD intf; Byte.x00; Byte.x00; Byte.x00; Byte.x00] in
  body ++ calc_crc8_whole_msg body.

(** The [while True] loop of [get_gen2_cfg_resp]; the result is
    [whole_msg].  Every pass reads [msg[curr_index + 6]] and the index
    grows by 7, so after [length msg] passes the next read is out of range:
    running out of [passes] is that [IndexError]. *)
Fixpoint cfg_loop (passes : nat) (msg : list byte) (curr_index : nat)
    (whole_msg : list byte) : Mp (list byte) :=
  match passes with
  | O => raise IndexError
  | S passes' =>
      c <- calc_crc8_part_msg msg curr_index 6 ;;
      got <- msg_at msg (curr_index + 6) ;;
      if negb (got =? c) then
        modify (fun s => set_badCRC (badCRC s + 1) s) ;;
        log_msg (WarnBadCRC msg) ;;
        ret whole_msg
      else
        masks <- wing_masks msg curr_index ;;
        let '(has_neo, sol_mask, inp_mask, incand_mask) := masks in
        a <- msg_at msg curr_index ;;
        when (negb (incand_mask =? 0)) (new_incand_card a incand_mask) ;;
        when (negb (sol_mask =? 0)) (new_solenoid_card a sol_mask) ;;
        when (negb (inp_mask =? 0)) (new_input_card a inp_mask) ;;
        let whole_msg :=
          if negb (inp_mask =? 0)
          then whole_msg ++ match msg !! curr_index with
                            | Some b => inp_msg b
                            | None => []
                            end
          else whole_msg in
        when has_neo (new_neopixel_card a) ;;
        e <- msg_at msg (curr_index + 7) ;;
        if e =? ord (EOM_CMD intf) then ret whole_msg
        else
          n <- msg_at msg (curr_index + 8) ;;
          if n =? ord (GET_GEN2_CFG intf) then
            cfg_loop passes' msg (curr_index + 7) whole_msg
          else
            log_msg (WarnMalformedCfg msg) ;;
            ret whole_msg
  end.

Definition get_gen2_cfg_resp (msg : list byte) : Mp unit :=
  log_msg DebugCfgResp ;;
  whole_msg <- cfg_loop (length msg) msg 0 [] ;;
  modify (set_read_input_msg (whole_msg ++ [EOM_CMD intf])).

(** The [while not end] loop of [vers_resp], with the same bound on the
    number of passes as [cfg_loop]. *)
Fixpoint vers_loop (passes : nat) (msg : list byte) (curr_index : nat) : Mp unit :=
  match passes with
  | O => raise IndexError
  | S passes' =>
      c <- calc_crc8_part_msg msg curr_index 6 ;;
      got <- msg_at msg (curr_index + 6) ;;
      if negb (got =? c) then
        modify (fun s => set_badCRC (badCRC s + 1) s) ;;
        log_msg (WarnBadCRC msg)
      else
        b2 <- msg_at msg (curr_index + 2) ;;
        b3 <- msg_at msg (curr_index + 3) ;;
        b4 <- msg_at msg (curr_index + 4) ;;
        b5 <- msg_at msg (curr_index + 5) ;;
        let version :=
          Z.lor (Z.lor (Z.lor (Z.shiftl b2 24) (Z.shiftl b3 16)) (Z.shiftl b4 8)) b5 in
        log_msg (InfoFirmware version) ;;
        modify (fun s => if version <? minVersion s then set_minVersion version s else s) ;;
        (if version =? BAD_FW_VERSION then raise AssertionError else ret tt) ;;
        modify (fun s => set_oppFirmwareVers (oppFirmwareVers s ++ [version]) s) ;;
        e <- msg_at msg (curr_index + 7) ;;
        if e =? ord (EOM_CMD intf) then ret tt
        else
          n <- msg_at msg (curr_index + 8) ;;
          if n =? ord (GET_GET_VERS_CMD intf) then vers_loop passes' msg (curr_index + 7)
          else log_msg (WarnMalformedVers msg)
  end.

Definition vers_resp (msg : list byte) : Mp unit :=
  log_msg DebugVersResp ;;
  vers_loop (length msg) msg 0.

(** [self.machine.switch_controller.process_switch_by_num(state, num, ...)] *)
Definition process_switch_by_num (state : Z) (num : string) : Mp unit :=
  modify (fun s => set_switch_events (switch_events s ++ [(num, state)]) s).

(** One round of the [for index in range(0, 32)] loop of
    [read_gen2_inp_resp]; the carried variable is [curr_bit]. *)
Definition report_round (card : string) (changes new_state : Z) (curr_bit : Z)
    (index : nat) : Mp Z :=
  when (negb (Z.land curr_bit changes =? 0))
       (if Z.land curr_bit new_state =? 0
        then process_switch_by_num 1 (channel_number card index)
        else process_switch_by_num 0 (channel_number card index)) ;;
  ret (Z.shiftl curr_bit 1).

Definition report_changes (card : string) (changes new_state : Z) : Mp unit :=
  fold_each (seq 0 32) 1 (report_round card changes new_state) ;;
  ret tt.

Definition read_gen2_inp_resp (msg : list byte) : Mp unit :=
  c <- calc_crc8_part_msg msg 0 6 ;;
  got <- msg_at msg 6 ;;
  if negb (got =? c) then
    modify (fun s => set_badCRC (badCRC s + 1) s) ;;
    log_msg (WarnBadCRC msg)
  else
    a <- msg_at msg 0 ;;
    d <- gets inpAddrDict ;;
    match table_get d a with
    | None => raise KeyError
    | Some i =>
        cards <- gets opp_inputs ;;
        match cards !! i with
        | None => raise BadRef
        | Some opp_inp =>
            b2 <- msg_at msg 2 ;;
            b3 <- msg_at msg 3 ;;
            b4 <- msg_at msg 4 ;;
            b5 <- msg_at msg 5 ;;
            let new_state :=
              Z.lor (Z.lor (Z.lor (Z.shiftl b2 24) (Z.shiftl b3 16)) (Z.shiftl b4 8)) b5 in
            has_sc <- gets has_switch_controller ;;
            when has_sc
                 (let changes := Z.lxor (oldState opp_inp) new_state in
                  when (negb (changes =? 0))
                       (report_changes (cardNum opp_inp) changes new_state)) ;;
            modify (fun s => set_opp_inputs (alter (set_oldState new_state) i (opp_inputs s)) s)
        end
    end.

(** [process_received_message]: the command is an integer taken from the
    message, or one of the constants [ILLEGAL_CMD] and [EOM_CMD], which are
    byte strings and so never a key of the integer-keyed table ([None]). *)
Definition command_of (msg : list byte) : option Z :=
  match msg with
  | [] => None
  | b0 :: rest =>
      if (ord (CARD_ID_GEN2_CARD intf) <=? ord b0)
         && (ord b0 <? ord (CARD_ID_GEN2_CARD intf) + 0x20)
      then match rest with
           | b1 :: _ => Some (ord b1)
           | [] => None
           end
      else if (ord b0 =? ord (INV_CMD intf)) || (ord b0 =? ord (EOM_CMD intf))
      then Some (ord b0)
      else None
  end.

Definition run_handler (h : handler) (msg : list byte) : Mp unit :=
  match h with
  | h_inv_resp => inv_resp msg
  | h_eom_resp => eom_resp msg
  | h_get_gen2_cfg_resp => get_gen2_cfg_resp msg
  | h_read_gen2_inp_resp => read_gen2_inp_resp msg
  | h_vers_resp => vers_resp msg
  end.

Definition process_received_message (msg : list byte) : Mp unit :=
  match command_of msg with
  | Some cmd =>
      match table_get opp_commands cmd with
      | Some h => run_handler h msg
      | None => log_msg (WarnUnknownCommand msg)
      end
  | None => log_msg (WarnUnknownCommand msg)
  end.

(** The receive-queue loop of [tick]: [while not self.receive_queue.empty()]. *)
Fixpoint drain (q : list (list byte)) : Mp unit :=
  match q with
  | [] => ret tt
  | msg :: rest =>
      modify (set_receive_queue rest) ;;
      process_received_message msg ;;
      drain rest
  end.

Definition process_receive_queue : Mp unit :=
  q <- gets receive_queue ;;
  drain q.

(** *** SerialCommunicator._receive_loop *)

Definition is_gen2_addr (b : byte) : bool := Z.land (ord b) 0xe0 =? 0x20.

(** The inner [while strlen > 0] loop entered after synch was lost: bytes
    are discarded up to the next card address. *)
Fixpoint resync (p : list byte) : list byte :=
  match p with
  | [] => []
  | b :: rest => if is_gen2_addr b then p else resync rest
  end.

Lemma resync_length (p : list byte) : (length (resync p) <= length p)%nat.
Proof.
  induction p as [|b rest IH]; simpl; [lia|].
  destruct (is_gen2_addr b); simpl; lia.
Qed.

(** The [while strlen >= 7] loop on the buffer [p] ([strlen] is
    [len(partMsg)] throughout): the frames put on the receive queue, in
    order, and what is left of the buffer. *)
Equations? split_frames (p : list byte) : list (list byte) * list byte
  by wf (length p) lt :=
split_frames p with le_lt_dec 7 (length p) := {
  | right _ => ([], p)
  | left _ with p := {
      | [] => ([], [])
      | b0 :: rest =>
          if is_gen2_addr b0 then
            if match rest with
               | b1 :: _ => ord b1 =? ord (READ_GEN2_INP_CMD intf)
               | [] => false
               end
            then (take 7 (b0 :: rest) :: (split_frames (drop 7 (b0 :: rest))).1,
                  (split_frames (drop 7 (b0 :: rest))).2)
            else split_frames (resync (drop 2 (b0 :: rest)))
          else if ord b0 =? ord (EOM_CMD intf) then split_frames rest
          else split_frames (resync rest) } }.
Proof.
  all: try (pose proof (resync_length rest)).
  all: try (pose proof (resync_length (drop 2 (b0 :: rest)))).
  all: repeat rewrite length_drop in *; simpl in *; try lia.
Qed.

(** One round of the receive loop, for the bytes [resp] just read. *)
Definition receive (resp : list byte) : Mp unit :=
  modify (fun s => set_partMsg (partMsg s ++ resp) s) ;;
  buf <- gets partMsg ;;
  modify (fun s => set_receive_queue (receive_queue s ++ (split_frames buf).1) s) ;;
  modify (set_partMsg (split_frames buf).2).

End Platform.

End OppModel.

(* ===================================================================== *)
(** * mpf/platforms/opp.py: drivers, lights and the machine loop *)
(* ===================================================================== *)

Module OppDriverModel.
Import Py OppModel.
Local Open Scope py_scope.

(** The byte-string constants of [OppRs232Intf] that are only ever
    spliced into outgoing messages ([msg.extend(...)]). *)
Record OppRs232IntfOut := {
  INCAND_CMD : list byte;
  INCAND_SET_ON_OFF : list byte;
  KICK_SOL_CMD : list byte
}.

(** Debug lines written by the methods below. *)
Inductive debug_event :=
| DebugUpdateIncand (cmd : list byte)
| DebugDisablingSolenoid (number : string)
| DebugTriggeringSolenoid (cmd : list byte).

(** What the platform holds besides the attributes of the receive side:
    - [incand_states]: [(oldState, newState)] of the cards of
      [opp_incands], by position; a card without an entry is as its
      constructor left it, [(0, 0)];
    - [opp_connection]: [None], or the messages handed to the
      communicator's [send], oldest first;
    - [incand_reg] and [tickCnt];
    - [debug_log]: the debug lines, in order. *)
Record drivers := {
  hw : platform;
  incand_states : list (Z * Z);
  opp_connection : option (list (list byte));
  incand_reg : bool;
  tickCnt : Z;
  debug_log : list debug_event
}.

Definition set_hw (x : platform) (d : drivers) : drivers :=
  let '(Build_drivers _ b c e f g) := d in Build_drivers x b c e f g.
Definition set_incand_states (x : list (Z * Z)) (d : drivers) : drivers :=
  let '(Build_drivers a _ c e f g) := d in Build_drivers a x c e f g.
Definition set_opp_connection (x : option (list (list byte))) (d : drivers) : drivers :=
  let '(Build_drivers a b _ e f g) := d in Build_drivers a b x e f g.
Definition set_incand_reg (x : bool) (d : drivers) : drivers :=
  let '(Build_drivers a b c _ f g) := d in Build_drivers a b c x f g.
Definition set_tickCnt (x : Z) (d : drivers) : drivers :=
  let '(Build_drivers a b c e _ g) := d in Build_drivers a b c e x g.
Definition set_debug_log (x : list debug_event) (d : drivers) : drivers :=
  let '(Build_drivers a b c e f _) := d in Build_drivers a b c e f x.

Definition Md := M drivers.

(** A method of the receive side run on the platform. *)
Definition on_hw {A} (m : Mp A) : Md A :=
  fun d => let (r, p) := m (hw d) in (r, set_hw p d).

(** [self.opp_connection.send(msg)]: [SerialCommunicator.send] puts the
    message on the send queue; without a connection the attribute lookup
    on [None] fails. *)
Definition send (msg : list byte) : Md unit :=
  fun d => match opp_connection d with
           | Some q => (Ok tt, set_opp_connection (Some (q ++ [msg])) d)
           | None => (Raise AttributeError, d)
           end.

Definition debug (e : debug_event) : Md unit :=
  modify (fun d => set_debug_log (debug_log d ++ [e]) d).

Definition byte_of (x : Z) : byte :=
  match Byte.of_N (Z.to_N x) with
  | Some b => b
  | None => Byte.x00
  end.

(** [msg.append(x)] on a [bytearray]: [x] must be in [range(0, 256)]. *)
Definition append_byte (msg : list byte) (x : Z) : result (list byte) :=
  if (0 <=? x) && (x <? 256) then Ok (msg ++ [byte_of x]) else Raise ValueError.

(** ** Hardware numbers *)

(** [s.split(sep)] *)
Fixpoint split_on (sep : ascii) (s : string) : list string :=
  match s with
  | EmptyString => [EmptyString]
  | String c rest =>
      if Ascii.eqb c sep then EmptyString :: split_on sep rest
      else match split_on sep rest with
           | first :: others => String c first :: others
           | [] => [String c EmptyString]
           end
  end.

(** [a, b = number.split('-')]: anything but two parts cannot be
    unpacked. *)
Definition two_parts (number : string) : result (string * string) :=
  match split_on "-"%char number with
  | [a; b] => Ok (a, b)
  | _ => Raise ValueError
  end.

Fixpoint decimal (s : string) (acc : Z) : option Z :=
  match s with
  | EmptyString => Some acc
  | String c rest =>
      let n := Z.of_nat (nat_of_ascii c) - 48 in
      if (0 <=? n) && (n <=? 9) then decimal rest (10 * acc + n) else None
  end.

(** [int(s)] for the index part of a hardware number.  Every number the
    card constructors issue ends in [str(index)], a run of decimal digits,
    and that is what is read here; the other spellings [int] accepts
    (a sign, blanks, underscores) never reach it and are taken as
    malformed. *)
Definition int_of (s : string) : result Z :=
  match s with
  | EmptyString => Raise ValueError
  | _ => match decimal s 0 with
         | Some z => Ok z
         | None => Raise ValueError
         end
  end.

Section Drivers.
Variable intf : OppRs232Intf.
Variable out : OppRs232IntfOut.

(** ** Incandescent lights *)

Definition incand_state (d : drivers) (card : nat) : Z * Z :=
  default (0, 0) (incand_states d !! card).

Definition set_incand_state (card : nat) (st : Z * Z) (d : drivers) : drivers :=
  set_incand_states
    (<[card := st]> (incand_states d
                     ++ replicate (S card - length (incand_states d)) (0, 0))) d.

(** [self.incandCard.newState = f(self.incandCard.newState)] *)
Definition update_newState (card : nat) (f : Z -> Z) : Md unit :=
  modify (fun d => let st := incand_state d card in
                   set_incand_state card (fst st, f (snd st)) d).

(** [OPPIncand.off()] for the light [number] of the card at position
    [card] of [opp_incands]. *)
Definition OPPIncand_off (card : nat) (number : string) : Md unit :=
  parts <- lift (two_parts number) ;;
  incand <- lift (int_of (snd parts)) ;;
  let curr_bit := Z.shiftl 1 incand in
  update_newState card (fun st => Z.land st (Z.lnot curr_bit)).

(** [OPPIncand.on(brightness)] *)
Definition OPPIncand_on (card : nat) (number : string) (brightness : Z) : Md unit :=
  parts <- lift (two_parts number) ;;
  incand <- lift (int_of (snd parts)) ;;
  let curr_bit := Z.shiftl 1 incand in
  if brightness =? 0
  then update_newState card (fun st => Z.land st (Z.lnot curr_bit))
  else update_newState card (fun st => Z.lor st curr_bit).

(** The message of one card in [update_incand]. *)
Definition incand_msg (a newState : Z) : result (list byte) :=
  match append_byte [] a with
  | Raise e => Raise e
  | Ok msg =>
      let msg := msg ++ INCAND_CMD out ++ INCAND_SET_ON_OFF out in
      match append_byte msg (Z.land (Z.shiftr newState 24) 0xff) with
      | Raise e => Raise e
      | Ok msg =>
          match append_byte msg (Z.land (Z.shiftr newState 16) 0xff) with
          | Raise e => Raise e
          | Ok msg =>
              match append_byte msg (Z.land (Z.shiftr newState 8) 0xff) with
              | Raise e => Raise e
              | Ok msg =>
                  match append_byte msg (Z.land newState 0xff) with
                  | Raise e => Raise e
                  | Ok msg => Ok (msg ++ calc_crc8_whole_msg intf msg)
                  end
              end
          end
      end
  end.

(** One round of [for incand in self.opp_incands]; the carried variable
    is [whole_msg]. *)
Definition update_card (whole_msg : list byte) (ic : nat * (Z * Z)) : Md (list byte) :=
  st <- gets (fun d => incand_state d (fst ic)) ;;
  if negb (Z.lxor (fst st) (snd st) =? 0) then
    modify (set_incand_state (fst ic) (snd st, snd st)) ;;
    msg <- lift (incand_msg (fst (snd ic)) (snd st)) ;;
    ret (whole_msg ++ msg)
  else ret whole_msg.

Definition update_incand : Md unit :=
  cards <- gets (fun d => opp_incands (hw d)) ;;
  whole_msg <- fold_each (zip (seq 0 (length cards)) cards) [] update_card ;;
  when (negb (length whole_msg =? 0)%nat)
       (send (whole_msg ++ [EOM_CMD intf]) ;;
        debug (DebugUpdateIncand (whole_msg ++ [EOM_CMD intf]))).

(** ** Solenoids *)

(** [OPPSolenoid._kick_coil(sol_int, on)] of a solenoid on the card at
    address [a]; a negative shift count is a [ValueError]. *)
Definition _kick_coil (a : Z) (sol_int : Z) (on : bool) : Md unit :=
  if sol_int <? 0 then raise ValueError
  else
    let mask := Z.shiftl 1 sol_int in
    let hi := Z.land (Z.shiftr mask 8) 0xff in
    let lo := Z.land mask 0xff in
    msg <- lift (append_byte [] a) ;;
    let msg := msg ++ KICK_SOL_CMD out in
    msg <- lift (append_byte msg (if on then hi else 0)) ;;
    msg <- lift (append_byte msg (if on then lo else 0)) ;;
    msg <- lift (append_byte msg hi) ;;
    msg <- lift (append_byte msg lo) ;;
    debug (DebugTriggeringSolenoid (msg ++ calc_crc8_whole_msg intf msg)) ;;
    send (msg ++ calc_crc8_whole_msg intf msg).

(** [OPPSolenoid.disable(coil)] *)
Definition OPPSolenoid_disable (a : Z) (number : string) : Md unit :=
  parts <- lift (two_parts number) ;;
  sol_int <- lift (int_of (snd parts)) ;;
  debug (DebugDisablingSolenoid number) ;;
  _kick_coil a sol_int false.

(** The switch a solenoid can be tied to by a hardware rule:
    [((int(solenoid) & 0x0c) << 1) | (int(solenoid) & 0x03)]. *)
Definition matching_sw (solenoid : Z) : Z :=
  Z.lor (Z.shiftl (Z.land solenoid 0x0c) 1) (Z.land solenoid 0x03).

(** [HardwarePlatform._verify_coil_and_switch_fit(switch, coil)] on the
    hardware numbers of the two. *)
Definition _verify_coil_and_switch_fit (switch_number coil_number : string)
  : result unit :=
  match two_parts coil_number with
  | Raise e => Raise e
  | Ok (card, solenoid) =>
      match two_parts switch_number with
      | Raise e => Raise e
      | Ok (sw_card, sw_num) =>
          match int_of solenoid with
          | Raise e => Raise e
          | Ok sol =>
              if negb (String.eqb card sw_card) then Raise AssertionError
              else match int_of sw_num with
                   | Raise e => Raise e
                   | Ok sw =>
                       if negb (matching_sw sol =? sw) then Raise AssertionError
                       else Ok tt
                   end
          end
      end
  end.

(** ** Switches *)

(** A dict keyed by strings, filled by assignments in order. *)
Fixpoint states_set (d : list (string * Z)) (k : string) (v : Z) : list (string * Z) :=
  match d with
  | [] => [(k, v)]
  | (k', v') :: rest =>
      if String.eqb k' k then (k', v) :: rest else (k', v') :: states_set rest k v
  end.

Fixpoint states_get (d : list (string * Z)) (k : string) : option Z :=
  match d with
  | [] => None
  | (k', v) :: rest => if String.eqb k' k then Some v else states_get rest k
  end.

(** The inner loop of [get_hw_switch_states] for one card; [curr_bit] is
    [1 << index] throughout. *)
Definition card_states (hw_states : list (string * Z)) (opp_inp : OPPInputCard)
  : list (string * Z) :=
  foldl (fun acc index =>
           let curr_bit := Z.shiftl 1 (Z.of_nat index) in
           if negb (Z.land curr_bit (mask opp_inp) =? 0) then
             states_set acc (channel_number (cardNum opp_inp) index)
               (if Z.land curr_bit (oldState opp_inp) =? 0 then 1 else 0)
           else acc)
        hw_states (seq 0 32).

Definition get_hw_switch_states (s : platform) : list (string * Z) :=
  foldl card_states [] (opp_inputs s).

(** [configure_switch(config)] for [config['number'] = number]; the
    switch object returned is the one filed under that number. *)
Definition configure_switch (number : string) : Md string :=
  conn <- gets opp_connection ;;
  match conn with
  | None => raise AssertionError
  | Some _ =>
      known <- gets (fun d => inpDict (hw d)) ;;
      if negb (existsb (String.eqb number) known) then raise AssertionError
      else ret number
  end.

(** [configure_matrixlight(config)] *)
Definition configure_matrixlight (number : string) : Md string :=
  conn <- gets opp_connection ;;
  match conn with
  | None => raise AssertionError
  | Some _ =>
      known <- gets (fun d => incandDict (hw d)) ;;
      if negb (existsb (String.eqb number) known) then raise AssertionError
      else
        modify (set_incand_reg true) ;;
        ret number
  end.

(** ** The machine loop *)

Definition tick : Md unit :=
  modify (fun d => set_tickCnt (tickCnt d + 1) d) ;;
  n <- gets tickCnt ;;
  let curr_tick := n mod 10 in
  reg <- gets incand_reg ;;
  when (reg && (curr_tick =? 5)) update_incand ;;
  on_hw (process_receive_queue intf) ;;
  when (curr_tick =? 0)
       (msg <- gets (fun d => read_input_msg (hw d)) ;;
        send msg).

End Drivers.

End OppDriverModel.

(* ===================================================================== *)
(** * Concrete collaborators for the examples *)
(* ===================================================================== *)

Module Samples.
Import Py ShowModel.

(** Decimal digits read as a number of seconds. *)
Fixpoint digits (s : string) (acc : Z) : option Z :=
  match s with
  | EmptyString => Some acc
  | String c rest =>
      let n := Z.of_nat (nat_of_ascii c) - 48 in
      if (0 <=? n) && (n <=? 9) then digits rest (10 * acc + n) else None
  end.

(** A stand-in for [Util.string_to_secs] on the inputs of the examples:
    numbers are seconds, and a string is a run of digits with an optional
    leading plus sign; the result is a float. *)
Definition secs_of_number (t : pyval) : result Q :=
  match t with
  | PScalar (SInt z) => Ok (round64 (inject_Z z))
  | PScalar (SFloat q) => Ok q
  | PScalar (SStr (String c rest)) =>
      match (if Ascii.eqb c "+"%char then digits rest 0 else digits (String c rest) 0) with
      | Some z => Ok (round64 (inject_Z z))
      | None => Raise ValueError
      end
  | _ => Raise ValueError
  end.

(** Two registered sections whose validators accept every entry as it is. *)
Definition env0 : collaborators :=
  {| show_players := ["leds"; "lights"];
     validate_show_config := fun _ device settings => Ok [(device, settings)];
     string_to_secs := secs_of_number;
     get_show_file_version := fun _ => 4;
     file_manager_load := fun _ => PList [];
     show_version := 4;
     recursion_limit := 1000 |}.

Definition s0 : machine := new_show None 0.

Definition time_step (t : Z) : pyval := PDict [(SStr "time", PScalar (SInt t))].

(** A loaded two-step show with the token [tok]. *)
Definition two_step_data : pyval :=
  PList [PDict [(SStr "time", PScalar (SInt 0));
                (SStr "leds", PDict [(SStr "(tok)", PDict [])])];
         PDict [(SStr "time", PScalar (SInt 1))]].

Definition two_step_show : machine := snd (Show_init env0 two_step_data s0).

(** The two-step show played with its defaults ([loops=-1]) and a
    completion callback. *)
Definition looping_args : Args.t :=
  {| Args.priority := 0; Args.hold := None; Args.speed := 1%Q;
     Args.start_step := 1; Args.callback := Some 7%nat; Args.loops := -1;
     Args.sync_ms := 0; Args.reset := true; Args.mode := None;
     Args.manual_advance := false; Args.key := None;
     Args.show_tokens := None |}.

Definition playing_show : machine := snd (play env0 looping_args two_step_show).

(** The two-step show played with [loops=1], at the moment its timer
    fires for the last step. *)
Definition finite_args : Args.t :=
  {| Args.priority := 0; Args.hold := None; Args.speed := 1%Q;
     Args.start_step := 1; Args.callback := None; Args.loops := 1;
     Args.sync_ms := 0; Args.reset := true; Args.mode := None;
     Args.manual_advance := false; Args.key := None;
     Args.show_tokens := None |}.

Definition at_last_step : machine :=
  set_clock_time 1 (snd (play env0 finite_args two_step_show)).

(** A play request for five loops, hold flag left out. *)
Definition five_loops : Args.t :=
  {| Args.priority := 0; Args.hold := None; Args.speed := 1%Q;
     Args.start_step := 1; Args.callback := None; Args.loops := 5;
     Args.sync_ms := 0; Args.reset := true; Args.mode := None;
     Args.manual_advance := false; Args.key := None;
     Args.show_tokens := None |}.

(** Show data whose third step lies before the second. *)
Definition out_of_order_data : pyval := PList [time_step 0; time_step 5; time_step 3].

(** A loaded one-step show. *)
Definition one_step_show : machine :=
  snd (Show_init env0 (PList [time_step 0]) s0).

(** The dict [{"(token1)": {"brightness": "(token2)"}}], and the show
    loaded from a single step that holds it under the section [leds]. *)
Definition token_step : pyval :=
  PDict [(SStr "(token1)", PDict [(SStr "brightness", PScalar (SStr "(token2)"))])].

Definition token_data : pyval := PList [PDict [(SStr "leds", token_step)]].

Definition token_show : machine := snd (Show_init env0 token_data s0).

Definition token_args : Args.t :=
  {| Args.priority := 0; Args.hold := None; Args.speed := 1%Q;
     Args.start_step := 1; Args.callback := None; Args.loops := -1;
     Args.sync_ms := 0; Args.reset := true; Args.mode := None;
     Args.manual_advance := false; Args.key := None;
     Args.show_tokens := Some [("token1", SStr "led_1"); ("token2", SInt 200)] |}.

(** *** The serial protocol *)

Import OppModel.

Definition to_byte (z : Z) : byte :=
  match Byte.of_N (Z.to_N (z mod 256)) with
  | Some b => b
  | None => Byte.x00
  end.

(** One byte of a bitwise CRC-8 with polynomial [x^8 + x^2 + x + 1]. *)
Definition crc8_byte (crc : Z) (b : byte) : Z :=
  fold_left (fun c _ =>
               if Z.testbit c 7 then Z.land (Z.lxor (Z.shiftl c 1) 0x07) 0xff
               else Z.land (Z.shiftl c 1) 0xff)
            (seq 0 8) (Z.lxor crc (ord b)).

Definition sample_crc8 (msg : list byte) : byte :=
  to_byte (fold_left crc8_byte msg 0xff).

(** A concrete interface for the examples. *)
Definition sample_intf : OppRs232Intf :=
  {| INV_CMD := Byte.xf0;
     EOM_CMD := Byte.xff;
     GET_GEN2_CFG := Byte.x0d;
     READ_GEN2_INP_CMD := Byte.x08;
     GET_GET_VERS_CMD := Byte.x02;
     CARD_ID_GEN2_CARD := Byte.x20;
     CARD_ID_TYPE_MASK := Byte.xf0;
     WING_SOL := Byte.x01;
     WING_INP := Byte.x02;
     WING_INCAND := Byte.x03;
     WING_NEO := Byte.x06;
     NUM_G2_WING_PER_BRD := 4;
     crc8 := sample_crc8 |}.

(** The platform as [HardwarePlatform.__init__] leaves it, with or without
    a switch controller on the machine. *)
Definition new_platform (has_sc : bool) : platform :=
  {| opp_incands := []; incandDict := []; opp_solenoid := []; solDict := [];
     opp_inputs := []; inpDict := []; inpAddrDict := [];
     read_input_msg := [EOM_CMD sample_intf];
     opp_neopixels := []; neoCardDict := []; numGen2Brd := 0; gen2AddrArr := [];
     currInpData := []; badCRC := 0; oppFirmwareVers := []; minVersion := 0xffffffff;
     has_switch_controller := has_sc; receive_queue := []; partMsg := [];
     switch_events := []; log := [] |}.

(** A configuration sub-frame of the card at [a] with an input wing in its
    first slot, and the same sub-frame with a wrong last byte. *)
Definition cfg_frame (a : byte) : list byte :=
  let body := [a; Byte.x0d; Byte.x02; Byte.x00; Byte.x00; Byte.x00] in
  body ++ [sample_crc8 body].

Definition bad_cfg_frame (a : byte) : list byte :=
  [a; Byte.x0d; Byte.x02; Byte.x00; Byte.x00; Byte.x00;
   to_byte (ord (sample_crc8 [a; Byte.x0d; Byte.x02; Byte.x00; Byte.x00; Byte.x00]) + 1)].

(** An input-state sub-frame of the card at [a] reporting the state bytes
    [b2 b3 b4 b5], and the same sub-frame with a wrong last byte. *)
Definition inp_frame (a b2 b3 b4 b5 : byte) : list byte :=
  let body := [a; Byte.x08; b2; b3; b4; b5] in
  body ++ [sample_crc8 body].

Definition bad_inp_frame (a b2 b3 b4 b5 : byte) : list byte :=
  [a; Byte.x08; b2; b3; b4; b5;
   to_byte (ord (sample_crc8 [a; Byte.x08; b2; b3; b4; b5]) + 1)].

(** A platform that has discovered one input card at address [0x20]. *)
Definition one_card (has_sc : bool) : platform :=
  snd (process_received_message sample_intf (cfg_frame Byte.x20 ++ [Byte.xff])
         (new_platform has_sc)).

(** *** The drivers *)

Import OppDriverModel.

Definition sample_out : OppRs232IntfOut :=
  {| INCAND_CMD := [Byte.x13];
     INCAND_SET_ON_OFF := [Byte.x01];
     KICK_SOL_CMD := [Byte.x07] |}.

(** The driver side of a platform [p] once the serial port is open: no
    light configured, nothing sent, the tick count at zero. *)
Definition new_drivers (p : platform) : drivers :=
  {| hw := p; incand_states := []; opp_connection := Some [];
     incand_reg := false; tickCnt := 0; debug_log := [] |}.

(** A platform with one incandescent card of eight lights at address
    [0x21], and its driver side with the lights 0 and 2 switched on but not
    yet sent. *)
Definition lit_platform : platform :=
  set_opp_incands [(0x21, 0xff)] (new_platform false).

Definition lights_changed : drivers :=
  set_incand_states [(0, 5)] (new_drivers lit_platform).

End Samples.

(* ===================================================================== *)
(** * Properties of the show engine *)
(* ===================================================================== *)

Module ShowSpec.
Import Py ShowModel Samples.
Local Open Scope py_scope.

(** ** Token bindings against the declared tokens *)

Definition bindings_of (a : Args.t) : list (string * scalar) :=
  match Args.show_tokens a with Some d => d | None => [] end.

Lemma bindings_check_true (toks : list string) (d : list (string * scalar)) :
  forallb (fun tr => existsb (String.eqb (fst tr)) toks) d = true <->
  (forall name, name ∈ map fst d -> name ∈ toks).
Proof.
  rewrite forallb_forall. split.
  - intros H name Hin. apply list_elem_of_In, in_map_iff in Hin.
    destruct Hin as [tr [<- Hin]]. specialize (H _ Hin).
    apply existsb_exists in H. destruct H as [t [Ht Heq]].
    apply String.eqb_eq in Heq. subst. now apply list_elem_of_In.
  - intros H tr Hin. apply existsb_exists. exists (fst tr). split.
    + apply list_elem_of_In, H, list_elem_of_In, in_map, Hin.
    + apply String.eqb_refl.
Qed.

Lemma bindings_check_false (toks : list string) (d : list (string * scalar)) name :
  name ∈ map fst d -> name ∉ toks ->
  forallb (fun tr => existsb (String.eqb (fst tr)) toks) d = false.
Proof.
  intros Hin Hnot.
  destruct (forallb _ d) eqn:E; [|reflexivity].
  exfalso. apply Hnot. now apply (proj1 (bindings_check_true toks d) E).
Qed.

(** C8. A play call that binds a name the show does not declare raises
    [ValueError] (the spec's TokenMismatch) before anything else happens:
    the state is unchanged, so no [RunningShow] was created and the running
    set is as before. *)
Theorem C8_token_mismatch_rejected (env : collaborators) (s : machine) (a : Args.t)
    (name : string) :
  name ∈ map fst (bindings_of a) ->
  name ∉ tokens s ->
  play env a s = (Raise ValueError, s).
Proof.
  intros Hin Hnot. unfold play, bind, gets.
  fold (bindings_of a).
  now rewrite (bindings_check_false _ _ _ Hin Hnot).
Qed.

Definition args_with_tokens (d : list (string * scalar)) : Args.t :=
  {| Args.priority := 0; Args.hold := None; Args.speed := 1%Q;
     Args.start_step := 1; Args.callback := None; Args.loops := -1;
     Args.sync_ms := 0; Args.reset := true; Args.mode := None;
     Args.manual_advance := false; Args.key := None;
     Args.show_tokens := Some d |}.

Lemma C8_witness :
  play env0 (args_with_tokens [("colour", SStr "red")]) two_step_show
  = (Raise ValueError, two_step_show).
Proof.
  apply (C8_token_mismatch_rejected env0 two_step_show _ "colour").
  - vm_compute. apply list_elem_of_here.
  - vm_compute. intros H. apply list_elem_of_In in H. simpl in H.
    destruct H as [H|[]]. discriminate H.
Defined.

(** ** Hoare triples for the state and exception monad

    [triple P m Q E]: from a state satisfying [P], [m] either returns [a]
    in a state satisfying [Q a] or raises in a state satisfying [E]. *)

Definition triple {A} (P : machine -> Prop) (m : Mm A)
    (Q : A -> machine -> Prop) (E : machine -> Prop) : Prop :=
  forall s, P s ->
    match m s with
    | (Ok a, s') => Q a s'
    | (Raise _, s') => E s'
    end.

Lemma t_ret {A} (P : machine -> Prop) (a : A) Q E :
  (forall s, P s -> Q a s) -> triple P (ret a) Q E.
Proof. intros H s Hs. now apply H. Qed.

Lemma t_raise {A} (P : machine -> Prop) e (Q : A -> machine -> Prop) (E : machine -> Prop) :
  (forall s, P s -> E s) -> triple P (raise e) Q E.
Proof. intros H s Hs. now apply H. Qed.

Lemma t_bind {A B} (P : machine -> Prop) (m : Mm A) (k : A -> Mm B) R Q E :
  triple P m R E -> (forall a, triple (R a) (k a) Q E) -> triple P (bind m k) Q E.
Proof.
  intros Hm Hk s Hs. unfold bind. specialize (Hm s Hs).
  destruct (m s) as [[a|e] s1]; [now apply Hk | exact Hm].
Qed.

Lemma t_gets {A} (P : machine -> Prop) (f : machine -> A) Q E :
  (forall s, P s -> Q (f s) s) -> triple P (gets f) Q E.
Proof. intros H s Hs. now apply H. Qed.

Lemma t_modify (P : machine -> Prop) (f : machine -> machine) Q E :
  (forall s, P s -> Q tt (f s)) -> triple P (modify f) Q E.
Proof. intros H s Hs. now apply H. Qed.

Lemma t_conseq {A} (P P' : machine -> Prop) (m : Mm A) (Q Q' : A -> machine -> Prop)
    (E E' : machine -> Prop) :
  triple P' m Q' E' ->
  (forall s, P s -> P' s) -> (forall a s, Q' a s -> Q a s) -> (forall s, E' s -> E s) ->
  triple P m Q E.
Proof.
  intros H HP HQ HE s Hs. specialize (H s (HP s Hs)).
  destruct (m s) as [[a|e] s1]; auto.
Qed.

Lemma t_weaken_E {A} (P : machine -> Prop) (m : Mm A) Q (E E' : machine -> Prop) :
  triple P m Q E -> (forall s, E s -> E' s) -> triple P m Q E'.
Proof. intros H HE. eapply t_conseq; eauto. Qed.

Lemma t_lift {A} (P : machine -> Prop) (r : result A) Q E :
  (forall a s, r = Ok a -> P s -> Q a s) -> (forall s, P s -> E s) ->
  triple P (lift r) Q E.
Proof.
  intros HQ HE s Hs. destruct r as [a|e]; simpl; [now apply HQ | now apply HE].
Qed.

Lemma t_for_each {A} (I : machine -> Prop) (xs : list A) (body : A -> Mm unit) E :
  (forall x, triple I (body x) (fun _ => I) E) ->
  triple I (for_each xs body) (fun _ => I) E.
Proof.
  intros Hb. induction xs as [|x rest IH].
  - now apply t_ret.
  - simpl. eapply t_bind; [apply Hb | intros u; apply IH].
Qed.

Lemma t_fold_each {A B} (I : B -> machine -> Prop) (xs : list A) (b : B)
    (body : B -> A -> Mm B) E :
  (forall b x, triple (I b) (body b x) I E) ->
  triple (I b) (fold_each xs b body) I E.
Proof.
  intros Hb. revert b. induction xs as [|x rest IH]; intros b.
  - now apply t_ret.
  - simpl. eapply t_bind; [apply Hb | intros b'; apply IH].
Qed.

Lemma t_when (P : machine -> Prop) (c : bool) (m : Mm unit) Q E :
  (c = true -> triple P m Q E) -> (c = false -> forall s, P s -> Q tt s) ->
  triple P (when c m) Q E.
Proof.
  intros Hm Hs. destruct c; simpl; [now apply Hm | apply t_ret; now apply Hs].
Qed.

(** Computations that only read the state. *)
Definition read_only {A} (m : Mm A) : Prop := forall s, (m s).2 = s.

Lemma ro_ret {A} (a : A) : read_only (ret a : Mm A).
Proof. now intros s. Qed.

Lemma ro_raise {A} e : read_only (raise e : Mm A).
Proof. now intros s. Qed.

Lemma ro_gets {A} (f : machine -> A) : read_only (gets f).
Proof. now intros s. Qed.

Lemma ro_lift {A} (r : result A) : read_only (lift r : Mm A).
Proof. intros s. now destruct r. Qed.

Lemma ro_bind {A B} (m : Mm A) (k : A -> Mm B) :
  read_only m -> (forall a, read_only (k a)) -> read_only (bind m k).
Proof.
  intros Hm Hk s. unfold bind. pose proof (Hm s) as H.
  destruct (m s) as [[a|e] s1]; simpl in H; subst s1; [apply Hk | reflexivity].
Qed.

Lemma ro_deref l : read_only (deref l).
Proof. intros s. unfold deref. now destruct (heap s !! l). Qed.

Lemma ro_get_inst self : read_only (get_inst self).
Proof. intros s. unfold get_inst. now destruct (instances s !! self). Qed.

Ltac ro_solve :=
  repeat first
    [ apply ro_ret | apply ro_raise | apply ro_gets | apply ro_lift
    | apply ro_deref | apply ro_get_inst
    | apply ro_bind; [|intros ?]
    | match goal with |- read_only (match ?x with _ => _ end) => destruct x end ].

Lemma ro_getitem target x : read_only (py_getitem target x).
Proof. unfold py_getitem. ro_solve. Qed.

Lemma ro_contains x c : read_only (py_contains x c).
Proof. unfold py_contains. ro_solve. Qed.

Lemma ro_len v : read_only (py_len v).
Proof. unfold py_len. ro_solve. Qed.

Lemma ro_items v : read_only (py_items v).
Proof. unfold py_items. ro_solve. Qed.

Lemma ro_div a b : read_only (py_div a b).
Proof. unfold py_div. ro_solve. Qed.

Lemma ro_fold_each {A B} (xs : list A) (b : B) (body : B -> A -> Mm B) :
  (forall b x, read_only (body b x)) -> read_only (fold_each xs b body).
Proof.
  intros Hb. revert b. induction xs as [|x rest IH]; intros b; simpl.
  - apply ro_ret.
  - apply ro_bind; [apply Hb | intros b'; apply IH].
Qed.

Lemma ro_walk_path root xs rename : read_only (walk_path root xs rename).
Proof. unfold walk_path. apply ro_fold_each. intros. apply ro_getitem. Qed.

Lemma t_read {A} (P : machine -> Prop) (m : Mm A) :
  read_only m -> triple P m (fun _ => P) P.
Proof.
  intros Hro s Hs. pose proof (Hro s) as H.
  destruct (m s) as [[a|e] s1]; simpl in H; now subst s1.
Qed.

Lemma t_get_inst (P : machine -> Prop) self :
  triple P (get_inst self) (fun a s => P s /\ instances s !! self = Some a) P.
Proof.
  intros s Hs. unfold get_inst.
  destruct (instances s !! self) eqn:E; auto.
Qed.

Lemma t_pure {A} (phi : Prop) (P : machine -> Prop) (m : Mm A) Q E :
  (phi -> triple P m Q E) -> triple (fun s => P s /\ phi) m Q E.
Proof. intros H s [Hs Hphi]. now apply H. Qed.

(** ** Invariants of a step

    The parts of [_run_next_step] that do not decide how the show goes on
    (the calls to the output players, the timer for the next step) keep
    every invariant that does not look at the players' trace entries, the
    pending timers or the time of the next step. *)

Section StepInvariant.
Variable env : collaborators.
Variable self : nat.
Variable I : machine -> Prop.
Hypothesis I_emit : forall s name settings md caller prio hd toks,
  I s -> I (set_trace (trace s ++ [ShowPlayCallback name settings md caller prio hd toks]) s).
Hypothesis I_time : forall s q,
  I s -> I (set_instances (alter (RS.set_next_step_time q) self (instances s)) s).
Hypothesis I_timers : forall s ev, I s -> I (set_clock_events ev s).

Lemma dispatch_keeps (r : RS.t) (items : list (scalar * value)) :
  triple I
    (for_each items (fun kv =>
       if py_eqb (fst kv) (SStr "time") then ret tt
       else match is_show_player env (fst kv) with
            | Some name =>
                nested <- py_contains (fst kv) (snd kv) ;;
                settings <- (if nested then py_getitem (snd kv) (fst kv) else ret (snd kv)) ;;
                emit (ShowPlayCallback name settings (RS.mode r) self (RS.priority r)
                        (RS.hold r) (RS.show_tokens r))
            | None => ret tt
            end))
    (fun _ => I) I.
Proof.
  apply t_for_each. intros kv.
  destruct (py_eqb kv.1 (SStr "time")); [now apply t_ret|].
  destruct (is_show_player env kv.1) as [name|]; [|now apply t_ret].
  eapply t_bind; [apply t_read, ro_contains|]. intros nested.
  eapply t_bind.
  - apply (t_read I). destruct nested; [apply ro_getitem | apply ro_ret].
  - intros settings. apply t_modify. intros s Hs. now apply I_emit.
Qed.

Lemma schedule_next_keeps : triple I (schedule_next self) (fun _ => I) I.
Proof.
  unfold schedule_next.
  eapply t_bind; [apply t_read, ro_get_inst|]. intros r.
  destruct (RS.manual_advance r); [now apply t_ret|].
  eapply t_bind; [apply t_read, ro_getitem|]. intros step.
  eapply t_bind; [apply t_read, ro_getitem|]. intros t.
  eapply t_bind; [apply t_read, ro_div|]. intros dt.
  eapply t_bind; [apply t_read, ro_gets|]. intros now.
  apply (t_bind _ _ _ (fun _ => I)).
  - apply t_modify. intros s Hs. apply (I_time s _ Hs).
  - intros u. apply (t_bind _ _ _ (fun _ => I)).
    + apply t_modify. intros s Hs. apply (I_timers s _ Hs).
    + intros u'. now apply t_ret.
Qed.

End StepInvariant.

(** ** An instance that loops for ever *)















(** ** Computations that leave a part of the state alone *)

Definition keeps {A B} (f : machine -> B) (m : Mm A) : Prop :=
  forall s, f (m s).2 = f s.

Lemma keeps_ro {A B} (f : machine -> B) (m : Mm A) : read_only m -> keeps f m.
Proof. intros H s. now rewrite H. Qed.

Lemma keeps_ret {A B} (f : machine -> B) (a : A) : keeps f (ret a).
Proof. now intros s. Qed.

Lemma keeps_raise {A B} (f : machine -> B) e : keeps f (raise e : Mm A).
Proof. now intros s. Qed.

Lemma keeps_bind {A B C} (f : machine -> C) (m : Mm A) (k : A -> Mm B) :
  keeps f m -> (forall a, keeps f (k a)) -> keeps f (bind m k).
Proof.
  intros Hm Hk s. unfold bind. pose proof (Hm s) as H.
  destruct (m s) as [[a|e] s1]; simpl in H; [now rewrite Hk | exact H].
Qed.

Lemma keeps_modify {B} (f : machine -> B) (g : machine -> machine) :
  (forall s, f (g s) = f s) -> keeps f (modify g).
Proof. intros H s. apply H. Qed.

Lemma keeps_for_each {A B} (f : machine -> B) (xs : list A) (body : A -> Mm unit) :
  (forall x, keeps f (body x)) -> keeps f (for_each xs body).
Proof.
  intros Hb. induction xs as [|x rest IH]; simpl.
  - apply keeps_ret.
  - apply keeps_bind; [apply Hb | intros u; apply IH].
Qed.

Lemma keeps_fold_each {A B C} (f : machine -> C) (xs : list A) (b : B)
    (body : B -> A -> Mm B) :
  (forall b x, keeps f (body b x)) -> keeps f (fold_each xs b body).
Proof.
  intros Hb. revert b. induction xs as [|x rest IH]; intros b; simpl.
  - apply keeps_ret.
  - apply keeps_bind; [apply Hb | intros b'; apply IH].
Qed.

Lemma keeps_alloc {B} (f : machine -> B) o :
  (forall s h, f (set_heap h s) = f s) -> keeps f (alloc o).
Proof. intros H s. apply H. Qed.

Lemma keeps_store {B} (f : machine -> B) l o :
  (forall s h, f (set_heap h s) = f s) -> keeps f (store l o).
Proof. intros H s. apply H. Qed.

Lemma t_keeps {A B} (f : machine -> B) (P : B -> Prop) (m : Mm A) :
  keeps f m ->
  triple (fun s => P (f s)) m (fun _ s => P (f s)) (fun s => P (f s)).
Proof.
  intros Hk s Hs. pose proof (Hk s) as H.
  destruct (m s) as [[a|e] s1]; simpl in H; now rewrite H.
Qed.

(** Store operations touch nothing but the store. *)
Section HeapOnly.
Context {B : Type} (f : machine -> B).
Hypothesis f_heap : forall s h, f (set_heap h s) = f s.

Ltac heap_only :=
  repeat first
    [ apply keeps_ret | apply keeps_raise
    | apply keeps_ro, ro_deref | apply keeps_ro, ro_gets | apply keeps_ro, ro_get_inst
    | apply keeps_ro, ro_getitem | apply keeps_ro, ro_walk_path
    | apply keeps_alloc, f_heap | apply keeps_store, f_heap
    | apply keeps_bind; [|intros ?]
    | apply keeps_for_each; intros ?
    | apply keeps_fold_each; intros ? ?
    | match goal with |- keeps _ (match ?x with _ => _ end) => destruct x end
    | match goal with |- keeps _ (if ?x then _ else _) => destruct x end ].

Lemma keeps_setitem target x v : keeps f (py_setitem target x v).
Proof. unfold py_setitem. heap_only. Qed.

Lemma keeps_pop target k : keeps f (py_pop target k).
Proof. unfold py_pop. heap_only. Qed.

Lemma keeps_append target v : keeps f (py_append target v).
Proof. unfold py_append. heap_only. Qed.

Lemma keeps_get_show_steps depth data : keeps f (get_show_steps depth data).
Proof.
  revert data. induction depth as [|depth IH]; intros data; simpl.
  - apply keeps_raise.
  - apply keeps_bind.
    + heap_only.
    + intros d. destruct d as [c|l]; [apply keeps_ret|].
      apply keeps_bind; [apply keeps_ro, ro_deref|]. intros o. destruct o as [items|kvs].
      * apply keeps_bind; [apply keeps_alloc, f_heap|]. intros nl.
        apply keeps_bind; [|intros u; apply keeps_ret].
        apply keeps_for_each. intros i.
        apply keeps_bind; [apply IH | intros c; apply keeps_append].
      * apply keeps_bind; [apply keeps_alloc, f_heap|]. intros nd.
        apply keeps_bind; [|intros u; apply keeps_ret].
        apply keeps_for_each. intros kv.
        apply keeps_bind; [apply IH | intros c; apply keeps_setitem].
Qed.

Lemma keeps_replace_tokens self kwargs : keeps f (_replace_tokens self kwargs).
Proof.
  unfold _replace_tokens.
  apply keeps_bind; [apply keeps_ro, ro_get_inst|]. intros r.
  apply keeps_bind; [apply keeps_ro, ro_gets|]. intros vals.
  apply keeps_bind.
  { apply keeps_for_each. intros tr.
    destruct (dict_get _ _) as [paths|]; [|apply keeps_ret].
    apply keeps_for_each. intros token_path.
    apply keeps_bind; [apply keeps_ro, ro_walk_path|]. intros target.
    destruct (last token_path); [apply keeps_setitem | apply keeps_raise]. }
  intros u. apply keeps_bind; [apply keeps_ro, ro_gets|]. intros keys.
  apply keeps_bind; [|intros k; apply keeps_ret].
  apply keeps_fold_each. intros keys_replaced tr.
  destruct (dict_get _ _) as [paths|]; [|apply keeps_ret].
  apply keeps_fold_each. intros kr token_path.
  apply keeps_bind; [apply keeps_ro, ro_walk_path|]. intros target.
  apply keeps_bind; [apply keeps_pop|]. intros v.
  apply keeps_bind; [apply keeps_setitem|]. intros u'. apply keeps_ret.
Qed.

End HeapOnly.

(** ** The last step of a show with loops left *)

(** An instance attribute check that the timer of the next step does not
    disturb. *)
Definition inst_is (self : nat) (phi : RS.t -> Prop) (s : machine) : Prop :=
  exists r, instances s !! self = Some r /\ phi r.

Lemma inst_is_alter self (phi : RS.t -> Prop) (f : RS.t -> RS.t) s :
  (forall r, phi r -> phi (f r)) ->
  inst_is self phi s ->
  inst_is self phi (set_instances (alter f self (instances s)) s).
Proof.
  intros Hf (r & Hr & Hphi). exists (f r).
  destruct s; simpl in *. rewrite list_lookup_alter_eq, Hr. auto.
Qed.

Lemma inst_is_frame self (phi : RS.t -> Prop) s s' :
  instances s' = instances s -> inst_is self phi s -> inst_is self phi s'.
Proof. intros Heq (r & Hr & Hphi). exists r. now rewrite Heq. Qed.

(** C2 (what the code does). When the step at the last index runs with a
    positive loop count, the count goes down by one and the cursor stays on
    the last index: the branch for [loops > 0] has no [next_step_index = 0],
    unlike the branch for the infinite show next to it. *)
Theorem C2_finite_loop_repeats_last_step (env : collaborators) (self : nat)
    (s s' : machine) (r : RS.t) (v : scalar) :
  instances s !! self = Some r ->
  Qlt_bool (clock_time s) (RS.next_step_time r) = false ->
  RS.next_step_index r = RS._total_steps r - 1 ->
  RS.loops r > 0 ->
  _run_next_step env self s = (Ok v, s') ->
  exists r', instances s' !! self = Some r' /\
             RS.loops r' = RS.loops r - 1 /\
             RS.next_step_index r' = RS.next_step_index r /\
             RS._stopped r' = RS._stopped r.
Proof.
  intros Hr Hclock Hlast Hloops Hrun.
  set (phi := fun r' : RS.t => RS.loops r' = RS.loops r - 1 /\
                               RS.next_step_index r' = RS.next_step_index r /\
                               RS._stopped r' = RS._stopped r).
  set (P := fun s0 : machine => instances s0 = instances s /\ clock_time s0 = clock_time s).
  assert (H : triple P (_run_next_step env self)
                (fun _ => inst_is self phi) (fun _ => True)).
  { unfold _run_next_step.
    apply (t_bind _ _ _ (fun a s0 => P s0 /\ a = r)).
    { eapply t_conseq; [apply (t_get_inst P) | auto | | auto].
      intros a s0 [[Hi Hc] Ha]. repeat split; auto. rewrite Hi, Hr in Ha. congruence. }
    intros a. apply t_pure. intros ->.
    apply (t_bind _ _ _ (fun now s0 => P s0 /\ now = clock_time s)).
    { apply t_gets. intros s0 [Hi Hc]. repeat split; auto. }
    intros now. apply t_pure. intros ->. rewrite Hclock.
    eapply t_bind; [eapply t_weaken_E; [apply t_read, ro_getitem | auto]|]. intros step.
    eapply t_bind; [eapply t_weaken_E; [apply t_read, ro_items | auto]|]. intros items.
    apply (t_bind _ _ _ (fun _ => P)).
    { eapply t_weaken_E; [|auto].
      apply dispatch_keeps. intros s0 ? ? ? ? ? ? ? [Hi Hc]. now destruct s0. }
    intros u. rewrite Hlast, Z.eqb_refl.
    destruct (RS.loops r >? 0) eqn:Egt;
      [|rewrite Z.gtb_ltb in Egt; apply Z.ltb_ge in Egt; lia].
    apply (t_bind _ _ _ (fun _ => inst_is self phi)).
    { apply t_modify. intros s0 [Hi Hc]. exists (RS.set_loops (RS.loops r - 1) r).
      destruct s0; simpl in *. subst. rewrite list_lookup_alter_eq, Hr. split; [reflexivity|].
      unfold phi. now destruct r. }
    intros u'.
    eapply t_weaken_E; [|auto].
    apply schedule_next_keeps.
    - intros s0 q. apply inst_is_alter. intros r0 (H1 & H2 & H3). unfold phi.
      now destruct r0.
    - intros s0 ev. apply inst_is_frame. now destruct s0. }
  specialize (H s (conj eq_refl eq_refl)). rewrite Hrun in H. exact H.
Qed.

Lemma C2_witness :
  exists r', instances (_run_next_step env0 0 at_last_step).2 !! 0%nat = Some r' /\
             RS.loops r' = 1 - 1 /\
             RS.next_step_index r' = 1 /\
             RS._stopped r' = false.
Proof.
  refine (C2_finite_loop_repeats_last_step env0 0 at_last_step
            (_run_next_step env0 0 at_last_step).2
            {| RS.show_steps := VRef 5%nat; RS.priority := 0; RS.hold := false;
               RS.speed := 1%Q; RS.callback := None; RS.loops := 1;
               RS.reset := true; RS.mode := None; RS.manual_advance := false;
               RS.key := None; RS.show_tokens := []; RS._stopped := false;
               RS._total_steps := 2; RS.next_step_index := 1;
               RS.next_step_time := 1%Q |}
            (SFloat 1) _ _ _ _ _).
  - vm_compute. reflexivity.
  - vm_compute. reflexivity.
  - reflexivity.
  - simpl. lia.
  - vm_compute. reflexivity.
Defined.

(** ** A show of one step *)

Lemma t_keeps_inst {A} self (phi : RS.t -> Prop) (m : Mm A) :
  keeps instances m ->
  triple (inst_is self phi) m (fun _ => inst_is self phi) (inst_is self phi).
Proof.
  intros Hk.
  apply (t_keeps instances (fun ins => exists r, ins !! self = Some r /\ phi r) m Hk).
Qed.

Lemma keeps_emit {B} (f : machine -> B) e :
  (forall s t, f (set_trace t s) = f s) -> keeps f (emit e).
Proof. intros H s. apply H. Qed.

Lemma stop_keeps_inst env self hold (phi : RS.t -> Prop) :
  (forall r, phi r -> phi (RS.set_stopped true r)) ->
  triple (inst_is self phi) (stop env self hold)
         (fun _ => inst_is self phi) (inst_is self phi).
Proof.
  intros Hst. unfold stop.
  eapply t_bind; [apply t_read, ro_get_inst|]. intros r.
  destruct (RS._stopped r); [now apply t_ret|].
  apply (t_bind _ _ _ (fun _ => inst_is self phi)).
  { apply t_modify. intros s. now apply inst_is_alter. }
  intros u. apply t_keeps_inst.
  apply keeps_bind; [apply keeps_emit; now intros []|]. intros u1.
  apply keeps_bind.
  { intros s. unfold running_remove. destruct (existsb _ _); now destruct s. }
  intros u2. apply keeps_bind; [apply keeps_modify; now intros []|]. intros u3.
  apply keeps_bind.
  { destruct (negb _); simpl; [|apply keeps_ret].
    apply keeps_for_each. intros player. apply keeps_emit. now intros []. }
  intros u4. destruct (RS.callback r); [apply keeps_emit; now intros [] | apply keeps_ret].
Qed.

Lemma run_next_step_keeps_inst env self (phi : RS.t -> Prop) :
  (forall r, phi r -> RS.loops r <= 0) ->
  (forall r, phi r -> phi (RS.set_stopped true r)) ->
  (forall r n, phi r -> phi (RS.set_next_step_index n r)) ->
  (forall r q, phi r -> phi (RS.set_next_step_time q r)) ->
  triple (inst_is self phi) (_run_next_step env self)
         (fun _ => inst_is self phi) (inst_is self phi).
Proof.
  intros Hle Hst Hidx Htime. set (I := inst_is self phi).
  assert (I_emit : forall s name settings md caller prio hd toks,
    I s -> I (set_trace (trace s ++ [ShowPlayCallback name settings md caller prio hd toks]) s)).
  { intros s ? ? ? ? ? ? ?. apply inst_is_frame. now destruct s. }
  assert (I_time : forall s q,
    I s -> I (set_instances (alter (RS.set_next_step_time q) self (instances s)) s)).
  { intros s q. apply inst_is_alter. intros r. apply Htime. }
  assert (I_timers : forall s ev, I s -> I (set_clock_events ev s)).
  { intros s ev. apply inst_is_frame. now destruct s. }
  unfold _run_next_step.
  apply (t_bind _ _ _ (fun a s => I s /\ RS.loops a <= 0)).
  { eapply t_conseq; [apply (t_get_inst I) | auto | | auto].
    intros a s [Hs Ha]. split; [exact Hs|].
    destruct Hs as (r & Hr & Hphi). rewrite Hr in Ha. injection Ha as <-. now apply Hle. }
  intros r. apply t_pure. intros Hr.
  eapply t_bind; [apply t_read, ro_gets|]. intros now.
  destruct (Qlt_bool now (RS.next_step_time r)); [now apply t_ret|].
  eapply t_bind; [apply t_read, ro_getitem|]. intros step.
  eapply t_bind; [apply t_read, ro_items|]. intros items.
  apply (t_bind _ _ _ (fun _ => I)); [now apply dispatch_keeps|]. intros u.
  destruct (RS.next_step_index r =? RS._total_steps r - 1).
  - destruct (RS.loops r >? 0) eqn:Egt; [apply Z.gtb_lt in Egt; lia|].
    destruct (RS.loops r <? 0).
    + apply (t_bind _ _ _ (fun _ => I)).
      * apply t_modify. intros s. apply inst_is_alter. intros r0. apply Hidx.
      * intros u'. now apply schedule_next_keeps.
    + apply (t_bind _ _ _ (fun _ => I)); [now apply stop_keeps_inst|].
      intros u'. now apply t_ret.
  - apply (t_bind _ _ _ (fun _ => I)).
    + apply t_modify. intros s. apply inst_is_alter. intros r0. apply Hidx.
    + intros u'. now apply schedule_next_keeps.
Qed.

(** The hold flag and a loop count of zero, once given to a new instance,
    stay with it through its construction, first step included. *)
Definition held_once (r : RS.t) : Prop := RS.hold r = true /\ RS.loops r = 0.

Lemma init_keeps_held_once env steps prio speed start cb sync reset md manual key toks :
  triple (fun _ => True)
    (RunningShow_init env steps prio (Some true) speed start cb 0 sync reset md manual
       key toks)
    (fun self => inst_is self held_once) (fun _ => True).
Proof.
  unfold RunningShow_init.
  eapply t_bind.
  { intros s _. unfold new_inst.
    instantiate (1 := fun self => inst_is self held_once). simpl.
    eexists. destruct s; simpl. rewrite list_lookup_middle by reflexivity.
    split; [reflexivity|]. split; reflexivity. }
  intros self. set (I := inst_is self held_once).
  assert (Halter : forall (f : RS.t -> RS.t),
            (forall r, held_once r -> held_once (f r)) ->
            triple I (update_inst self f) (fun _ => I) (fun _ => True)).
  { intros f Hf. apply t_modify. intros s. now apply inst_is_alter. }
  assert (Hkeeps : forall A (m : Mm A), keeps instances m ->
            triple I m (fun _ => I) (fun _ => True)).
  { intros A m Hk. eapply t_weaken_E; [now apply t_keeps_inst | auto]. }
  apply (t_bind _ _ _ (fun _ => I)); [apply Hkeeps, keeps_ro, ro_len|]. intros n.
  apply (t_bind _ _ _ (fun _ => I)); [apply Halter; now intros [] []|]. intros u1.
  apply (t_bind _ _ _ (fun _ => I)); [apply Halter; now intros [] []|]. intros u2.
  apply (t_bind _ _ _ (fun _ => I)); [now apply t_ret|]. intros u3.
  apply (t_bind _ _ _ (fun _ => I)); [apply Hkeeps, keeps_ro, ro_gets|]. intros tk.
  apply (t_bind _ _ _ (fun _ => I)).
  { apply t_when; [intros _|auto].
    apply Hkeeps, keeps_replace_tokens. now intros []. }
  intros u4.
  apply (t_bind _ _ _ (fun _ => I)).
  { apply Hkeeps, keeps_modify. intros s. destruct (existsb _ _); now destruct s. }
  intros u5.
  apply (t_bind _ _ _ (fun _ => I)); [apply Hkeeps, keeps_emit; now intros []|]. intros u6.
  apply (t_bind _ _ _ (fun _ => I)); [apply Hkeeps, keeps_ro, ro_gets|]. intros now.
  apply (t_bind _ _ _ (fun _ => I)); [apply Halter; now intros [] []|]. intros u7.
  apply (t_bind _ _ _ (fun _ => I)); [|intros u8; now apply t_ret].
  destruct (sync =? 0).
  - apply (t_bind _ _ _ (fun _ => I)); [|intros v; now apply t_ret].
    eapply t_weaken_E; [|auto].
    apply run_next_step_keeps_inst.
    + intros r [_ H]. lia.
    + now intros [] [].
    + now intros [] ? [].
    + now intros [] ? [].
  - apply (t_bind _ _ _ (fun _ => I)); [apply Hkeeps, keeps_ro, ro_lift|]. intros ms.
    apply (t_bind _ _ _ (fun _ => I)); [apply Halter; now intros [] []|]. intros u8.
    apply Hkeeps, keeps_modify. now intros [].
Qed.

(** C9. On a loaded show whose step count is 1, [play] without a hold
    flag creates its instance with [hold = True] and, whatever loop count
    the caller asked for, [loops = 0]. *)
Theorem C9_single_step_defaults (env : collaborators) (s s' : machine) (a : Args.t)
    (i : nat) :
  loaded s = true ->
  total_steps s = Some 1 ->
  Args.hold a = None ->
  play env a s = (Ok (Some i), s') ->
  exists r, instances s' !! i = Some r /\ RS.hold r = true /\ RS.loops r = 0.
Proof.
  intros Hloaded Htotal Hhold Hplay.
  set (P := fun s0 : machine => loaded s0 = true /\ total_steps s0 = Some 1).
  assert (H : triple P (play env a)
                (fun res s0 => forall j, res = Some j -> inst_is j held_once s0)
                (fun _ => True)).
  { unfold play. rewrite Hhold.
    eapply t_bind; [eapply t_weaken_E; [apply t_read, ro_gets | auto]|]. intros toks.
    destruct (negb (forallb _ _)); [now apply t_raise|].
    apply (t_bind _ _ _ (fun b s0 => P s0 /\ b = true)).
    { apply t_gets. intros s0 [H1 H2]. repeat split; auto. }
    intros b. apply t_pure. intros ->. simpl.
    apply (t_bind _ _ _ (fun t s0 => True /\ t = Some 1)).
    { apply t_gets. intros s0 [H1 H2]. auto. }
    intros t. apply t_pure. intros ->. simpl.
    apply (t_bind _ _ _ (fun l _ => True /\ l = 0)); [now apply t_ret|]. intros loops.
    apply t_pure. intros ->.
    apply (t_bind _ _ _ (fun _ _ => True)).
    { intros s0 _. now destruct (get_show_steps _ _ s0) as [[?|?] ?]. }
    intros steps.
    apply (t_bind _ _ _ (fun self => inst_is self held_once)).
    - apply init_keeps_held_once.
    - intros self. apply t_ret. intros s0 Hs j Hj. now injection Hj as <-. }
  specialize (H s (conj Hloaded Htotal)). rewrite Hplay in H.
  destruct (H i eq_refl) as (r & Hr & Hh & Hl). now exists r.
Qed.

Lemma C9_witness :
  exists r, instances (play env0 five_loops one_step_show).2 !! 0%nat = Some r /\
            RS.hold r = true /\ RS.loops r = 0.
Proof.
  apply (C9_single_step_defaults env0 one_step_show _ five_loops 0).
  - vm_compute. reflexivity.
  - vm_compute. reflexivity.
  - reflexivity.
  - vm_compute. reflexivity.
Defined.

(** ** Playing a show that is not loaded yet *)

(** The settings [play] stores for the deferred call: the arguments of the
    call, with the token bindings normalised to a dict. *)
Definition stored_settings (a : Args.t) : Args.t :=
  {| Args.priority := Args.priority a; Args.hold := Args.hold a;
     Args.speed := Args.speed a; Args.start_step := Args.start_step a;
     Args.callback := Args.callback a; Args.loops := Args.loops a;
     Args.sync_ms := Args.sync_ms a; Args.reset := Args.reset a;
     Args.mode := Args.mode a; Args.manual_advance := Args.manual_advance a;
     Args.key := Args.key a; Args.show_tokens := Some (bindings_of a) |}.

Lemma play_not_loaded env s a :
  (forall name, name ∈ map fst (bindings_of a) -> name ∈ tokens s) ->
  loaded s = false ->
  play env a s =
    (Ok None,
     set_load_requests (load_requests s ++ [Args.priority a])
       (set_autoplay_settings (Some (stored_settings a)) s)).
Proof.
  intros Hsub Hl. unfold play, bind, gets. fold (bindings_of a).
  rewrite (proj2 (bindings_check_true _ _) Hsub). simpl. rewrite Hl. simpl.
  unfold modify, Asset_load, modify, ret. now destruct s.
Qed.

(** C10. While the show is not loaded, a [play] call that passes the token
    check creates no instance and returns [False]: it only stores its
    settings and asks the asset to load with [_autoplay] as callback.  A
    second such call replaces the stored settings, so [_autoplay], which
    plays with the stored settings, plays with those of the latest call. *)
Theorem C10_play_before_loaded (env : collaborators) (s : machine) (a a2 : Args.t) :
  (forall name, name ∈ map fst (bindings_of a) -> name ∈ tokens s) ->
  (forall name, name ∈ map fst (bindings_of a2) -> name ∈ tokens s) ->
  loaded s = false ->
  let s1 := (play env a s).2 in
  let s2 := (play env a2 s1).2 in
  (play env a s).1 = Ok None /\
  instances s1 = instances s /\ running s1 = running s /\ trace s1 = trace s /\
  _autoplay_settings s1 = Some (stored_settings a) /\
  load_requests s1 = load_requests s ++ [Args.priority a] /\
  (play env a2 s1).1 = Ok None /\
  instances s2 = instances s /\
  _autoplay_settings s2 = Some (stored_settings a2) /\
  (forall s3, _autoplay_settings s3 = _autoplay_settings s2 ->
     _autoplay env s3 = (play env (stored_settings a2) ;; ret tt)%py s3).
Proof.
  intros Hsub Hsub2 Hl s1 s2.
  pose proof (play_not_loaded env s a Hsub Hl) as H1.
  assert (Hl1 : loaded s1 = false).
  { unfold s1. rewrite H1. now destruct s. }
  assert (Ht1 : tokens s1 = tokens s).
  { unfold s1. rewrite H1. now destruct s. }
  assert (Hsub2' : forall name, name ∈ map fst (bindings_of a2) -> name ∈ tokens s1).
  { intros name Hn. rewrite Ht1. now apply Hsub2. }
  pose proof (play_not_loaded env s1 a2 Hsub2' Hl1) as H2.
  assert (Hs1 : s1 = set_load_requests (load_requests s ++ [Args.priority a])
                       (set_autoplay_settings (Some (stored_settings a)) s)).
  { unfold s1. now rewrite H1. }
  assert (Hs2 : s2 = set_load_requests (load_requests s1 ++ [Args.priority a2])
                       (set_autoplay_settings (Some (stored_settings a2)) s1)).
  { unfold s2. now rewrite H2. }
  repeat split.
  - now rewrite H1.
  - rewrite Hs1. now destruct s.
  - rewrite Hs1. now destruct s.
  - rewrite Hs1. now destruct s.
  - rewrite Hs1. now destruct s.
  - rewrite Hs1. now destruct s.
  - now rewrite H2.
  - rewrite Hs2, Hs1. now destruct s.
  - rewrite Hs2. now destruct s1.
  - intros s3 H3. unfold _autoplay, bind, gets. rewrite H3, Hs2.
    now destruct s1.
Qed.

Lemma C10_witness :
  let s1 := (play env0 five_loops s0).2 in
  let s2 := (play env0 finite_args s1).2 in
  (play env0 five_loops s0).1 = Ok None /\
  instances s1 = instances s0 /\ running s1 = running s0 /\ trace s1 = trace s0 /\
  _autoplay_settings s1 = Some (stored_settings five_loops) /\
  load_requests s1 = load_requests s0 ++ [Args.priority five_loops] /\
  (play env0 finite_args s1).1 = Ok None /\
  instances s2 = instances s0 /\
  _autoplay_settings s2 = Some (stored_settings finite_args) /\
  (forall s3, _autoplay_settings s3 = _autoplay_settings s2 ->
     _autoplay env0 s3 = (play env0 (stored_settings finite_args) ;; ret tt)%py s3).
Proof.
  apply (C10_play_before_loaded env0 s0 five_loops finite_args).
  - intros name H. vm_compute in H. apply list_elem_of_In in H. destruct H.
  - intros name H. vm_compute in H. apply list_elem_of_In in H. destruct H.
  - reflexivity.
Defined.

(** ** The loader *)

(** What a load changes only when it completes: the step count, the token
    index and the loaded flag. *)
Definition show_index (s : machine)
  : option Z * list string * list (string * list path) * list (string * list path) * bool :=
  (total_steps s, tokens s, token_values s, token_keys s, loaded s).

Section LoaderFrame.
Variable env : collaborators.
Context {B : Type} (f : machine -> B).
Hypothesis f_heap : forall s h, f (set_heap h s) = f s.
Hypothesis f_trace : forall s t, f (set_trace t s) = f s.
Hypothesis f_steps : forall s v, f (set_show_steps v s) = f s.

Lemma keeps_lift {A} (r : result A) : keeps f (lift r).
Proof. apply keeps_ro, ro_lift. Qed.

Lemma keeps_alloc_tree t : keeps f (alloc_tree t).
Proof.
  revert t. fix IH 1. intros [c|l|kvs]; simpl.
  - apply keeps_ret.
  - apply keeps_bind; [|intros items; now apply keeps_alloc].
    induction l as [|t rest IHl]; [apply keeps_ret|].
    apply keeps_bind; [apply IH|]. intros v.
    apply keeps_bind; [apply IHl|]. intros vs. apply keeps_ret.
  - apply keeps_bind; [|intros items; now apply keeps_alloc].
    induction kvs as [|[k t] rest IHl]; [apply keeps_ret|].
    apply keeps_bind; [apply IH|]. intros v.
    apply keeps_bind; [apply IHl|]. intros vs. apply keeps_ret.
Qed.

Lemma keeps_load_section actions key v : keeps f (load_section env actions key v).
Proof.
  unfold load_section. destruct (is_show_player env key) as [name|].
  - apply keeps_bind; [now apply keeps_alloc|]. intros vc.
    apply keeps_bind; [destruct v; first [apply keeps_ret | apply keeps_raise]|].
    intros entries. apply keeps_bind; [|intros u; now apply keeps_setitem].
    apply keeps_for_each. intros ds.
    apply keeps_bind; [apply keeps_lift|]. intros validated.
    apply keeps_for_each. intros kt.
    apply keeps_bind; [apply keeps_alloc_tree | intros x; now apply keeps_setitem].
  - destruct (py_eqb key (SStr "time")); [apply keeps_ret | apply keeps_raise].
Qed.

Lemma keeps_finish_step actions step tot t : keeps f (finish_step env actions step tot t).
Proof.
  unfold finish_step.
  apply keeps_bind; [now apply keeps_setitem|]. intros u.
  apply keeps_bind; [apply keeps_lift|]. intros items.
  apply keeps_bind; [apply keeps_for_each; intros kv; apply keeps_load_section|]. intros u1.
  apply keeps_bind; [apply keeps_ro, ro_gets|]. intros ss.
  apply keeps_bind; [now apply keeps_append | intros u2; apply keeps_ret].
Qed.

Lemma keeps_load_step n step tot : keeps f (load_step env n step tot).
Proof.
  unfold load_step.
  apply keeps_bind; [now apply keeps_alloc|]. intros actions.
  apply keeps_bind; [apply keeps_lift|]. intros has_time.
  apply keeps_bind; [destruct has_time; [apply keeps_ret | apply keeps_lift]|]. intros step'.
  apply keeps_bind; [apply keeps_lift|]. intros te.
  apply keeps_bind; [apply keeps_lift|]. intros t.
  apply keeps_bind.
  { destruct (_ && _); simpl; [|apply keeps_ret].
    apply keeps_bind; [now apply keeps_alloc|]. intros z.
    apply keeps_bind; [apply keeps_ro, ro_gets | intros ss; now apply keeps_append]. }
  intros u. apply keeps_bind; [apply keeps_lift|]. intros relative.
  destruct relative; [apply keeps_finish_step|].
  destruct (Qlt_bool t tot); [|apply keeps_finish_step].
  apply keeps_bind; [now apply keeps_emit | intros u1; apply keeps_ret].
Qed.

Lemma keeps_load_steps n data tot : keeps f (load_steps env n data tot).
Proof.
  revert n tot. induction data as [|step rest IH]; intros n tot; simpl.
  - apply keeps_ret.
  - apply keeps_bind; [apply keeps_load_step|]. intros [t|]; [apply IH | apply keeps_ret].
Qed.

Lemma keeps_reset_show_steps : keeps f reset_show_steps.
Proof.
  unfold reset_show_steps.
  apply keeps_bind; [now apply keeps_alloc|]. intros ss. now apply keeps_modify.
Qed.

End LoaderFrame.

Lemma load_steps_app env pre rest n tot s :
  load_steps env n (pre ++ rest) tot s =
  match load_steps env n pre tot s with
  | (Ok (Continue t), s1) => load_steps env (n + length pre) rest t s1
  | (Ok ReturnFalse, s1) => (Ok ReturnFalse, s1)
  | (Raise e, s1) => (Raise e, s1)
  end.
Proof.
  revert n tot s. induction pre as [|step pre IH]; intros n tot s; simpl.
  - unfold ret. now rewrite Nat.add_0_r.
  - unfold bind. destruct (load_step env n step tot s) as [[[t|]|e] s1]; auto.
    rewrite IH. now rewrite Nat.add_succ_r.
Qed.

Lemma getitem_contains step k t :
  pv_getitem step k = Ok t -> pv_contains (SStr k) step = Ok true.
Proof.
  unfold pv_getitem, pv_contains, dict_has. destruct step as [c|l|kvs]; try discriminate.
  destruct (dict_get kvs (SStr k)); [reflexivity | discriminate].
Qed.

Lemma Qlt_bool_asym a b : Qlt_bool a b = true -> Qlt_bool b a = false.
Proof.
  unfold Qlt_bool. intros H. apply negb_true_iff in H. apply negb_false_iff.
  apply Qle_bool_iff. apply Qlt_le_weak, Qnot_le_lt. intros Hle.
  apply Qle_bool_iff in Hle. congruence.
Qed.

(** A step with an absolute time before the running total: the loop body
    has created the step's empty [actions] dict, logs, and leaves through
    [return False]. *)
Lemma load_step_out_of_order env n bad tot s te t :
  pv_getitem bad "time" = Ok te ->
  starts_with_plus te = Ok false ->
  string_to_secs env te = Ok t ->
  Qlt_bool t tot = true ->
  (n = 0%nat -> Qlt_bool 0 t = false) ->
  load_step env n bad tot s =
    (Ok ReturnFalse,
     set_trace (trace s ++ [LogInvalidStepTimes]) (set_heap (heap s ++ [ODict []]) s)).
Proof.
  intros Hget Hplus Hsecs Hlt Hzero.
  unfold load_step, bind, alloc.
  rewrite (getitem_contains _ _ _ Hget). simpl. rewrite Hget. simpl.
  rewrite Hsecs. simpl.
  assert (Hw : Nat.eqb n 0 && Qlt_bool 0 t = false).
  { destruct n; simpl; [now apply Hzero | reflexivity]. }
  rewrite Hw. simpl. rewrite Hplus. simpl. rewrite Hlt.
  unfold emit, modify, ret. now destruct s.
Qed.

Lemma load_steps_nil_total env n s tot s1 :
  load_steps env n [] 0 s = (Ok (Continue tot), s1) -> tot = 0%Q.
Proof. simpl. unfold ret. congruence. Qed.

(** C1 (what the code does). When a step gives an absolute time that lies
    before the running total, [do_load_show] does not raise: it logs the
    warning ("Skipping show") and returns [False].  The step count, the
    token index and the loaded flag keep the values they had before the
    call, but the steps built so far are not withdrawn: [show_steps] is the
    list built from the steps before the failing one, in a store that
    differs from the one after those steps only by the empty [actions] dict
    of the failing step.  [Show.__init__] does not look at the [False]: it
    marks the show as loaded all the same, and on a show that had no step
    count yet a [play] then fails with [TypeError]. *)
Theorem C1_out_of_order_keeps_parsed_steps (env : collaborators) (s s1 : machine)
    (pre post : list pyval) (bad te : pyval) (tot t : Q) :
  (reset_show_steps ;; load_steps env 0 pre 0)%py s = (Ok (Continue tot), s1) ->
  pv_getitem bad "time" = Ok te ->
  starts_with_plus te = Ok false ->
  string_to_secs env te = Ok t ->
  Qlt_bool t tot = true ->
  exists s',
    do_load_show env (PList (pre ++ bad :: post)) s = (Ok (SBool false), s') /\
    show_index s' = show_index s /\
    show_steps s' = show_steps s1 /\
    heap s' = heap s1 ++ [ODict []] /\
    trace s' = trace s1 ++ [LogInvalidStepTimes] /\
    Show_init env (PList (pre ++ bad :: post)) s = (Ok tt, set_loaded true s') /\
    (total_steps s = None ->
     forall a : Args.t, Args.show_tokens a = None ->
       play env a (set_loaded true s') = (Raise TypeError, set_loaded true s')).
Proof.
  intros Hpre Hget Hplus Hsecs Hlt.
  unfold bind in Hpre.
  destruct (reset_show_steps s) as [[u|e] sr] eqn:Hreset; [|discriminate].
  assert (Hidx : show_index s1 = show_index s).
  { pose proof (keeps_reset_show_steps show_index
                  (fun s h => ltac:(now destruct s))
                  (fun s v => ltac:(now destruct s)) s) as H1.
    pose proof (keeps_load_steps env show_index
                  (fun s h => ltac:(now destruct s))
                  (fun s t => ltac:(now destruct s)) 0 pre 0 sr) as H2.
    rewrite Hreset in H1. rewrite Hpre in H2. simpl in H1, H2. congruence. }
  assert (Hload :
    do_load_show env (PList (pre ++ bad :: post)) s =
    (Ok (SBool false),
     set_trace (trace s1 ++ [LogInvalidStepTimes]) (set_heap (heap s1 ++ [ODict []]) s1))).
  { unfold do_load_show, bind. rewrite Hreset.
    assert (Hfile : forall k : pyval -> Mm scalar,
      (match (gets file sr) with
       | (Ok f, s0) =>
           match (match f with
                  | Some name =>
                      if negb (pv_truthy (PList (pre ++ bad :: post)))
                         && negb (String.eqb name "")
                      then load_show_from_disk env name
                      else ret (PList (pre ++ bad :: post))
                  | None => ret (PList (pre ++ bad :: post))
                  end) s0 with
           | (Ok a, s2) => k a s2
           | (Raise e, s2) => (Raise e, s2)
           end
       | (Raise e, s0) => (Raise e, s0)
       end) = k (PList (pre ++ bad :: post)) sr).
    { intros k. unfold gets. destruct (file sr); [|reflexivity].
      assert (pv_truthy (PList (pre ++ bad :: post)) = true) as ->.
      { simpl. now destruct pre. }
      reflexivity. }
    rewrite Hfile. simpl. rewrite load_steps_app, Hpre.
    simpl. unfold bind.
    rewrite (load_step_out_of_order env _ bad tot s1 te t Hget Hplus Hsecs Hlt).
    + reflexivity.
    + intros Hn. destruct pre; [|discriminate].
      apply load_steps_nil_total in Hpre. subst tot. now apply Qlt_bool_asym. }
  eexists. split; [exact Hload|].
  split; [simpl; rewrite <- Hidx; now destruct s1|].
  split; [now destruct s1|]. split; [now destruct s1|]. split; [now destruct s1|].
  split.
  - unfold Show_init.
    assert (pv_truthy (PList (pre ++ bad :: post)) = true) as ->.
    { simpl. now destruct pre. }
    unfold when, bind. rewrite Hload. reflexivity.
  - intros Hnone a Ha.
    assert (Htot : total_steps s1 = None).
    { unfold show_index in Hidx. congruence. }
    unfold play, bind, gets. rewrite Ha.
    destruct s1 as [hp fl ld ss ts tk tv tks rn au lr ins ct ce tr].
    simpl in Htot. subst ts. reflexivity.
Qed.

(** A show given steps at 0, 5 and 3 seconds: the load returns [False],
    the show holds the two steps parsed before the third, the constructor
    marks it as loaded, and it cannot be played. *)
Lemma C1_witness :
  exists s',
    do_load_show env0 out_of_order_data s0 = (Ok (SBool false), s') /\
    Show_init env0 out_of_order_data s0 = (Ok tt, set_loaded true s') /\
    reify 2 (heap s') (show_steps s')
      = Some (PList [PDict [(SStr "time", PScalar (SFloat 0))];
                     PDict [(SStr "time", PScalar (SFloat 5))]]) /\
    total_steps s' = None /\
    play env0 looping_args (set_loaded true s') = (Raise TypeError, set_loaded true s').
Proof.
  destruct (C1_out_of_order_keeps_parsed_steps env0 s0
              ((reset_show_steps ;; load_steps env0 0 [time_step 0; time_step 5] 0)%py s0).2
              [time_step 0; time_step 5] [] (time_step 3) (PScalar (SInt 3)) 5%Q 3%Q)
    as (s' & Hload & Hidx & Hsteps & Hheap & _ & Hinit & Hplay);
    [vm_compute; reflexivity | reflexivity | reflexivity | reflexivity | reflexivity |].
  exists s'. split; [exact Hload|]. split; [exact Hinit|].
  split; [rewrite Hsteps, Hheap; vm_compute; reflexivity|].
  split; [exact (f_equal (fun x => x.1.1.1.1) Hidx)|].
  apply Hplay; reflexivity.
Defined.

(** Steps given as the floats [+0.1], [+0.4] and then the absolute [0.5]
    load: the running total of the first two is the float [0.5]. *)
Lemma tenths_add_up_to_a_half :
  let tenth := round64 (1 # 10) in
  let step (c : scalar) := PDict [(SStr "time", PScalar c)] in
  let env := {| show_players := show_players env0;
                validate_show_config := validate_show_config env0;
                string_to_secs := fun t =>
                  match t with
                  | PScalar (SStr "+0.1") => Ok tenth
                  | PScalar (SStr "+0.4") => Ok (round64 (4 # 10))
                  | PScalar (SFloat q) => Ok q
                  | _ => Raise ValueError
                  end;
                get_show_file_version := get_show_file_version env0;
                file_manager_load := file_manager_load env0;
                show_version := show_version env0;
                recursion_limit := recursion_limit env0 |} in
  float_add tenth (round64 (4 # 10)) = 1 # 2 /\
  (do_load_show env (PList [step (SStr "+0.1"); step (SStr "+0.4"); step (SFloat (1 # 2))])
     s0).1 = Ok SNone.
Proof. vm_compute. split; reflexivity. Qed.

(** X1. A root that is neither a list nor a map is rejected with
    [ValueError], unless it is false and the show has a file, in which case
    the data is read from the file. *)
Lemma X1_scalar_root_rejected (env : collaborators) (s : machine) (c : scalar) :
  (pv_truthy (PScalar c) = true \/ file s = None) ->
  (do_load_show env (PScalar c) s).1 = Raise ValueError.
Proof.
  intros H. unfold do_load_show, bind, reset_show_steps, bind, alloc, modify, gets.
  destruct s as [hp fl ld ss ts tk tv tks rn au lr ins ct ce tr]. simpl in *.
  destruct fl as [name|]; [|reflexivity].
  destruct H as [H|H]; [|discriminate]. now rewrite H.
Qed.

Lemma X1_witness : (do_load_show env0 (PScalar (SStr "leds")) s0).1 = Raise ValueError.
Proof.
  apply (X1_scalar_root_rejected env0 s0 (SStr "leds")). left. reflexivity.
Defined.

(** C7 (what the code does). A root that is a map is not wrapped into a
    one-step list: [list(data)] makes the list of its keys, and the first
    key, taken for a step, fails with [TypeError] in the lookup of its
    time, whatever the map holds.  The singleton list of the same map
    loads. *)
Theorem C7_map_root_is_read_as_its_keys :
  (forall (env : collaborators) (s : machine) (k : scalar) (v : pyval)
          (rest : list (scalar * pyval)),
      (do_load_show env (PDict ((k, v) :: rest)) s).1 = Raise TypeError) /\
  (do_load_show env0 (PList [PDict [(SStr "time", PScalar (SInt 0))]]) s0).1 = Ok SNone /\
  total_steps (do_load_show env0 (PList [PDict [(SStr "time", PScalar (SInt 0))]]) s0).2
    = Some 1.
Proof.
  split; [|split; vm_compute; reflexivity].
  intros env s k v rest.
  unfold do_load_show, bind, reset_show_steps, bind, alloc, modify, gets.
  destruct s as [hp fl ld ss ts tk tv tks rn au lr ins ct ce tr]. simpl.
  assert (Hstep : forall st,
    (load_step env 0 (PScalar k) 0 st).1 = Raise TypeError).
  { intros st. unfold load_step, bind, alloc. simpl.
    destruct k as [|b|z|q|str]; simpl; try reflexivity.
    destruct (is_substring "time" str); reflexivity. }
  destruct fl as [name|]; simpl; unfold bind;
    match goal with |- context [load_step env 0 (PScalar k) 0 ?st] =>
      pose proof (Hstep st) as H;
      destruct (load_step env 0 (PScalar k) 0 st) as [[o|e] s2]
    end; simpl in H; try discriminate; now injection H as ->.
Qed.

(** ** What playing leaves alone

    [stop] and [_run_next_step] work on the instances, the running set, the
    timers and the trace; they never write to the store or to the show's
    own attributes. *)

Section NonStore.
Variable env : collaborators.
Context {B : Type} (f : machine -> B).
Hypothesis f_inst : forall s x, f (set_instances x s) = f s.
Hypothesis f_trace : forall s x, f (set_trace x s) = f s.
Hypothesis f_running : forall s x, f (set_running x s) = f s.
Hypothesis f_timers : forall s x, f (set_clock_events x s) = f s.

Lemma keeps_update_inst self g : keeps f (update_inst self g).
Proof. apply keeps_modify. intros s. apply f_inst. Qed.

Lemma keeps_new_inst r : keeps f (new_inst r).
Proof. intros s. apply f_inst. Qed.

Lemma keeps_running_add self : keeps f (running_add self).
Proof.
  apply keeps_modify. intros s. destruct (existsb _ _); [reflexivity | apply f_running].
Qed.

Lemma keeps_running_remove self : keeps f (running_remove self).
Proof.
  intros s. unfold running_remove. destruct (existsb _ _); [apply f_running | reflexivity].
Qed.

Lemma keeps_schedule_once self d : keeps f (schedule_once self d).
Proof. apply keeps_modify. intros s. apply f_timers. Qed.

Lemma keeps_unschedule self : keeps f (unschedule self).
Proof. apply keeps_modify. intros s. apply f_timers. Qed.

Lemma keeps_stop self hold : keeps f (stop env self hold).
Proof.
  unfold stop. apply keeps_bind; [apply keeps_ro, ro_get_inst|]. intros r.
  destruct (RS._stopped r); [apply keeps_ret|].
  apply keeps_bind; [apply keeps_update_inst|]. intros u0.
  apply keeps_bind; [now apply keeps_emit|]. intros u1.
  apply keeps_bind; [apply keeps_running_remove|]. intros u2.
  apply keeps_bind; [apply keeps_unschedule|]. intros u3.
  apply keeps_bind.
  { destruct (negb _); simpl; [|apply keeps_ret].
    apply keeps_for_each. intros player. now apply keeps_emit. }
  intros u4. destruct (RS.callback r); [now apply keeps_emit | apply keeps_ret].
Qed.

Lemma keeps_schedule_next self : keeps f (schedule_next self).
Proof.
  unfold schedule_next. apply keeps_bind; [apply keeps_ro, ro_get_inst|]. intros r.
  destruct (RS.manual_advance r); [apply keeps_ret|].
  apply keeps_bind; [apply keeps_ro, ro_getitem|]. intros step.
  apply keeps_bind; [apply keeps_ro, ro_getitem|]. intros t.
  apply keeps_bind; [apply keeps_ro, ro_div|]. intros dt.
  apply keeps_bind; [apply keeps_ro, ro_gets|]. intros now.
  apply keeps_bind; [apply keeps_update_inst|]. intros u.
  apply keeps_bind; [apply keeps_schedule_once | intros u'; apply keeps_ret].
Qed.

Lemma keeps_run_next_step self : keeps f (_run_next_step env self).
Proof.
  unfold _run_next_step. apply keeps_bind; [apply keeps_ro, ro_get_inst|]. intros r.
  apply keeps_bind; [apply keeps_ro, ro_gets|]. intros now.
  destruct (Qlt_bool _ _); [apply keeps_ret|].
  apply keeps_bind; [apply keeps_ro, ro_getitem|]. intros step.
  apply keeps_bind; [apply keeps_ro, ro_items|]. intros items.
  apply keeps_bind.
  { apply keeps_for_each. intros kv.
    destruct (py_eqb _ _); [apply keeps_ret|].
    destruct (is_show_player env _); [|apply keeps_ret].
    apply keeps_bind; [apply keeps_ro, ro_contains|]. intros nested.
    apply keeps_bind.
    - destruct nested; [apply keeps_ro, ro_getitem | apply keeps_ret].
    - intros settings. now apply keeps_emit. }
  intros u. destruct (_ =? _).
  - destruct (_ >? _).
    + apply keeps_bind; [apply keeps_update_inst | intros u'; apply keeps_schedule_next].
    + destruct (_ <? _).
      * apply keeps_bind; [apply keeps_update_inst | intros u'; apply keeps_schedule_next].
      * apply keeps_bind; [apply keeps_stop | intros u'; apply keeps_ret].
  - apply keeps_bind; [apply keeps_update_inst | intros u'; apply keeps_schedule_next].
Qed.

(** The part of [RunningShow.__init__] after the token substitution. *)
Lemma keeps_init_tail self sync :
  keeps f
    (running_add self ;;
     emit (NotifyShowStarting self) ;;
     now <- gets clock_time ;;
     update_inst self (RS.set_next_step_time now) ;;
     (if sync =? 0 then
        _run_next_step env self ;; ret tt
      else
        ms <- lift (float_of_int sync) ;;
        let period := float_div ms 1000 in
        let delay_secs := float_sub period (py_fmod now period) in
        update_inst self (RS.set_next_step_time (float_add now delay_secs)) ;;
        schedule_once self delay_secs) ;;
     ret self).
Proof.
  apply keeps_bind; [apply keeps_running_add|]. intros u0.
  apply keeps_bind; [now apply keeps_emit|]. intros u1.
  apply keeps_bind; [apply keeps_ro, ro_gets|]. intros now.
  apply keeps_bind; [apply keeps_update_inst|]. intros u2.
  apply keeps_bind; [|intros u3; apply keeps_ret].
  destruct (sync =? 0).
  - apply keeps_bind; [apply keeps_run_next_step | intros v; apply keeps_ret].
  - apply keeps_bind; [apply keeps_ro, ro_lift|]. intros ms.
    apply keeps_bind; [apply keeps_update_inst | intros u3; apply keeps_schedule_once].
Qed.

End NonStore.

(** [play] changes the store, the instances, the running set, the timers,
    the trace, and, before the show is loaded, the stored settings and the
    load requests: everything else is as before. *)

Section PlayFrame.
Variable env : collaborators.
Context {B : Type} (f : machine -> B).
Hypothesis f_heap : forall s x, f (set_heap x s) = f s.
Hypothesis f_inst : forall s x, f (set_instances x s) = f s.
Hypothesis f_trace : forall s x, f (set_trace x s) = f s.
Hypothesis f_running : forall s x, f (set_running x s) = f s.
Hypothesis f_timers : forall s x, f (set_clock_events x s) = f s.
Hypothesis f_settings : forall s x, f (set_autoplay_settings x s) = f s.
Hypothesis f_requests : forall s x, f (set_load_requests x s) = f s.

Lemma keeps_init steps prio hold speed start cb loops sync reset md manual key toks :
  keeps f (RunningShow_init env steps prio hold speed start cb loops sync reset md
             manual key toks).
Proof.
  unfold RunningShow_init.
  apply keeps_bind; [now apply keeps_new_inst|]. intros self.
  apply keeps_bind; [apply keeps_ro, ro_len|]. intros n.
  apply keeps_bind; [now apply keeps_update_inst|]. intros u0.
  apply keeps_bind; [now apply keeps_update_inst|]. intros u1.
  apply keeps_bind.
  { destruct hold; simpl; [apply keeps_ret | now apply keeps_update_inst]. }
  intros u2. apply keeps_bind; [apply keeps_ro, ro_gets|]. intros tk.
  apply keeps_bind.
  { destruct toks, tk; simpl; try apply keeps_ret. now apply keeps_replace_tokens. }
  intros u3. now apply keeps_init_tail.
Qed.

Lemma keeps_play a : keeps f (play env a).
Proof.
  unfold play. apply keeps_bind; [apply keeps_ro, ro_gets|]. intros tk.
  destruct (negb (forallb _ _)); [apply keeps_raise|].
  apply keeps_bind; [apply keeps_ro, ro_gets|]. intros ld.
  destruct (negb ld).
  - apply keeps_bind; [now apply keeps_modify|]. intros u.
    apply keeps_bind; [|intros u'; apply keeps_ret].
    apply keeps_modify. intros s. apply f_requests.
  - apply keeps_bind; [apply keeps_ro, ro_gets|]. intros total.
    apply keeps_bind; [destruct total; [apply keeps_ret | apply keeps_raise]|].
    intros loops.
    apply keeps_bind; [now apply keeps_get_show_steps|]. intros steps.
    apply keeps_bind; [apply keeps_init | intros self; apply keeps_ret].
Qed.

End PlayFrame.

(** ** The template and the copies

    [h0] is the store at some moment.  A value is fresh when it is not a
    reference into [h0]; the store is untouched when every object of [h0]
    is still in place, unchanged, and the objects created since refer only
    to objects created since. *)

Section Template.
Variable h0 : list obj.

Definition fresh_val (v : value) : Prop :=
  match v with
  | VRef l => (length h0 <= l)%nat
  | VScalar _ => True
  end.

Definition fresh_obj (o : obj) : Prop :=
  match o with
  | OList items => Forall fresh_val items
  | ODict kvs => Forall (fun kv => fresh_val kv.2) kvs
  end.

Definition store_untouched (h : list obj) : Prop :=
  (length h0 <= length h)%nat /\
  (forall l o, h0 !! l = Some o -> h !! l = Some o) /\
  (forall l o, (length h0 <= l)%nat -> h !! l = Some o -> fresh_obj o).

Definition untouched (s : machine) : Prop := store_untouched (heap s).

Lemma untouched_start s : heap s = h0 -> untouched s.
Proof.
  intros Hh. unfold untouched, store_untouched. rewrite Hh. repeat split; auto.
  intros l o Hl Hlk. apply lookup_lt_Some in Hlk. lia.
Qed.

Lemma fresh_dict_get (kvs : list (scalar * value)) k v :
  Forall (fun kv => fresh_val kv.2) kvs -> dict_get kvs k = Some v -> fresh_val v.
Proof.
  induction kvs as [|[k' v'] rest IH]; simpl; [discriminate|].
  intros HF Hget. inversion HF as [|? ? Hv Hrest]; subst.
  destruct (py_eqb k' k); [injection Hget as <-; exact Hv | now apply IH].
Qed.

Lemma fresh_dict_set (kvs : list (scalar * value)) k v :
  Forall (fun kv => fresh_val kv.2) kvs -> fresh_val v ->
  Forall (fun kv => fresh_val kv.2) (dict_set kvs k v).
Proof.
  intros HF Hv. induction kvs as [|[k' v'] rest IH]; simpl.
  - constructor; [exact Hv | constructor].
  - inversion HF as [|? ? Hv' Hrest]; subst.
    destruct (py_eqb k' k); constructor; auto.
Qed.

Lemma fresh_dict_remove (kvs kvs' : list (scalar * value)) k v :
  Forall (fun kv => fresh_val kv.2) kvs -> dict_remove kvs k = Some (v, kvs') ->
  fresh_val v /\ Forall (fun kv => fresh_val kv.2) kvs'.
Proof.
  revert kvs' v. induction kvs as [|[k' v'] rest IH]; simpl; intros kvs' v HF Hrm;
    [discriminate|].
  inversion HF as [|? ? Hv' Hrest]; subst.
  destruct (py_eqb k' k).
  - injection Hrm as <- <-. auto.
  - destruct (dict_remove rest k) as [[x rest']|] eqn:E; [|discriminate].
    injection Hrm as <- <-. destruct (IH rest' x Hrest eq_refl) as [Hx Hr].
    split; [exact Hx | constructor; auto].
Qed.

Lemma t_alloc o :
  fresh_obj o ->
  triple untouched (alloc o) (fun v s => untouched s /\ fresh_val v) untouched.
Proof.
  intros Ho s (Hlen & Hframe & Hfresh). unfold alloc.
  split; [|simpl; exact Hlen].
  destruct s; unfold untouched, store_untouched; simpl in *. repeat split.
  - rewrite length_app. lia.
  - intros l o' Hl. apply lookup_app_l_Some. now apply Hframe.
  - intros l o' Hl Hlk. apply lookup_app_Some in Hlk.
    destruct Hlk as [Hlk|[_ Hlk]]; [now apply (Hfresh l)|].
    destruct (l - length heap0)%nat; simpl in Hlk; [|discriminate].
    now injection Hlk as <-.
Qed.

Lemma t_deref l :
  (length h0 <= l)%nat ->
  triple untouched (deref l) (fun o s => untouched s /\ fresh_obj o) untouched.
Proof.
  intros Hl s Hs. unfold deref.
  destruct (_ !! _) as [o|] eqn:E; [|exact Hs].
  split; [exact Hs|]. destruct Hs as (_ & _ & Hfresh). now apply (Hfresh l).
Qed.

Lemma t_store l o :
  (length h0 <= l)%nat -> fresh_obj o ->
  triple untouched (store l o) (fun _ => untouched) untouched.
Proof.
  intros Hl Ho s (Hlen & Hframe & Hfresh). unfold store, modify.
  destruct s; unfold untouched, store_untouched; simpl in *. repeat split.
  - now rewrite length_insert.
  - intros l' o' Hlk. rewrite list_lookup_insert_ne; [now apply Hframe|].
    apply lookup_lt_Some in Hlk. lia.
  - intros l' o' Hl' Hlk. apply list_lookup_insert_Some in Hlk.
    destruct Hlk as [(_ & <- & _)|(_ & Hlk)]; [exact Ho | now apply (Hfresh l')].
Qed.

Lemma t_getitem target x :
  fresh_val target ->
  triple untouched (py_getitem target x) (fun v s => untouched s /\ fresh_val v) untouched.
Proof.
  intros Ht. unfold py_getitem. destruct target as [c|l].
  - destruct c as [| | | |str]; try (now apply t_raise).
    destruct (index_of x); [|now apply t_raise].
    destruct (norm_index _ _); [|now apply t_raise].
    destruct (String.get _ _); [|now apply t_raise].
    apply t_ret. intros s Hs. now split.
  - eapply t_bind; [now apply t_deref|]. intros o. apply t_pure. intros Ho.
    destruct o as [items|kvs].
    + destruct (index_of x); [|now apply t_raise].
      destruct (norm_index _ _) as [i|]; [|now apply t_raise].
      destruct (items !! i) as [v|] eqn:E; [|now apply t_raise].
      apply t_ret. intros s Hs. split; [exact Hs|].
      simpl in Ho. now apply (Forall_lookup_1 _ _ _ _ Ho E).
    + destruct (dict_get kvs x) as [v|] eqn:E; [|now apply t_raise].
      apply t_ret. intros s Hs. split; [exact Hs|].
      now apply (fresh_dict_get kvs x v Ho E).
Qed.

Lemma t_setitem target x v :
  fresh_val target -> fresh_val v ->
  triple untouched (py_setitem target x v) (fun _ => untouched) untouched.
Proof.
  intros Ht Hv. unfold py_setitem. destruct target as [c|l]; [now apply t_raise|].
  eapply t_bind; [now apply t_deref|]. intros o. apply t_pure. intros Ho.
  destruct o as [items|kvs].
  - destruct (index_of x); [|now apply t_raise].
    destruct (norm_index _ _) as [i|]; [|now apply t_raise].
    apply t_store; [exact Ht|]. simpl in *. now apply Forall_insert.
  - apply t_store; [exact Ht|]. simpl in *. now apply fresh_dict_set.
Qed.

Lemma t_pop target k :
  fresh_val target ->
  triple untouched (py_pop target k) (fun v s => untouched s /\ fresh_val v) untouched.
Proof.
  intros Ht. unfold py_pop. destruct target as [c|l]; [now apply t_raise|].
  eapply t_bind; [now apply t_deref|]. intros o. apply t_pure. intros Ho.
  destruct o as [items|kvs].
  - destruct (index_of k); [|now apply t_raise].
    destruct (norm_index _ _) as [i|]; [|now apply t_raise].
    destruct (items !! i) as [v|] eqn:E; [|now apply t_raise].
    simpl in Ho.
    apply (t_bind _ _ _ (fun _ => untouched)).
    + apply t_store; [exact Ht|]. simpl.
      apply Forall_app. split; [now apply Forall_take | now apply Forall_drop].
    + intros u. apply t_ret. intros s Hs. split; [exact Hs|].
      now apply (Forall_lookup_1 _ _ _ _ Ho E).
  - destruct (dict_remove kvs k) as [[v kvs']|] eqn:E; [|now apply t_raise].
    destruct (fresh_dict_remove kvs kvs' k v Ho E) as [Hv Hkvs'].
    apply (t_bind _ _ _ (fun _ => untouched)).
    + now apply t_store.
    + intros u. apply t_ret. intros s Hs. now split.
Qed.

Lemma t_append target v :
  fresh_val target -> fresh_val v ->
  triple untouched (py_append target v) (fun _ => untouched) untouched.
Proof.
  intros Ht Hv. unfold py_append. destruct target as [c|l]; [now apply t_raise|].
  eapply t_bind; [now apply t_deref|]. intros o. apply t_pure. intros Ho.
  destruct o as [items|kvs]; [|now apply t_raise].
  apply t_store; [exact Ht|]. simpl in *. apply Forall_app. split; [exact Ho|].
  constructor; [exact Hv | constructor].
Qed.

Lemma t_copy depth data :
  triple untouched (get_show_steps depth data)
         (fun v s => untouched s /\ fresh_val v) untouched.
Proof.
  revert data. induction depth as [|depth IH]; intros data; simpl; [now apply t_raise|].
  apply (t_bind _ _ _ (fun _ => untouched)).
  { apply t_read. destruct data as [[| | | |str]|l]; try apply ro_ret.
    destruct (String.eqb str sentinel); [apply ro_gets | apply ro_ret]. }
  intros [c|l]; [apply t_ret; intros s Hs; now split|].
  apply (t_bind _ _ _ (fun _ => untouched)); [apply t_read, ro_deref|].
  intros [items|kvs].
  - eapply t_bind; [apply t_alloc; constructor|]. intros new_list.
    apply t_pure. intros Hnew.
    apply (t_bind _ _ _ (fun _ => untouched)).
    + apply t_for_each. intros i.
      eapply t_bind; [apply IH|]. intros c. apply t_pure. intros Hc.
      now apply t_append.
    + intros u. apply t_ret. intros s Hs. now split.
  - eapply t_bind; [apply t_alloc; constructor|]. intros new_dict.
    apply t_pure. intros Hnew.
    apply (t_bind _ _ _ (fun _ => untouched)).
    + apply t_for_each. intros kv.
      eapply t_bind; [apply IH|]. intros c. apply t_pure. intros Hc.
      now apply t_setitem.
    + intros u. apply t_ret. intros s Hs. now split.
Qed.

Lemma t_walk_path root xs rename :
  fresh_val root ->
  triple untouched (walk_path root xs rename)
         (fun v s => untouched s /\ fresh_val v) untouched.
Proof.
  intros Hroot. unfold walk_path.
  apply t_conseq with (P' := fun s => untouched s /\ fresh_val root)
                      (Q' := fun v s => untouched s /\ fresh_val v)
                      (E' := untouched).
  - apply (t_fold_each (fun v s => untouched s /\ fresh_val v)).
    intros target x. apply t_pure. intros Ht. now apply t_getitem.
  - intros s Hs. split; [exact Hs | exact Hroot].
  - auto.
  - auto.
Qed.

Lemma t_replace_tokens self kwargs :
  triple (fun s => untouched s /\ inst_is self (fun r => fresh_val (RS.show_steps r)) s)
         (_replace_tokens self kwargs) (fun _ => untouched) untouched.
Proof.
  unfold _replace_tokens.
  apply (t_bind _ _ _ (fun r s => untouched s /\ fresh_val (RS.show_steps r))).
  { intros s [Hs (r & Hr & Hf)]. unfold get_inst. rewrite Hr. now split. }
  intros r. apply t_pure. intros Hroot.
  apply (t_bind _ _ _ (fun _ => untouched)); [apply t_read, ro_gets|]. intros vals.
  apply (t_bind _ _ _ (fun _ => untouched)).
  { apply t_for_each. intros tr.
    destruct (dict_get _ _) as [paths|]; [|now apply t_ret].
    apply t_for_each. intros token_path.
    eapply t_bind; [now apply t_walk_path|]. intros target.
    apply t_pure. intros Ht.
    destruct (last token_path); [now apply t_setitem | now apply t_raise]. }
  intros u.
  apply (t_bind _ _ _ (fun _ => untouched)); [apply t_read, ro_gets|]. intros keys.
  apply (t_bind _ _ _ (fun _ => untouched)); [|intros k; now apply t_ret].
  apply (t_fold_each (fun _ => untouched)). intros keys_replaced tr.
  destruct (dict_get _ _) as [paths|]; [|now apply t_ret].
  apply (t_fold_each (fun _ => untouched)). intros kr token_path.
  eapply t_bind; [now apply t_walk_path|]. intros target.
  apply t_pure. intros Ht.
  eapply t_bind; [now apply t_pop|]. intros v. apply t_pure. intros Hv.
  apply (t_bind _ _ _ (fun _ => untouched)); [now apply t_setitem|].
  intros u'. now apply t_ret.
Qed.

(** The copy a new instance is built on is fresh, and stays the only
    thing the instance writes to. *)
Definition owns_copy (self : nat) (s : machine) : Prop :=
  untouched s /\ inst_is self (fun r => fresh_val (RS.show_steps r)) s.

Lemma owns_copy_alter self (g : RS.t -> RS.t) s :
  (forall r, RS.show_steps (g r) = RS.show_steps r) ->
  owns_copy self s ->
  owns_copy self (set_instances (alter g self (instances s)) s).
Proof.
  intros Hg [Hs Hi]. split.
  - unfold untouched in *. now destruct s.
  - apply inst_is_alter; [|exact Hi]. intros r. now rewrite Hg.
Qed.

Lemma t_init env steps prio hold speed start cb loops sync reset md manual key toks :
  fresh_val steps ->
  triple untouched
    (RunningShow_init env steps prio hold speed start cb loops sync reset md manual
       key toks)
    (fun _ => untouched) untouched.
Proof.
  intros Hsteps. unfold RunningShow_init.
  apply (t_bind _ _ _ owns_copy).
  { intros s Hs. unfold new_inst. split.
    - unfold untouched in *. now destruct s.
    - eexists. destruct s; simpl. rewrite list_lookup_middle by reflexivity.
      split; [reflexivity | exact Hsteps]. }
  intros self.
  assert (Hweak : forall s, owns_copy self s -> untouched s) by (intros s [H _]; exact H).
  assert (Halter : forall g, (forall r, RS.show_steps (g r) = RS.show_steps r) ->
            triple (owns_copy self) (update_inst self g)
                   (fun _ => owns_copy self) untouched).
  { intros g Hg. apply t_modify. intros s. now apply owns_copy_alter. }
  apply (t_bind _ _ _ (fun _ => owns_copy self)).
  { eapply t_weaken_E; [apply t_read, ro_len | exact Hweak]. }
  intros n.
  apply (t_bind _ _ _ (fun _ => owns_copy self)); [apply Halter; now intros []|]. intros u0.
  apply (t_bind _ _ _ (fun _ => owns_copy self)); [apply Halter; now intros []|]. intros u1.
  apply (t_bind _ _ _ (fun _ => owns_copy self)).
  { apply t_when; [intros _; apply Halter; now intros [] | auto]. }
  intros u2.
  apply (t_bind _ _ _ (fun _ => owns_copy self)).
  { eapply t_weaken_E; [apply t_read, ro_gets | exact Hweak]. }
  intros tk.
  apply (t_bind _ _ _ (fun _ => untouched)).
  { apply t_when; [intros _; apply t_replace_tokens | intros _ s [H _]; exact H]. }
  intros u3.
  apply (t_keeps heap store_untouched).
  apply keeps_init_tail; now intros [].
Qed.

(** Whatever [play] does and however it ends, the objects that were in
    the store before the call are in it afterwards, unchanged. *)
Lemma t_play env a :
  triple untouched (play env a) (fun _ => untouched) untouched.
Proof.
  unfold play.
  apply (t_bind _ _ _ (fun _ => untouched)); [apply t_read, ro_gets|]. intros tk.
  destruct (negb (forallb _ _)); [now apply t_raise|].
  apply (t_bind _ _ _ (fun _ => untouched)); [apply t_read, ro_gets|]. intros ld.
  destruct (negb ld).
  - apply (t_keeps heap store_untouched).
    apply keeps_bind; [apply keeps_modify; now intros []|]. intros u.
    apply keeps_bind; [apply keeps_modify; now intros [] | intros u'; apply keeps_ret].
  - apply (t_bind _ _ _ (fun _ => untouched)); [apply t_read, ro_gets|]. intros total.
    apply (t_bind _ _ _ (fun _ => untouched)).
    { destruct total; [now apply t_ret | now apply t_raise]. }
    intros loops.
    eapply t_bind; [apply t_copy|]. intros steps. apply t_pure. intros Hsteps.
    apply (t_bind _ _ _ (fun _ => untouched)); [now apply t_init|].
    intros self. now apply t_ret.
Qed.

End Template.

Lemma reify_frame (h h' : list obj) :
  (forall (l : loc) o, h !! l = Some o -> h' !! l = Some o) ->
  forall n v t, reify n h v = Some t -> reify n h' v = Some t.
Proof.
  intros Hframe. induction n as [|n IH]; intros [c|l] t H; simpl in *; auto.
  destruct (h !! l) as [o|] eqn:E; [|discriminate]. rewrite (Hframe _ _ E).
  destruct o as [items|kvs].
  - assert (Hitems : forall r,
      foldr (fun x acc => match reify n h x, acc with
                          | Some t0, Some ts => Some (t0 :: ts)
                          | _, _ => None
                          end) (Some []) items = Some r ->
      foldr (fun x acc => match reify n h' x, acc with
                          | Some t0, Some ts => Some (t0 :: ts)
                          | _, _ => None
                          end) (Some []) items = Some r).
    { clear - IH. induction items as [|x rest IHr]; simpl; intros r Hr; [exact Hr|].
      destruct (reify n h x) as [t0|] eqn:Ex; [|discriminate].
      destruct (foldr _ _ rest) as [ts|] eqn:Er; [|discriminate].
      rewrite (IH _ _ Ex), (IHr _ eq_refl). exact Hr. }
    destruct (foldr _ _ items) as [r|] eqn:Er; [|discriminate].
    now rewrite (Hitems _ eq_refl).
  - assert (Hkvs : forall r,
      foldr (fun kv acc => match reify n h kv.2, acc with
                           | Some t0, Some ts => Some ((kv.1, t0) :: ts)
                           | _, _ => None
                           end) (Some []) kvs = Some r ->
      foldr (fun kv acc => match reify n h' kv.2, acc with
                           | Some t0, Some ts => Some ((kv.1, t0) :: ts)
                           | _, _ => None
                           end) (Some []) kvs = Some r).
    { clear - IH. induction kvs as [|x rest IHr]; simpl; intros r Hr; [exact Hr|].
      destruct (reify n h x.2) as [t0|] eqn:Ex; [|discriminate].
      destruct (foldr _ _ rest) as [ts|] eqn:Er; [|discriminate].
      rewrite (IH _ _ Ex), (IHr _ eq_refl). exact Hr. }
    destruct (foldr _ _ kvs) as [r|] eqn:Er; [|discriminate].
    now rewrite (Hkvs _ eq_refl).
Qed.

Lemma plays_untouched env h0 calls s :
  untouched h0 s -> untouched h0 (plays env calls s).
Proof.
  revert s. induction calls as [|a rest IH]; intros s Hs; [exact Hs|].
  simpl. apply IH. pose proof (t_play h0 env a s Hs) as H.
  destruct (play env a s) as [[r|e] s1]; exact H.
Qed.

Lemma plays_keep_show_steps env calls s :
  show_steps (plays env calls s) = show_steps s.
Proof.
  revert s. induction calls as [|a rest IH]; intros s; [reflexivity|].
  simpl. rewrite IH.
  apply (keeps_play env show_steps); now intros [].
Qed.

(** C3 (as the code has it). A step's own keys are sections: the dict
    [{"(token1)": {"brightness": "(token2)"}}] is loaded under the section
    [leds].  Played with the bindings [token1 = "led_1"] and
    [token2 = 200], that show gets an instance whose own step has, under
    [leds], the key [led_1] over a dict holding 200, and after two such
    plays the show's step is the one that was loaded.  For every show and
    every sequence of [play] calls, whatever the bindings and however each
    call ends, the show's [show_steps] still refers to the same object,
    every object that was in the store before the calls is in it unchanged,
    and so the step sequence read from [show_steps] is the one it was
    before. *)
Theorem C3_tokens_replaced_in_the_copy_only (env : collaborators) (s : machine)
    (calls : list Args.t) :
  (exists i r,
      (play env0 token_args token_show).1 = Ok (Some i) /\
      instances (play env0 token_args token_show).2 !! i = Some r /\
      reify 4 (heap (play env0 token_args token_show).2) (RS.show_steps r)
        = Some (PList [PDict [(SStr "time", PScalar (SFloat 0));
                              (SStr "leds",
                               PDict [(SStr "led_1",
                                       PDict [(SStr "brightness",
                                               PScalar (SInt 200))])])]])) /\
  reify 4 (heap (plays env0 [token_args; token_args] token_show))
          (show_steps (plays env0 [token_args; token_args] token_show))
    = Some (PList [PDict [(SStr "time", PScalar (SFloat 0)); (SStr "leds", token_step)]]) /\
  show_steps (plays env calls s) = show_steps s /\
  (forall l o, heap s !! l = Some o -> heap (plays env calls s) !! l = Some o) /\
  (forall n t, reify n (heap s) (show_steps s) = Some t ->
               reify n (heap (plays env calls s)) (show_steps (plays env calls s)) = Some t).
Proof.
  assert (Hframe : forall l o, heap s !! l = Some o ->
                               heap (plays env calls s) !! l = Some o).
  { pose proof (plays_untouched env (heap s) calls s (untouched_start _ s eq_refl))
      as (_ & Hf & _). exact Hf. }
  split; [|split; [|split; [|split]]].
  - exists 0%nat. eexists. vm_compute. repeat split; reflexivity.
  - vm_compute. reflexivity.
  - apply plays_keep_show_steps.
  - exact Hframe.
  - intros n t Hr. rewrite plays_keep_show_steps.
    now apply (reify_frame (heap s)).
Qed.

(** C3 as stated fails at the load: a step whose own key is ["(token1)"]
    is refused with [ValueError] (the key is not a section), by
    [do_load_show] and by the constructor, which leaves the show not
    loaded and without tokens; a [play] with the two bindings is then a
    token mismatch. *)
Lemma C3_counterexample :
  let out := Show_init env0 (PList [token_step]) s0 in
  (do_load_show env0 (PList [token_step]) s0).1 = Raise ValueError /\
  out.1 = Raise ValueError /\
  loaded out.2 = false /\
  tokens out.2 = [] /\
  (play env0 token_args out.2).1 = Raise ValueError /\
  instances (play env0 token_args out.2).2 = [].
Proof. vm_compute. repeat split; reflexivity. Qed.

End ShowSpec.

(* ===================================================================== *)
(** * Properties of the serial protocol engine *)
(* ===================================================================== *)

Module OppSpec.
Import Py OppModel Samples.
Local Open Scope py_scope.

(** ** Bits *)

Lemma land_pow2_testbit (i x : Z) :
  0 <= i -> (Z.land (2 ^ i) x =? 0) = negb (Z.testbit x i).
Proof.
  intros Hi.
  assert (H : Z.land (2 ^ i) x = if Z.testbit x i then 2 ^ i else 0).
  { apply Z.bits_inj'. intros n Hn. rewrite Z.land_spec, Z.pow2_bits_eqb by lia.
    destruct (Z.eqb_spec i n) as [->|Hne].
    - destruct (Z.testbit x n) eqn:E; simpl.
      + now rewrite Z.pow2_bits_eqb, Z.eqb_refl by lia.
      + now rewrite Z.bits_0.
    - simpl. destruct (Z.testbit x i).
      + rewrite Z.pow2_bits_eqb by lia. symmetry. now apply Z.eqb_neq.
      + now rewrite Z.bits_0. }
  rewrite H. destruct (Z.testbit x i); simpl.
  - apply Z.eqb_neq. pose proof (Z.pow_pos_nonneg 2 i). lia.
  - reflexivity.
Qed.

Lemma ord_range (b : byte) : 0 <= ord b < 256.
Proof.
  unfold ord. pose proof (Byte.to_N_bounded b). lia.
Qed.

Lemma ord_high_bits (b : byte) (n : Z) : 8 <= n -> Z.testbit (ord b) n = false.
Proof.
  intros Hn. pose proof (ord_range b) as Hb.
  rewrite <- (Z.mod_small (ord b) (2 ^ 8)) by (change (2 ^ 8) with 256; lia).
  apply Z.mod_pow2_bits_high. lia.
Qed.

(** The 32-bit state carried by the four payload bytes of an input-state
    response, most significant byte first. *)
Definition state_of (b2 b3 b4 b5 : byte) : Z :=
  Z.lor (Z.lor (Z.lor (Z.shiftl (ord b2) 24) (Z.shiftl (ord b3) 16))
               (Z.shiftl (ord b4) 8)) (ord b5).

Lemma state_of_range b2 b3 b4 b5 : 0 <= state_of b2 b3 b4 b5 < 2 ^ 32.
Proof.
  pose proof (ord_range b2). pose proof (ord_range b3).
  pose proof (ord_range b4). pose proof (ord_range b5).
  assert (Hnn : 0 <= state_of b2 b3 b4 b5).
  { unfold state_of. repeat (apply Z.lor_nonneg; split); try apply Z.shiftl_nonneg; lia. }
  split; [exact Hnn|].
  assert (Hlow : Z.land (state_of b2 b3 b4 b5) (Z.ones 32) = state_of b2 b3 b4 b5).
  { apply Z.bits_inj'. intros n Hn. rewrite Z.land_spec.
    destruct (Z.ltb_spec n 32) as [Hlt|Hge].
    - rewrite Z.ones_spec_low by lia. apply andb_true_r.
    - rewrite Z.ones_spec_high by lia. rewrite andb_false_r.
      unfold state_of. rewrite !Z.lor_spec, !Z.shiftl_spec by lia.
      rewrite !ord_high_bits by lia. reflexivity. }
  rewrite Z.land_ones in Hlow by lia.
  rewrite <- Hlow. apply Z.mod_pos_bound. lia.
Qed.

(** ** Switch transitions of an input-state response *)

(** The channels whose bit differs between two states, in ascending
    order. *)
Definition changed_channels (old new : Z) : list nat :=
  List.filter (fun i => xorb (Z.testbit old (Z.of_nat i)) (Z.testbit new (Z.of_nat i)))
              (seq 0 32).

(** The event of a channel: the switch number and the reported state,
    which is 1 (active) when the new bit is 0. *)
Definition event_of (card : string) (new : Z) (i : nat) : string * Z :=
  (channel_number card i, if Z.testbit new (Z.of_nat i) then 0 else 1).

Definition expected_events (card : string) (old new : Z) : list (string * Z) :=
  map (event_of card new) (changed_channels old new).

Lemma set_switch_events_nil s : set_switch_events (switch_events s ++ []) s = s.
Proof. destruct s; simpl. now rewrite app_nil_r. Qed.

Lemma report_round_eq card changes new_state a s :
  report_round card changes new_state (2 ^ Z.of_nat a) a s
  = (Ok (2 ^ Z.of_nat (S a)),
     if Z.testbit changes (Z.of_nat a)
     then set_switch_events (switch_events s ++ [event_of card new_state a]) s
     else s).
Proof.
  assert (Hshift : Z.shiftl (2 ^ Z.of_nat a) 1 = 2 ^ Z.of_nat (S a)).
  { rewrite Z.shiftl_mul_pow2, Nat2Z.inj_succ, Z.pow_succ_r by lia. lia. }
  unfold report_round, bind, when, ret, process_switch_by_num, modify, event_of.
  rewrite !land_pow2_testbit by lia. rewrite negb_involutive, Hshift.
  destruct (Z.testbit changes (Z.of_nat a)); [|reflexivity].
  now destruct (Z.testbit new_state (Z.of_nat a)).
Qed.

Lemma fold_each_cons {S A B} (x : A) (xs : list A) (b : B) (body : B -> A -> M S B) s :
  fold_each (x :: xs) b body s =
  match body b x s with
  | (Ok b', s') => fold_each xs b' body s'
  | (Raise e, s') => (Raise e, s')
  end.
Proof. reflexivity. Qed.

Lemma report_loop card changes new_state a n s :
  fold_each (seq a n) (2 ^ Z.of_nat a) (report_round card changes new_state) s
  = (Ok (2 ^ Z.of_nat (a + n)),
     set_switch_events
       (switch_events s ++
        map (event_of card new_state)
            (List.filter (fun i => Z.testbit changes (Z.of_nat i)) (seq a n))) s).
Proof.
  revert a s. induction n as [|n IH]; intros a s.
  - simpl. unfold ret. now rewrite Nat.add_0_r, set_switch_events_nil.
  - simpl seq. rewrite fold_each_cons, report_round_eq, IH.
    f_equal; [now rewrite Nat.add_succ_r|].
    cbn [List.filter].
    destruct (Z.testbit changes (Z.of_nat a)); [|reflexivity].
    destruct s; simpl. now rewrite <- app_assoc.
Qed.

Lemma report_changes_events card old new s :
  report_changes card (Z.lxor old new) new s
  = (Ok tt, set_switch_events (switch_events s ++ expected_events card old new) s).
Proof.
  unfold report_changes, bind.
  change 1 with (2 ^ Z.of_nat 0) at 1.
  rewrite report_loop. unfold ret.
  unfold expected_events, changed_channels.
  rewrite (filter_ext (fun i => Z.testbit (Z.lxor old new) (Z.of_nat i))
             (fun i => xorb (Z.testbit old (Z.of_nat i)) (Z.testbit new (Z.of_nat i))));
    [reflexivity|].
  intros i. apply Z.lxor_spec.
Qed.

Lemma no_change_no_channel x : changed_channels x x = [].
Proof.
  unfold changed_channels. induction (seq 0 32) as [|i l IH]; simpl; [reflexivity|].
  now rewrite xorb_nilpotent.
Qed.

Lemma lxor_zero_same old new : Z.lxor old new = 0 -> old = new.
Proof. apply Z.lxor_eq. Qed.

(** The state after a valid input-state response that stores [new] in
    the card at position [i], whose attributes were [c]. *)
Definition after_valid (new : Z) (i : nat) (c : OPPInputCard) (s : platform) : platform :=
  set_opp_inputs (alter (set_oldState new) i (opp_inputs s))
    (set_switch_events
       (switch_events s ++
        (if has_switch_controller s
         then expected_events (cardNum c) (oldState c) new
         else [])) s).

(** The state after a response whose CRC byte does not match. *)
Definition after_bad_crc (msg : list byte) (s : platform) : platform :=
  set_log (log s ++ [WarnBadCRC msg]) (set_badCRC (badCRC s + 1) s).

Lemma inp_resp_valid intf s a cmd b2 b3 b4 b5 i c :
  table_get (inpAddrDict s) (ord a) = Some i ->
  opp_inputs s !! i = Some c ->
  read_gen2_inp_resp intf
    [a; cmd; b2; b3; b4; b5; crc8 intf [a; cmd; b2; b3; b4; b5]] s
  = (Ok tt, after_valid (state_of b2 b3 b4 b5) i c s).
Proof.
  intros Hdict Hcard.
  unfold read_gen2_inp_resp, bind, calc_crc8_part_msg, msg_at, gets, after_valid. simpl.
  rewrite Z.eqb_refl. simpl. rewrite Hdict, Hcard.
  fold (state_of b2 b3 b4 b5).
  destruct (has_switch_controller s) eqn:Hsc; simpl.
  - destruct (Z.lxor (oldState c) (state_of b2 b3 b4 b5) =? 0) eqn:Ez; simpl.
    + apply Z.eqb_eq, lxor_zero_same in Ez.
      unfold expected_events. rewrite Ez, no_change_no_channel. simpl.
      unfold modify. now rewrite set_switch_events_nil.
    + rewrite report_changes_events. unfold modify. now destruct s.
  - unfold modify. now rewrite set_switch_events_nil.
Qed.

Lemma inp_resp_bad_crc intf s a cmd b2 b3 b4 b5 k :
  ord k <> ord (crc8 intf [a; cmd; b2; b3; b4; b5]) ->
  read_gen2_inp_resp intf [a; cmd; b2; b3; b4; b5; k] s
  = (Ok tt, after_bad_crc [a; cmd; b2; b3; b4; b5; k] s).
Proof.
  intros Hne.
  unfold read_gen2_inp_resp, bind, calc_crc8_part_msg, msg_at, gets, after_bad_crc. simpl.
  apply Z.eqb_neq in Hne. rewrite Hne. simpl.
  unfold log_msg, modify. now destruct s.
Qed.

(** C5 (as the code has it). A CRC-valid input-state response for a known
    input card is accepted; when the machine has a switch controller, one
    transition is reported for each of the 32 channels whose bit differs
    between the stored and the received state, in ascending order, with
    state 1 exactly when the new bit is 0, and none otherwise; in both
    cases the received state then replaces the stored one.  From state 0 to
    state 1 the transitions are the single one of channel 0; an unchanged
    state has none. *)
Theorem C5_input_state_response (intf : OppRs232Intf) (s : platform)
    (a cmd b2 b3 b4 b5 : byte) (i : nat) (c : OPPInputCard) :
  table_get (inpAddrDict s) (ord a) = Some i ->
  opp_inputs s !! i = Some c ->
  let msg := [a; cmd; b2; b3; b4; b5; crc8 intf [a; cmd; b2; b3; b4; b5]] in
  let new := state_of b2 b3 b4 b5 in
  (exists s',
      read_gen2_inp_resp intf msg s = (Ok tt, s') /\
      switch_events s' =
        switch_events s ++
        (if has_switch_controller s
         then expected_events (cardNum c) (oldState c) new
         else []) /\
      opp_inputs s' = alter (set_oldState new) i (opp_inputs s) /\
      badCRC s' = badCRC s) /\
  0 <= new < 2 ^ 32 /\
  expected_events (cardNum c) 0 1 = [(channel_number (cardNum c) 0, 0)] /\
  (forall x, expected_events (cardNum c) x x = []).
Proof.
  intros Hdict Hcard msg new.
  split; [|split; [apply state_of_range | split; [reflexivity|]]].
  - exists (after_valid new i c s). split; [now apply inp_resp_valid|].
    unfold after_valid. now destruct s.
  - intros x. unfold expected_events. now rewrite no_change_no_channel.
Qed.

Lemma C5_witness :
  let c := {| addr := 32; oldState := 0; mask := 255; cardNum := "0" |} in
  let msg := [Byte.x20; Byte.x08; Byte.x00; Byte.x00; Byte.x00; Byte.x01;
              crc8 sample_intf
                [Byte.x20; Byte.x08; Byte.x00; Byte.x00; Byte.x00; Byte.x01]] in
  let new := state_of Byte.x00 Byte.x00 Byte.x00 Byte.x01 in
  (exists s',
      read_gen2_inp_resp sample_intf msg (one_card true) = (Ok tt, s') /\
      switch_events s' =
        switch_events (one_card true) ++
        (if has_switch_controller (one_card true)
         then expected_events (cardNum c) (oldState c) new
         else []) /\
      opp_inputs s' = alter (set_oldState new) 0%nat (opp_inputs (one_card true)) /\
      badCRC s' = badCRC (one_card true)) /\
  0 <= new < 2 ^ 32 /\
  expected_events (cardNum c) 0 1 = [(channel_number (cardNum c) 0, 0)] /\
  (forall x, expected_events (cardNum c) x x = []).
Proof.
  apply (C5_input_state_response sample_intf (one_card true)
           Byte.x20 Byte.x08 Byte.x00 Byte.x00 Byte.x00 Byte.x01 0
           {| addr := 32; oldState := 0; mask := 255; cardNum := "0" |}).
  - vm_compute. reflexivity.
  - vm_compute. reflexivity.
Defined.

(** C5 as stated fails while the machine has no switch controller: the
    card's state goes from 0 to 1 on a CRC-valid response and no transition
    is reported. *)
Lemma C5_counterexample :
  let s := one_card false in
  let out := read_gen2_inp_resp sample_intf
               (inp_frame Byte.x20 Byte.x00 Byte.x00 Byte.x00 Byte.x01) s in
  map oldState (opp_inputs s) = [0] /\
  out.1 = Ok tt /\
  map oldState (opp_inputs out.2) = [1] /\
  switch_events out.2 = [].
Proof. vm_compute. repeat split; reflexivity. Qed.

(** ** Assertions on the platform state *)

Definition hoare {A} (P : platform -> Prop) (m : Mp A)
    (Q : A -> platform -> Prop) (E : platform -> Prop) : Prop :=
  forall s, P s ->
    let (r, s') := m s in
    match r with
    | Ok a => Q a s'
    | Raise _ => E s'
    end.

Lemma h_ret {A} (P : platform -> Prop) (a : A) (Q : A -> platform -> Prop) E :
  (forall s, P s -> Q a s) -> hoare P (ret a) Q E.
Proof. intros H s Hs. now apply H. Qed.

Lemma h_raise {A} (P : platform -> Prop) e (Q : A -> platform -> Prop) (E : platform -> Prop) :
  (forall s, P s -> E s) -> hoare P (raise e) Q E.
Proof. intros H s Hs. now apply H. Qed.

Lemma h_bind {A B} (P : platform -> Prop) (m : Mp A) (k : A -> Mp B)
    (R : A -> platform -> Prop) (Q : B -> platform -> Prop) (E : platform -> Prop) :
  hoare P m R E -> (forall a, hoare (R a) (k a) Q E) -> hoare P (bind m k) Q E.
Proof.
  intros Hm Hk s Hs. unfold bind. specialize (Hm s Hs).
  destruct (m s) as [[a|e] s1]; [now apply Hk | exact Hm].
Qed.

Lemma h_modify (P : platform -> Prop) (f : platform -> platform)
    (Q : unit -> platform -> Prop) E :
  (forall s, P s -> Q tt (f s)) -> hoare P (modify f) Q E.
Proof. intros H s Hs. now apply H. Qed.

Lemma h_gets {A} (P : platform -> Prop) (f : platform -> A) (Q : A -> platform -> Prop) E :
  (forall s, P s -> Q (f s) s) -> hoare P (gets f) Q E.
Proof. intros H s Hs. now apply H. Qed.

Lemma h_conseq {A} (P P' : platform -> Prop) (m : Mp A) (Q Q' : A -> platform -> Prop)
    (E E' : platform -> Prop) :
  hoare P' m Q' E' -> (forall s, P s -> P' s) -> (forall a s, Q' a s -> Q a s) ->
  (forall s, E' s -> E s) -> hoare P m Q E.
Proof.
  intros H HP HQ HE s Hs. specialize (H s (HP s Hs)).
  destruct (m s) as [[a|e] s1]; auto.
Qed.

Lemma h_pure {A} (phi : Prop) (P : platform -> Prop) (m : Mp A) Q E :
  (phi -> hoare P m Q E) -> hoare (fun s => P s /\ phi) m Q E.
Proof. intros H s [Hs Hphi]. now apply H. Qed.

Lemma h_when (P : platform -> Prop) (c : bool) (m : Mp unit) (Q : unit -> platform -> Prop) E :
  (c = true -> hoare P m Q E) -> (c = false -> forall s, P s -> Q tt s) ->
  hoare P (when c m) Q E.
Proof.
  intros Hm Hs. destruct c; simpl; [now apply Hm | apply h_ret; now apply Hs].
Qed.

Lemma h_fold_each {A B} (I : B -> platform -> Prop) (xs : list A) (b : B)
    (body : B -> A -> Mp B) E :
  (forall b x, x ∈ xs -> hoare (I b) (body b x) I E) ->
  hoare (I b) (fold_each xs b body) I E.
Proof.
  revert b. induction xs as [|x rest IH]; intros b Hb.
  - now apply h_ret.
  - simpl. eapply h_bind.
    + apply Hb. apply elem_of_cons. now left.
    + intros b'. apply IH. intros b0 x0 Hx0. apply Hb. apply elem_of_cons. now right.
Qed.

(** Reading a byte of the message leaves the state alone. *)
Lemma h_msg_at (P : platform -> Prop) (msg : list byte) (i : nat) :
  hoare P (msg_at msg i)
        (fun z s => P s /\ exists b, msg !! i = Some b /\ z = ord b) P.
Proof.
  intros s Hs. unfold msg_at. destruct (msg !! i) as [b|] eqn:E; simpl; [|exact Hs].
  split; [exact Hs | now exists b].
Qed.

Lemma h_msg_at_any (P : platform -> Prop) (msg : list byte) (i : nat) :
  hoare P (msg_at msg i) (fun _ => P) P.
Proof.
  eapply h_conseq; [apply (h_msg_at P) | auto | | auto]. now intros a s [Hs _].
Qed.

Lemma h_crc (P : platform -> Prop) intf (msg : list byte) (i n : nat) :
  hoare P (calc_crc8_part_msg intf msg i n) (fun _ => P) P.
Proof.
  intros s Hs. unfold calc_crc8_part_msg. now destruct (_ <=? _)%nat.
Qed.

Lemma h_log (P : platform -> Prop) e E :
  (forall s l, P s -> P (set_log l s)) -> hoare P (log_msg e) (fun _ => P) E.
Proof. intros H. apply h_modify. intros s Hs. now apply H. Qed.

Lemma hoare_run {A} (P : platform -> Prop) (m : Mp A) (I : platform -> Prop) s :
  hoare P m (fun _ => I) I -> P s -> I (m s).2.
Proof.
  intros H Hs. specialize (H s Hs). now destruct (m s) as [[a|e] s1].
Qed.

Lemma h_wing_masks (P : platform -> Prop) (R : bool * Z * Z * Z -> Prop) intf
    (msg : list byte) (idx : nat) :
  R (false, 0, 0, 0) ->
  (forall neo sol inp inc (w : nat),
     R (neo, sol, inp, inc) ->
     R (neo, Z.lor sol (Z.shiftl 0x0f (4 * Z.of_nat w)),
        Z.lor inp (Z.shiftl 0x0f (8 * Z.of_nat w)), inc) /\
     R (neo, sol, Z.lor inp (Z.shiftl 0xff (8 * Z.of_nat w)), inc) /\
     R (neo, sol, inp, Z.lor inc (Z.shiftl 0xff (8 * Z.of_nat w))) /\
     R (true, sol, inp, inc)) ->
  hoare P (wing_masks intf msg idx) (fun r s => P s /\ R r) P.
Proof.
  intros R0 Rstep. unfold wing_masks.
  apply (h_conseq _ (fun s => P s /\ R (false, 0, 0, 0)) _ _
           (fun acc s => P s /\ R acc) _ P); [|now split|auto|auto].
  apply (h_fold_each (fun acc s => P s /\ R acc)).
  intros [[[neo sol] inp] inc] w _.
  apply (h_bind _ _ _ (fun _ s => P s /\ R (neo, sol, inp, inc))).
  { intros s [Hs HR]. unfold msg_at. destruct (msg !! _); simpl; auto. }
  intros t. 
  repeat (match goal with |- hoare _ (if ?c then _ else _) _ _ => destruct c end);
    apply h_ret; intros s [Hs HR]; (split; [exact Hs|]);
    destruct (Rstep neo sol inp inc w HR) as (H1 & H2 & H3 & H4); auto.
Qed.

(** ** Two input-state responses in one read *)

Lemma gen2_addr_range (b : byte) :
  is_gen2_addr b = true -> 0x20 <= ord b < 0x20 + 0x20.
Proof.
  destruct b; intros H; vm_compute in H; try discriminate H; vm_compute;
    (split; [intros ?; discriminate | reflexivity]).
Qed.

Lemma split_two_frames intf a1 p2 p3 p4 p5 k1 a2 q2 q3 q4 q5 k2 :
  is_gen2_addr a1 = true ->
  is_gen2_addr a2 = true ->
  split_frames intf
    ([a1; READ_GEN2_INP_CMD intf; p2; p3; p4; p5; k1] ++
     [a2; READ_GEN2_INP_CMD intf; q2; q3; q4; q5; k2])
  = ([[a1; READ_GEN2_INP_CMD intf; p2; p3; p4; p5; k1];
      [a2; READ_GEN2_INP_CMD intf; q2; q3; q4; q5; k2]], []).
Proof.
  intros H1 H2. simpl app.
  simp split_frames. simpl. rewrite H1, Z.eqb_refl. simpl.
  simp split_frames. simpl. rewrite H2, Z.eqb_refl. simpl.
  simp split_frames. reflexivity.
Qed.

Lemma process_inp_frame intf a rest :
  ord (CARD_ID_GEN2_CARD intf) = 0x20 ->
  table_get (opp_commands intf) (ord (READ_GEN2_INP_CMD intf)) = Some h_read_gen2_inp_resp ->
  is_gen2_addr a = true ->
  process_received_message intf (a :: READ_GEN2_INP_CMD intf :: rest)
  = read_gen2_inp_resp intf (a :: READ_GEN2_INP_CMD intf :: rest).
Proof.
  intros Hid Htab Ha. unfold process_received_message, command_of.
  pose proof (gen2_addr_range a Ha) as [Hlo Hhi].
  rewrite Hid.
  destruct (Z.leb_spec 32 (ord a)); [|lia].
  destruct (Z.ltb_spec (ord a) (32 + 32)); [|lia].
  simpl. now rewrite Htab.
Qed.

(** ** A bad CRC in a configuration or version response *)

(** Wherever the loop of [get_gen2_cfg_resp] stands, a sub-frame whose CRC
    byte does not match ends it at once: the bad CRC is counted and logged,
    and nothing that follows is read. *)
Lemma cfg_loop_bad_crc intf passes (msg : list byte) idx w s k :
  msg !! (idx + 6)%nat = Some k ->
  ord k <> ord (crc8 intf (take 6 (drop idx msg))) ->
  cfg_loop intf (S passes) msg idx w s = (Ok w, after_bad_crc msg s).
Proof.
  intros Hk Hne. pose proof (lookup_lt_Some _ _ _ Hk) as Hlen.
  cbn [cfg_loop]. unfold bind at 1. unfold calc_crc8_part_msg.
  destruct (Nat.leb_spec (idx + 6) (length msg)) as [_|Hgt]; [|lia].
  cbn [ret]. unfold bind at 1. unfold msg_at. rewrite Hk. cbn [ret].
  apply Z.eqb_neq in Hne. rewrite Hne. cbn [negb].
  unfold bind, log_msg, modify, ret, after_bad_crc. now destruct s.
Qed.

Lemma vers_loop_bad_crc intf passes (msg : list byte) idx s k :
  msg !! (idx + 6)%nat = Some k ->
  ord k <> ord (crc8 intf (take 6 (drop idx msg))) ->
  vers_loop intf (S passes) msg idx s = (Ok tt, after_bad_crc msg s).
Proof.
  intros Hk Hne. pose proof (lookup_lt_Some _ _ _ Hk) as Hlen.
  cbn [vers_loop]. unfold bind at 1. unfold calc_crc8_part_msg.
  destruct (Nat.leb_spec (idx + 6) (length msg)) as [_|Hgt]; [|lia].
  cbn [ret]. unfold bind at 1. unfold msg_at. rewrite Hk. cbn [ret].
  apply Z.eqb_neq in Hne. rewrite Hne. cbn [negb].
  unfold bind, log_msg, modify, ret, after_bad_crc. now destruct s.
Qed.

(** The bad-CRC count is [c0], or one more. *)
Definition counted_once (c0 : Z) (s : platform) : Prop :=
  badCRC s = c0 \/ badCRC s = c0 + 1.

Definition count_is (c0 : Z) (s : platform) : Prop := badCRC s = c0.

Lemma h_step {A} c0 (m : Mp A) :
  hoare (count_is c0) m (fun _ => count_is c0) (count_is c0) ->
  hoare (count_is c0) m (fun _ => count_is c0) (counted_once c0).
Proof.
  intros H. eapply h_conseq; [exact H | auto | auto |]. intros s Hs. now left.
Qed.

Lemma h_keep c0 (f : platform -> platform) :
  (forall s, badCRC (f s) = badCRC s) ->
  hoare (count_is c0) (modify f) (fun _ => count_is c0) (counted_once c0).
Proof. intros Hf. apply h_modify. intros s Hs. unfold count_is. now rewrite Hf. Qed.

Lemma cfg_loop_counts_once intf c0 (msg : list byte) (passes : nat) : forall idx w,
  hoare (count_is c0) (cfg_loop intf passes msg idx w)
        (fun _ => counted_once c0) (counted_once c0).
Proof.
  induction passes as [|passes IH]; intros idx w; cbn [cfg_loop].
  { apply h_raise. intros s Hs. now left. }
  eapply h_bind; [apply h_step, h_crc|]. intros c.
  eapply h_bind; [apply h_step, h_msg_at_any|]. intros got.
  destruct (negb (got =? c)).
  { apply (h_bind _ _ _ (fun _ => counted_once c0)).
    - apply h_modify. intros s Hs. right. unfold count_is in Hs. now destruct s; simpl in *; subst.
    - intros u. apply (h_bind _ _ _ (fun _ => counted_once c0)).
      + apply h_modify. intros s Hs. unfold counted_once in *. now destruct s.
      + intros u1. now apply h_ret. }
  apply (h_bind _ _ _ (fun _ => count_is c0)).
  { eapply h_conseq;
      [apply (h_wing_masks (count_is c0) (fun _ => True)); [exact I | intros; repeat split]
      | auto | now intros a s [Hs _] | intros s Hs; now left]. }
  intros [[[has_neo sol_mask] inp_mask] incand_mask].
  eapply h_bind; [apply h_step, h_msg_at_any|]. intros a.
  apply (h_bind _ _ _ (fun _ => count_is c0)).
  { apply h_when; [intros _|auto]. unfold new_incand_card.
    apply (h_bind _ _ _ (fun _ => count_is c0)); [apply h_keep; now intros []|].
    intros u. apply h_keep. now intros []. }
  intros u1. apply (h_bind _ _ _ (fun _ => count_is c0)).
  { apply h_when; [intros _|auto]. unfold new_solenoid_card.
    apply (h_bind _ _ _ (fun _ => count_is c0)); [apply h_keep; now intros []|].
    intros u. apply h_keep. now intros []. }
  intros u2. apply (h_bind _ _ _ (fun _ => count_is c0)).
  { apply h_when; [intros _|auto]. unfold new_input_card.
    apply (h_bind _ _ _ (fun _ => count_is c0)); [apply h_keep; now intros []|].
    intros u. apply (h_bind _ _ _ (fun _ => count_is c0)); [apply h_keep; now intros []|].
    intros u'. apply h_keep. now intros []. }
  intros u3. apply (h_bind _ _ _ (fun _ => count_is c0)).
  { apply h_when; [intros _|auto]. unfold new_neopixel_card.
    apply (h_bind _ _ _ (fun _ => count_is c0)); [apply h_keep; now intros []|].
    intros u. apply h_keep. now intros []. }
  intros u4. eapply h_bind; [apply h_step, h_msg_at_any|]. intros e.
  destruct (e =? ord (EOM_CMD intf)); [apply h_ret; intros s Hs; now left|].
  eapply h_bind; [apply h_step, h_msg_at_any|]. intros n.
  destruct (n =? ord (GET_GEN2_CFG intf)); [apply IH|].
  apply (h_bind _ _ _ (fun _ => count_is c0)); [apply h_keep; now intros []|].
  intros u5. apply h_ret. intros s Hs. now left.
Qed.

Lemma vers_loop_counts_once intf c0 (msg : list byte) (passes : nat) : forall idx,
  hoare (count_is c0) (vers_loop intf passes msg idx)
        (fun _ => counted_once c0) (counted_once c0).
Proof.
  induction passes as [|passes IH]; intros idx; cbn [vers_loop].
  { apply h_raise. intros s Hs. now left. }
  eapply h_bind; [apply h_step, h_crc|]. intros c.
  eapply h_bind; [apply h_step, h_msg_at_any|]. intros got.
  destruct (negb (got =? c)).
  { apply (h_bind _ _ _ (fun _ => counted_once c0)).
    - apply h_modify. intros s Hs. right. unfold count_is in Hs. now destruct s; simpl in *; subst.
    - intros u. apply h_modify. intros s Hs. unfold counted_once in *. now destruct s. }
  eapply h_bind; [apply h_step, h_msg_at_any|]. intros b2.
  eapply h_bind; [apply h_step, h_msg_at_any|]. intros b3.
  eapply h_bind; [apply h_step, h_msg_at_any|]. intros b4.
  eapply h_bind; [apply h_step, h_msg_at_any|]. intros b5.
  apply (h_bind _ _ _ (fun _ => count_is c0)); [apply h_keep; now intros []|]. intros u.
  apply (h_bind _ _ _ (fun _ => count_is c0)).
  { apply h_keep. intros s. destruct (_ <? _); now destruct s. }
  intros u1. apply (h_bind _ _ _ (fun _ => count_is c0)).
  { destruct (_ =? BAD_FW_VERSION); [apply h_raise; intros s Hs; now left | now apply h_ret]. }
  intros u2. apply (h_bind _ _ _ (fun _ => count_is c0)); [apply h_keep; now intros []|].
  intros u3. eapply h_bind; [apply h_step, h_msg_at_any|]. intros e.
  destruct (e =? ord (EOM_CMD intf)); [apply h_ret; intros s Hs; now left|].
  eapply h_bind; [apply h_step, h_msg_at_any|]. intros n.
  destruct (n =? ord (GET_GET_VERS_CMD intf)); [apply IH|].
  apply h_modify. intros s Hs. left. unfold count_is in *. now destruct s.
Qed.

Lemma cfg_resp_counts_once intf (msg : list byte) s :
  counted_once (badCRC s) (get_gen2_cfg_resp intf msg s).2.
Proof.
  apply (hoare_run (count_is (badCRC s)) (get_gen2_cfg_resp intf msg)
           (counted_once (badCRC s)) s); [|reflexivity].
  unfold get_gen2_cfg_resp.
  apply (h_bind _ _ _ (fun _ => count_is (badCRC s))); [apply h_keep; now intros []|].
  intros u. eapply h_bind; [apply cfg_loop_counts_once|].
  intros w. apply h_modify. intros s1 Hs. unfold counted_once in *. now destruct s1.
Qed.

Lemma vers_resp_counts_once intf (msg : list byte) s :
  counted_once (badCRC s) (vers_resp intf msg s).2.
Proof.
  apply (hoare_run (count_is (badCRC s)) (vers_resp intf msg)
           (counted_once (badCRC s)) s); [|reflexivity].
  unfold vers_resp.
  apply (h_bind _ _ _ (fun _ => count_is (badCRC s))); [apply h_keep; now intros []|].
  intros u. apply vers_loop_counts_once.
Qed.

(** C6 (as the code has it). The CRC is checked by the handlers, after
    the dispatch.

    Two input-state responses arrive in one read on an empty buffer, the
    first with a CRC byte that does not match (its address and command bytes
    are those of an input-state response), the second valid and from a known
    input card.  The receive loop cuts both and queues both, and both go
    through the command table to the input-state handler.  The first only
    counts as a bad CRC and is logged; the second is processed.  The counter
    goes up by exactly one.

    A configuration response and a version response count at most one bad
    CRC, whatever they hold: wherever their loop over the sub-frames stands,
    a sub-frame whose CRC byte does not match ends it, with the counter up
    by one, the warning logged and nothing else changed, so that what
    follows it in the message is not processed.  With the bad CRC in the
    first sub-frame, nothing of the message is processed. *)
Theorem C6_bad_crc_then_valid_input_response :
  (forall (intf : OppRs232Intf) (s : platform)
          (a1 p2 p3 p4 p5 k1 a2 b2 b3 b4 b5 : byte) (i : nat) (c : OPPInputCard),
     ord (CARD_ID_GEN2_CARD intf) = 0x20 ->
     table_get (opp_commands intf) (ord (READ_GEN2_INP_CMD intf))
       = Some h_read_gen2_inp_resp ->
     is_gen2_addr a1 = true ->
     is_gen2_addr a2 = true ->
     ord k1 <> ord (crc8 intf [a1; READ_GEN2_INP_CMD intf; p2; p3; p4; p5]) ->
     partMsg s = [] ->
     receive_queue s = [] ->
     table_get (inpAddrDict s) (ord a2) = Some i ->
     opp_inputs s !! i = Some c ->
     let f1 := [a1; READ_GEN2_INP_CMD intf; p2; p3; p4; p5; k1] in
     let f2 := [a2; READ_GEN2_INP_CMD intf; b2; b3; b4; b5;
                crc8 intf [a2; READ_GEN2_INP_CMD intf; b2; b3; b4; b5]] in
     let new := state_of b2 b3 b4 b5 in
     split_frames intf (f1 ++ f2) = ([f1; f2], []) /\
     process_received_message intf f1 = read_gen2_inp_resp intf f1 /\
     process_received_message intf f2 = read_gen2_inp_resp intf f2 /\
     exists s',
       (receive intf (f1 ++ f2) ;; process_receive_queue intf)%py s = (Ok tt, s') /\
       badCRC s' = badCRC s + 1 /\
       log s' = log s ++ [WarnBadCRC f1] /\
       switch_events s' =
         switch_events s ++
         (if has_switch_controller s
          then expected_events (cardNum c) (oldState c) new
          else []) /\
       opp_inputs s' = alter (set_oldState new) i (opp_inputs s) /\
       partMsg s' = [] /\
       receive_queue s' = []) /\
  (forall (intf : OppRs232Intf) (msg : list byte) (s : platform),
     (badCRC (get_gen2_cfg_resp intf msg s).2 = badCRC s \/
      badCRC (get_gen2_cfg_resp intf msg s).2 = badCRC s + 1) /\
     (badCRC (vers_resp intf msg s).2 = badCRC s \/
      badCRC (vers_resp intf msg s).2 = badCRC s + 1)) /\
  (forall (intf : OppRs232Intf) (passes : nat) (msg : list byte) (idx : nat)
          (whole_msg : list byte) (s : platform) (k : byte),
     msg !! (idx + 6)%nat = Some k ->
     ord k <> ord (crc8 intf (take 6 (drop idx msg))) ->
     cfg_loop intf (S passes) msg idx whole_msg s = (Ok whole_msg, after_bad_crc msg s) /\
     vers_loop intf (S passes) msg idx s = (Ok tt, after_bad_crc msg s)) /\
  (forall (intf : OppRs232Intf) (msg : list byte) (s : platform) (k : byte),
     msg !! 6%nat = Some k ->
     ord k <> ord (crc8 intf (take 6 msg)) ->
     get_gen2_cfg_resp intf msg s
     = (Ok tt, set_read_input_msg [EOM_CMD intf]
                 (after_bad_crc msg (set_log (log s ++ [DebugCfgResp]) s))) /\
     vers_resp intf msg s
     = (Ok tt, after_bad_crc msg (set_log (log s ++ [DebugVersResp]) s))).
Proof.
  split; [|split; [|split]].
  - intros intf s a1 p2 p3 p4 p5 k1 a2 b2 b3 b4 b5 i c
           Hid Htab Ha1 Ha2 Hbad Hp Hq Hdict Hcard f1 f2 new.
    pose proof (split_two_frames intf a1 p2 p3 p4 p5 k1 a2 b2 b3 b4 b5
                  (crc8 intf [a2; READ_GEN2_INP_CMD intf; b2; b3; b4; b5]) Ha1 Ha2) as Hsplit.
    pose proof (process_inp_frame intf a1 [p2; p3; p4; p5; k1] Hid Htab Ha1) as Hproc1.
    pose proof (process_inp_frame intf a2
                  [b2; b3; b4; b5; crc8 intf [a2; READ_GEN2_INP_CMD intf; b2; b3; b4; b5]]
                  Hid Htab Ha2) as Hproc2.
    fold f1 in Hsplit, Hproc1. fold f2 in Hsplit, Hproc2.
    split; [exact Hsplit|]. split; [exact Hproc1|]. split; [exact Hproc2|].
    destruct s as [oi idt os sd inp ipd iad rim onp ncd ngb gaa cid bc ofv mv hsc rq pm se lg].
    simpl in Hp, Hq, Hdict, Hcard. subst rq pm.
    unfold receive, process_receive_queue, bind, modify, gets. simpl.
    change (a1 :: READ_GEN2_INP_CMD intf :: p2 :: p3 :: p4 :: p5 :: k1 :: f2) with (f1 ++ f2).
    rewrite Hsplit. simpl. unfold bind, modify. simpl.
    rewrite Hproc1. unfold f1. rewrite (inp_resp_bad_crc intf _ _ _ _ _ _ _ _ Hbad).
    simpl. rewrite Hproc2. unfold f2.
    rewrite (inp_resp_valid intf _ a2 _ b2 b3 b4 b5 i c); [|exact Hdict | exact Hcard].
    eexists. split; [reflexivity|]. simpl. repeat split; reflexivity.
  - intros intf msg s. split.
    + apply (cfg_resp_counts_once intf msg s).
    + apply (vers_resp_counts_once intf msg s).
  - intros intf passes msg idx w s k Hk Hne. split.
    + now apply (cfg_loop_bad_crc intf passes msg idx w s k).
    + now apply (vers_loop_bad_crc intf passes msg idx s k).
  - intros intf msg s k Hk Hne.
    pose proof (lookup_lt_Some _ _ _ Hk) as Hlen.
    destruct (length msg) as [|n] eqn:En; [lia|].
    split.
    + unfold get_gen2_cfg_resp. rewrite En. unfold bind at 1. unfold log_msg at 1.
      unfold modify at 1. unfold bind at 1.
      rewrite (cfg_loop_bad_crc intf n msg 0%nat [] _ k Hk Hne). reflexivity.
    + unfold vers_resp. rewrite En. unfold bind at 1. unfold log_msg at 1.
      unfold modify at 1.
      rewrite (vers_loop_bad_crc intf n msg 0%nat _ k Hk Hne). reflexivity.
Qed.

(** Two input-state responses of the card at [0x20], the first with a
    wrong CRC byte. *)
Lemma C6_witness :
  let c := {| addr := 32; oldState := 0; mask := 255; cardNum := "0" |} in
  let f1 := [Byte.x20; READ_GEN2_INP_CMD sample_intf; Byte.x00; Byte.x00; Byte.x00;
             Byte.x01; Byte.x00] in
  let f2 := [Byte.x20; READ_GEN2_INP_CMD sample_intf; Byte.x00; Byte.x00; Byte.x00;
             Byte.x01;
             crc8 sample_intf
               [Byte.x20; READ_GEN2_INP_CMD sample_intf; Byte.x00; Byte.x00; Byte.x00;
                Byte.x01]] in
  let new := state_of Byte.x00 Byte.x00 Byte.x00 Byte.x01 in
  split_frames sample_intf (f1 ++ f2) = ([f1; f2], []) /\
  process_received_message sample_intf f1 = read_gen2_inp_resp sample_intf f1 /\
  process_received_message sample_intf f2 = read_gen2_inp_resp sample_intf f2 /\
  exists s',
    (receive sample_intf (f1 ++ f2) ;; process_receive_queue sample_intf)%py
      (one_card true) = (Ok tt, s') /\
    badCRC s' = badCRC (one_card true) + 1 /\
    log s' = log (one_card true) ++ [WarnBadCRC f1] /\
    switch_events s' =
      switch_events (one_card true) ++
      (if has_switch_controller (one_card true)
       then expected_events (cardNum c) (oldState c) new
       else []) /\
    opp_inputs s' = alter (set_oldState new) 0%nat (opp_inputs (one_card true)) /\
    partMsg s' = [] /\
    receive_queue s' = [].
Proof.
  apply (proj1 C6_bad_crc_then_valid_input_response sample_intf (one_card true)
           Byte.x20 Byte.x00 Byte.x00 Byte.x00 Byte.x01 Byte.x00
           Byte.x20 Byte.x00 Byte.x00 Byte.x00 Byte.x01 0%nat
           {| addr := 32; oldState := 0; mask := 255; cardNum := "0" |}).
  - reflexivity.
  - vm_compute. reflexivity.
  - vm_compute. reflexivity.
  - vm_compute. reflexivity.
  - vm_compute. intros H. discriminate H.
  - vm_compute. reflexivity.
  - vm_compute. reflexivity.
  - vm_compute. reflexivity.
  - vm_compute. reflexivity.
Defined.

(** C6 as stated fails in two ways.  In a configuration response, a
    sub-frame with a wrong CRC byte followed by a valid sub-frame for the
    card at [0x21] counts the bad CRC once and ends the loop over the
    sub-frames, so the valid sub-frame is never processed: no card is
    registered and the poll message stays empty, while the valid sub-frame
    on its own registers the card.  And an input-state response whose
    command byte is damaged, with a CRC byte that does not match, is thrown
    away by the receive loop when it looks for the next card address: it
    never reaches a handler and is not counted, while the valid response
    after it is processed. *)
Lemma C6_counterexample :
  let stream := bad_cfg_frame Byte.x20 ++ cfg_frame Byte.x21 ++ [Byte.xff] in
  let out := process_received_message sample_intf stream (new_platform true) in
  let alone := process_received_message sample_intf (cfg_frame Byte.x21 ++ [Byte.xff])
                 (new_platform true) in
  let damaged := [Byte.x20; Byte.x09; Byte.x00; Byte.x00; Byte.x00; Byte.x01; Byte.x00] in
  let valid := inp_frame Byte.x20 Byte.x00 Byte.x00 Byte.x00 Byte.x01 in
  let heard := (receive sample_intf (damaged ++ valid) ;;
                process_receive_queue sample_intf)%py (one_card true) in
  (out.1 = Ok tt /\
   badCRC out.2 = 1 /\
   opp_inputs out.2 = [] /\
   read_input_msg out.2 = [Byte.xff] /\
   map addr (opp_inputs alone.2) = [33] /\
   badCRC alone.2 = 0) /\
  (ord Byte.x00
     <> ord (sample_crc8 [Byte.x20; Byte.x09; Byte.x00; Byte.x00; Byte.x00; Byte.x01]) /\
   (split_frames sample_intf (damaged ++ valid)).1 = [valid] /\
   heard.1 = Ok tt /\
   badCRC heard.2 = 0 /\
   switch_events heard.2 = [("0-0", 0)]).
Proof.
  vm_compute. repeat split; try reflexivity. intros H. discriminate H.
Qed.

End OppSpec.

(* ===================================================================== *)
(** * Further properties of the show engine *)
(* ===================================================================== *)

Module ShowExtra.
Import Py ShowModel Samples ShowSpec.
Local Open Scope py_scope.

(** ** Tokens found in show data *)

(** Every character of [s] satisfies [p]. *)
Fixpoint all_chars (p : ascii -> bool) (s : string) : bool :=
  match s with
  | EmptyString => true
  | String c rest => p c && all_chars p rest
  end.

Definition closes_token (c : ascii) : bool := Ascii.eqb c rparen || Ascii.eqb c newline.

Lemma take_until_close_token (t post : string) :
  all_chars (fun c => negb (closes_token c)) t = true ->
  take_until_close (String.append t (String rparen post)) = Some t.
Proof.
  induction t as [|c t IH]; simpl; intros H.
  - reflexivity.
  - apply andb_prop in H. destruct H as [Hc Ht]. unfold closes_token in Hc.
    apply negb_true_iff, orb_false_iff in Hc. destruct Hc as [-> ->].
    now rewrite IH.
Qed.

Lemma find_token_skip (pre rest : string) :
  all_chars (fun c => negb (Ascii.eqb c lparen)) pre = true ->
  find_token (String.append pre rest) = find_token rest.
Proof.
  induction pre as [|c pre IH]; simpl; intros H; [reflexivity|].
  apply andb_prop in H. destruct H as [Hc Hp].
  apply negb_true_iff in Hc. rewrite Hc. now apply IH.
Qed.

(** X2. A string whose first opening parenthesis is followed by [t] and a
    closing parenthesis, [t] free of closing parentheses and line breaks, is
    indexed under the token [t]: what ['({})'.format(t)] writes, the token
    finder reads back. *)
Theorem X2_token_in_parentheses_is_found (pre t post : string) (p : path)
    (ty : token_type) :
  all_chars (fun c => negb (Ascii.eqb c lparen)) pre = true ->
  all_chars (fun c => negb (closes_token c)) t = true ->
  _check_token p (VScalar (SStr (String.append pre (String.append (paren t) post)))) ty
  = _add_token t p ty.
Proof.
  intros Hpre Ht. unfold _check_token.
  rewrite (find_token_skip pre _ Hpre). unfold paren. simpl.
  replace (String.append (String.append t (String rparen "")) post)
    with (String.append t (String rparen post)).
  - now rewrite (take_until_close_token t post Ht).
  - clear. induction t as [|c t IH]; [reflexivity|]. change (String c (String.append t (String rparen post))
          = String c (String.append (String.append t (String rparen "")) post)).
    now f_equal.
Qed.

Lemma X2_witness :
  _check_token [SInt 0] (VScalar (SStr "led_(tok)_left")) TKey
  = _add_token "tok" [SInt 0] TKey.
Proof.
  apply (X2_token_in_parentheses_is_found "led_" "tok" "_left" [SInt 0] TKey);
    reflexivity.
Defined.

(** ** The token index *)

(** Every token that has a recorded path is a declared token. *)
Definition index_closed (x : list string * list (string * list path)
                             * list (string * list path)) : Prop :=
  forall t, t ∈ map fst (snd x) \/ t ∈ map fst (snd (fst x)) -> t ∈ fst (fst x).

Definition token_index (s : machine) :=
  (tokens s, token_values s, token_keys s).

Lemma add_path_keys (d : list (string * list path)) token p t :
  t ∈ map fst (add_path d token p) -> t = token \/ t ∈ map fst d.
Proof.
  induction d as [|[t' ps] rest IH]; simpl.
  - intros H. apply list_elem_of_singleton in H. now left.
  - destruct (String.eqb t' token) eqn:E; simpl; intros H.
    + now right.
    + apply elem_of_cons in H. destruct H as [->|H].
      * right. apply elem_of_cons. now left.
      * destruct (IH H) as [->|H']; [now left|]. right. apply elem_of_cons. now right.
Qed.

Lemma add_token_closed token p ty s :
  index_closed (token_index s) ->
  index_closed (token_index (_add_token token p ty s).2).
Proof.
  intros H.
  assert (Hdecl : forall s1 : machine,
             s1 = (if existsb (String.eqb token) (tokens s) then s
                   else set_tokens (tokens s ++ [token]) s) ->
             token ∈ tokens s1 /\ (forall t, t ∈ tokens s -> t ∈ tokens s1)
             /\ token_values s1 = token_values s /\ token_keys s1 = token_keys s).
  { intros s1 ->. destruct (existsb _ _) eqn:E.
    - apply existsb_exists in E. destruct E as [x [Hin Hx]].
      apply String.eqb_eq in Hx. subst x. repeat split; auto.
      now apply list_elem_of_In.
    - destruct s; simpl. repeat split; auto.
      + apply elem_of_app. right. now apply list_elem_of_singleton.
      + intros t Ht. apply elem_of_app. now left. }
  unfold _add_token, bind, modify. simpl.
  specialize (Hdecl _ eq_refl). destruct Hdecl as (Htok & Hmono & Hv & Hk).
  set (s1 := if existsb (String.eqb token) (tokens s) then s
             else set_tokens (tokens s ++ [token]) s) in *.
  destruct ty; simpl; unfold index_closed, token_index in *; simpl in *.
  - destruct s1; simpl in *. intros t [Ht|Ht].
    + apply add_path_keys in Ht. destruct Ht as [->|Ht]; [exact Htok|].
      apply Hmono, H. left. now rewrite <- Hk.
    + apply Hmono, H. right. now rewrite <- Hv.
  - destruct s1; simpl in *. intros t [Ht|Ht].
    + apply Hmono, H. left. now rewrite <- Hk.
    + apply add_path_keys in Ht. destruct Ht as [->|Ht]; [exact Htok|].
      apply Hmono, H. right. now rewrite <- Hv.
Qed.

Definition closed (s : machine) : Prop := index_closed (token_index s).

Lemma t_check_token p data ty :
  triple closed (_check_token p data ty) (fun _ => closed) closed.
Proof.
  intros s Hs. unfold _check_token.
  destruct data as [[| | | |str]|l]; simpl; auto.
  destruct (find_token str) as [token|]; simpl; auto.
  pose proof (add_token_closed token p ty s Hs) as H.
  destruct (_add_token token p ty s) as [[u|e] s1] eqn:E; simpl in *; auto.
Qed.

Lemma t_walk_show depth data p li :
  triple closed (_walk_show depth data p li) (fun _ => closed) closed.
Proof.
  revert data p li. induction depth as [|depth IH]; intros data p li; simpl.
  - now apply t_raise.
  - destruct data as [c|l]; [apply t_check_token|].
    apply (t_bind _ _ _ (fun _ => closed)); [apply t_read, ro_deref|].
    intros [items|kvs].
    + apply (t_bind _ _ _ (fun _ => closed)); [|intros o; now apply t_ret].
      apply (t_fold_each (fun _ => closed)). intros b x.
      apply (t_bind _ _ _ (fun _ => closed)); [apply t_check_token|]. intros u.
      apply (t_bind _ _ _ (fun _ => closed)); [apply IH|]. intros u1. now apply t_ret.
    + apply t_for_each. intros kv.
      apply (t_bind _ _ _ (fun _ => closed));
        [apply (t_check_token p (VScalar (fst kv)) TKey)|]. intros u. apply IH.
Qed.

Lemma t_closed_keeps {A} (m : Mm A) :
  keeps token_index m -> triple closed m (fun _ => closed) closed.
Proof. intros H. apply (t_keeps token_index index_closed m H). Qed.

Lemma do_load_show_closed env data :
  triple closed (do_load_show env data) (fun _ => closed) closed.
Proof.
  unfold do_load_show.
  apply (t_bind _ _ _ (fun _ => closed)).
  { apply t_closed_keeps, keeps_reset_show_steps; now intros []. }
  intros u. apply (t_bind _ _ _ (fun _ => closed)); [apply t_read, ro_gets|]. intros f.
  apply (t_bind _ _ _ (fun _ => closed)).
  { destruct f as [name|]; [|now apply t_ret].
    destruct (_ && _); [|now apply t_ret].
    unfold load_show_from_disk. destruct (_ =? _); [now apply t_ret | now apply t_raise]. }
  intros d. apply (t_bind _ _ _ (fun _ => closed)).
  { destruct d; [now apply t_raise | now apply t_ret | now apply t_ret]. }
  intros steps. apply (t_bind _ _ _ (fun _ => closed)).
  { apply t_closed_keeps, keeps_load_steps; now intros []. }
  intros [t|]; [|now apply t_ret].
  apply (t_bind _ _ _ (fun _ => closed)); [apply t_read, ro_gets|]. intros ss.
  apply (t_bind _ _ _ (fun _ => closed)); [apply t_read, ro_len|]. intros n.
  apply (t_bind _ _ _ (fun _ => closed)).
  { apply t_closed_keeps, keeps_modify. now intros []. }
  intros u1. apply (t_bind _ _ _ (fun _ => closed)); [|intros u2; now apply t_ret].
  unfold _get_tokens.
  apply (t_bind _ _ _ (fun _ => closed)); [apply t_read, ro_gets|]. intros v.
  apply t_walk_show.
Qed.

(** X3. Loading keeps the token index closed: whatever the data and however
    the load ends, every token that has a recorded key or value path is
    among the declared tokens. *)
Theorem X3_indexed_tokens_are_declared (env : collaborators) (data : pyval)
    (s : machine) :
  closed s -> closed (do_load_show env data s).2.
Proof.
  intros Hs. pose proof (do_load_show_closed env data s Hs) as H.
  destruct (do_load_show env data s) as [[a|e] s1]; exact H.
Qed.

Lemma X3_witness :
  closed s0 /\ closed (do_load_show env0 two_step_data s0).2.
Proof.
  assert (H : closed s0).
  { intros t [Ht|Ht]; simpl in Ht; now apply elem_of_nil in Ht. }
  split; [exact H | apply (X3_indexed_tokens_are_declared env0 two_step_data s0 H)].
Defined.

(** ** The copy handed to a running show *)

Fixpoint keys_distinct (ks : list scalar) : bool :=
  match ks with
  | [] => true
  | k :: rest => negb (existsb (py_eqb k) rest) && keys_distinct rest
  end.

(** Show data without the string that [get_show_steps] takes for its
    default argument, and whose dicts hold every key once. *)
Fixpoint plain (t : pyval) : bool :=
  match t with
  | PScalar (SStr str) => negb (String.eqb str sentinel)
  | PScalar _ => true
  | PList l => forallb plain l
  | PDict kvs => keys_distinct (map fst kvs) && forallb (fun kv => plain (snd kv)) kvs
  end.

Definition reify_items (n : nat) (h : list obj) (items : list value) : option (list pyval) :=
  foldr (fun x acc => match reify n h x, acc with
                      | Some t, Some ts => Some (t :: ts)
                      | _, _ => None
                      end) (Some []) items.

Definition reify_kvs (n : nat) (h : list obj) (kvs : list (scalar * value))
  : option (list (scalar * pyval)) :=
  foldr (fun kv acc => match reify n h (snd kv), acc with
                       | Some t, Some ts => Some ((fst kv, t) :: ts)
                       | _, _ => None
                       end) (Some []) kvs.

Lemma reify_ref n h l :
  reify (S n) h (VRef l) =
  match h !! l with
  | Some (OList items) => option_map PList (reify_items n h items)
  | Some (ODict kvs) => option_map PDict (reify_kvs n h kvs)
  | None => None
  end.
Proof. reflexivity. Qed.

Lemma reify_items_spec n h items ts :
  reify_items n h items = Some ts <->
  Forall2 (fun x t => reify n h x = Some t) items ts.
Proof.
  revert ts. induction items as [|x rest IH]; intros ts; simpl.
  - split; [intros [= <-]; constructor | intros H; now inversion H].
  - destruct (reify n h x) as [t|] eqn:Ex.
    + destruct (reify_items n h rest) as [r|] eqn:Er.
      * split.
        -- intros [= <-]. constructor; [exact Ex | now apply IH].
        -- intros H. inversion H; subst. apply IH in H4. congruence.
      * split; [discriminate|]. intros H. inversion H; subst.
        apply IH in H4. discriminate.
    + split; [discriminate|]. intros H. inversion H; subst. congruence.
Qed.

Definition same_entry (n : nat) (h : list obj) (kv : scalar * value)
    (kt : scalar * pyval) : Prop :=
  fst kt = fst kv /\ reify n h (snd kv) = Some (snd kt).

Lemma reify_kvs_spec n h kvs kts :
  reify_kvs n h kvs = Some kts <-> Forall2 (same_entry n h) kvs kts.
Proof.
  revert kts. induction kvs as [|x rest IH]; intros kts; simpl.
  - split; [intros [= <-]; constructor | intros H; now inversion H].
  - destruct (reify n h (snd x)) as [t|] eqn:Ex.
    + destruct (reify_kvs n h rest) as [r|] eqn:Er.
      * split.
        -- intros [= <-]. constructor; [now split | now apply IH].
        -- intros H. inversion H as [|? y ? ? [Hk Hv] Hr]; subst.
           apply IH in Hr. destruct y as [k t']; simpl in *. congruence.
      * split; [discriminate|]. intros H. inversion H as [|? y ? ? [Hk Hv] Hr]; subst.
        apply IH in Hr. discriminate.
    + split; [discriminate|]. intros H. inversion H as [|? y ? ? [Hk Hv] Hr]; subst.
      congruence.
Qed.

Lemma heap_set_heap x s : heap (set_heap x s) = x.
Proof. now destruct s. Qed.

Lemma set_heap_twice x y s : set_heap x (set_heap y s) = set_heap x s.
Proof. now destruct s. Qed.

Lemma set_heap_same x s : heap s = x -> set_heap x s = s.
Proof. intros <-. now destruct s. Qed.

Lemma show_steps_set_heap x s : show_steps (set_heap x s) = show_steps s.
Proof. now destruct s. Qed.

Lemma insert_middle (h : list obj) o o' r :
  <[length h := o']> (h ++ o :: r) = h ++ o' :: r.
Proof.
  rewrite insert_app_r_alt by lia. now rewrite Nat.sub_diag.
Qed.

Lemma lookup_middle (h : list obj) o r : (h ++ o :: r) !! length h = Some o.
Proof. now rewrite list_lookup_middle. Qed.

Lemma prefix_frame (h r : list obj) (l : loc) o :
  h !! l = Some o -> (h ++ r) !! l = Some o.
Proof. intros H. now apply lookup_app_l_Some. Qed.

Lemma dict_set_new {V} (cur : list (scalar * V)) k v :
  existsb (fun kv => py_eqb (fst kv) k) cur = false ->
  dict_set cur k v = cur ++ [(k, v)].
Proof.
  induction cur as [|[k' v'] rest IH]; simpl; [reflexivity|].
  intros H. apply orb_false_iff in H. destruct H as [-> H]. now rewrite IH.
Qed.

Lemma keys_distinct_step (a : list scalar) k b :
  keys_distinct (a ++ k :: b) = true ->
  existsb (fun k' => py_eqb k' k) a = false /\ keys_distinct ((a ++ [k]) ++ b) = true.
Proof.
  rewrite <- app_assoc. simpl. intros H. split; [|exact H].
  induction a as [|x a IH]; simpl in *; [reflexivity|].
  apply andb_prop in H. destruct H as [Hx Ha].
  apply negb_true_iff in Hx. rewrite existsb_app in Hx. simpl in Hx.
  apply orb_false_iff in Hx. destruct Hx as [_ Hx].
  apply orb_false_iff in Hx. destruct Hx as [Hx _]. rewrite Hx. simpl. now apply IH.
Qed.

(** A copy made at depth [n]: the value returned, the objects it added to
    the store, and the fact that the copy reads as [t] whatever the older
    part of the store holds. *)
Definition copies (n depth : nat) : Prop :=
  forall s v t,
    reify n (heap s) v = Some t -> plain t = true ->
    exists v' ext,
      get_show_steps depth v s = (Ok v', set_heap (heap s ++ ext) s) /\
      forall h1, length h1 = length (heap s) -> reify n (h1 ++ ext) v' = Some t.

Lemma copy_scalar n depth c s :
  plain (PScalar c) = true ->
  exists v' ext,
    get_show_steps (S depth) (VScalar c) s = (Ok v', set_heap (heap s ++ ext) s) /\
    forall h1, length h1 = length (heap s) ->
               reify n (h1 ++ ext) v' = Some (PScalar c).
Proof.
  intros Hp. exists (VScalar c), []. split.
  - rewrite app_nil_r, (set_heap_same _ s eq_refl).
    destruct c as [| | | |str]; try reflexivity.
    simpl in Hp. apply negb_true_iff in Hp. simpl. unfold bind. now rewrite Hp.
  - intros h1 _. now destruct n.
Qed.

Lemma for_each_cons_ok {S A} (x : A) (xs : list A) (body : A -> M S unit) (s s' : S) :
  body x s = (Ok tt, s') -> for_each (x :: xs) body s = for_each xs body s'.
Proof. intros H. simpl. unfold bind. now rewrite H. Qed.

Section CopyLoops.
Variables (n depth : nat).
Hypothesis IH : copies n depth.
Variable h : list obj.

Lemma copy_list_loop (xs : list value) (ts : list pyval) :
  Forall2 (fun x t => reify n h x = Some t) xs ts ->
  forallb plain ts = true ->
  forall s1 cur E done,
    heap s1 = h ++ OList cur :: E ->
    (forall h1, length h1 = S (length h) ->
                Forall2 (fun c t => reify n (h1 ++ E) c = Some t) cur done) ->
    exists cur' E',
      for_each xs (fun i => c <- get_show_steps depth i ;;
                            py_append (VRef (length h)) c) s1
      = (Ok tt, set_heap (h ++ OList cur' :: E') s1) /\
      (forall h1, length h1 = S (length h) ->
                  Forall2 (fun c t => reify n (h1 ++ E') c = Some t) cur' (done ++ ts)).
Proof.
  induction 1 as [|x t xs ts Hx Hxs IHl]; intros Hp s1 cur E done Hheap Hinv.
  - exists cur, E. split.
    + simpl. now rewrite (set_heap_same _ s1 Hheap).
    + intros h1 Hl. rewrite app_nil_r. now apply Hinv.
  - simpl in Hp. apply andb_prop in Hp. destruct Hp as [Hpt Hpts].
    assert (Hx1 : reify n (heap s1) x = Some t).
    { rewrite Hheap. apply (reify_frame h); [|exact Hx].
      intros l o. apply prefix_frame. }
    destruct (IH s1 x t Hx1 Hpt) as (c & ext & Hcopy & Hself).
    set (s2 := set_heap (h ++ OList (cur ++ [c]) :: (E ++ ext)) s1).
    destruct (IHl Hpts s2 (cur ++ [c]) (E ++ ext) (done ++ [t])) as (cur' & E' & Hloop & Hfin).
    { unfold s2. now rewrite heap_set_heap. }
    { intros h1 Hl. apply Forall2_app.
      - eapply Forall2_impl; [apply (Hinv h1 Hl)|]. intros c0 t0 Hc0. simpl in Hc0.
        rewrite app_assoc. apply (reify_frame (h1 ++ E)); [|exact Hc0].
        intros l o. apply prefix_frame.
      - constructor; [|constructor]. rewrite app_assoc. apply Hself.
        rewrite Hheap. rewrite !length_app. simpl. rewrite Hl. lia. }
    exists cur', E'. split.
    + rewrite (for_each_cons_ok _ _ _ s1 s2).
      * rewrite Hloop. unfold s2. now rewrite set_heap_twice.
      * unfold bind at 1. rewrite Hcopy.
        unfold py_append, bind, deref. rewrite heap_set_heap, Hheap.
        rewrite <- app_assoc. simpl. rewrite lookup_middle.
        unfold store, modify. now rewrite heap_set_heap, insert_middle, set_heap_twice.
    + intros h1 Hl. specialize (Hfin h1 Hl). rewrite <- app_assoc in Hfin. exact Hfin.
Qed.

Lemma copy_dict_loop (xs : list (scalar * value)) (ts : list (scalar * pyval)) :
  Forall2 (same_entry n h) xs ts ->
  forallb (fun kt => plain (snd kt)) ts = true ->
  forall s1 cur E done,
    heap s1 = h ++ ODict cur :: E ->
    keys_distinct (map fst cur ++ map fst xs) = true ->
    (forall h1, length h1 = S (length h) -> Forall2 (same_entry n (h1 ++ E)) cur done) ->
    exists cur' E',
      for_each xs (fun kv => c <- get_show_steps depth (snd kv) ;;
                             py_setitem (VRef (length h)) (fst kv) c) s1
      = (Ok tt, set_heap (h ++ ODict cur' :: E') s1) /\
      (forall h1, length h1 = S (length h) ->
                  Forall2 (same_entry n (h1 ++ E')) cur' (done ++ ts)).
Proof.
  induction 1 as [|x t xs ts Hx Hxs IHl]; intros Hp s1 cur E done Hheap Hkeys Hinv.
  - exists cur, E. split.
    + simpl. now rewrite (set_heap_same _ s1 Hheap).
    + intros h1 Hl. rewrite app_nil_r. now apply Hinv.
  - simpl in Hp. apply andb_prop in Hp. destruct Hp as [Hpt Hpts].
    destruct Hx as [Hk Hx].
    assert (Hx1 : reify n (heap s1) (snd x) = Some (snd t)).
    { rewrite Hheap. apply (reify_frame h); [|exact Hx].
      intros l o. apply prefix_frame. }
    destruct (IH s1 (snd x) (snd t) Hx1 Hpt) as (c & ext & Hcopy & Hself).
    simpl in Hkeys. apply keys_distinct_step in Hkeys. destruct Hkeys as [Hnew Hkeys].
    set (s2 := set_heap (h ++ ODict (cur ++ [(fst x, c)]) :: (E ++ ext)) s1).
    destruct (IHl Hpts s2 (cur ++ [(fst x, c)]) (E ++ ext) (done ++ [t]))
      as (cur' & E' & Hloop & Hfin).
    { unfold s2. now rewrite heap_set_heap. }
    { rewrite map_app. exact Hkeys. }
    { intros h1 Hl. apply Forall2_app.
      - eapply Forall2_impl; [apply (Hinv h1 Hl)|]. intros c0 t0 [Hk0 Hc0].
        split; [exact Hk0|].
        rewrite app_assoc. apply (reify_frame (h1 ++ E)); [|exact Hc0].
        intros l o. apply prefix_frame.
      - constructor; [|constructor]. split; [exact Hk|]. simpl.
        rewrite app_assoc. apply Hself.
        rewrite Hheap. rewrite !length_app. simpl. rewrite Hl. lia. }
    exists cur', E'. split.
    + rewrite (for_each_cons_ok _ _ _ s1 s2).
      * rewrite Hloop. unfold s2. now rewrite set_heap_twice.
      * unfold bind at 1. rewrite Hcopy.
        unfold py_setitem, bind, deref. rewrite heap_set_heap, Hheap.
        rewrite <- app_assoc. simpl. rewrite lookup_middle.
        unfold store, modify. rewrite heap_set_heap, insert_middle, set_heap_twice.
        rewrite dict_set_new; [reflexivity|].
        rewrite <- Hnew. clear. induction cur as [|[k v] cur IHc]; simpl; [reflexivity|].
        now rewrite IHc.
    + intros h1 Hl. specialize (Hfin h1 Hl). rewrite <- app_assoc in Hfin. exact Hfin.
Qed.

End CopyLoops.

Lemma copy_ok n : forall depth, (n < depth)%nat -> copies n depth.
Proof.
  induction n as [|n IHn]; intros depth Hd s v t Hr Hp.
  - destruct depth as [|depth]; [lia|].
    destruct v as [c|l]; [|discriminate]. injection Hr as <-.
    now apply copy_scalar.
  - destruct depth as [|depth]; [lia|].
    destruct v as [c|l].
    { injection Hr as <-. now apply copy_scalar. }
    rewrite reify_ref in Hr.
    destruct (heap s !! l) as [[items|kvs]|] eqn:El; [| |discriminate].
    + destruct (reify_items n (heap s) items) as [ts|] eqn:Ei; [|discriminate].
      injection Hr as <-. simpl in Hp. apply reify_items_spec in Ei.
      set (s1 := set_heap (heap s ++ [OList []]) s).
      destruct (copy_list_loop n depth (IHn depth ltac:(lia)) (heap s) items ts Ei Hp
                  s1 [] [] [])
        as (cur' & E' & Hloop & Hfin).
      { unfold s1. now rewrite heap_set_heap. }
      { intros h1 _. constructor. }
      exists (VRef (length (heap s))), (OList cur' :: E'). split.
      * assert (Hrun : get_show_steps (S depth) (VRef l) s =
                       (for_each items (fun i => c <- get_show_steps depth i ;;
                                                 py_append (VRef (length (heap s))) c) ;;
                        ret (VRef (length (heap s)))) s1).
        { simpl. unfold bind at 1. unfold ret at 1. unfold bind at 1.
          unfold deref. rewrite El. reflexivity. }
        rewrite Hrun. unfold bind at 1. rewrite Hloop. unfold s1. now rewrite set_heap_twice.
      * intros h1 Hl. rewrite reify_ref. rewrite <- Hl, lookup_middle.
        specialize (Hfin (h1 ++ [OList cur']) ltac:(rewrite length_app; simpl; lia)).
        rewrite <- app_assoc in Hfin. simpl in Hfin.
        apply reify_items_spec in Hfin. now rewrite Hfin.
    + destruct (reify_kvs n (heap s) kvs) as [ts|] eqn:Ei; [|discriminate].
      injection Hr as <-. simpl in Hp. apply andb_prop in Hp. destruct Hp as [Hkeys Hp].
      apply reify_kvs_spec in Ei.
      assert (Hfst : map fst ts = map fst kvs).
      { clear - Ei. induction Ei as [|x y xs ys [Hk _] _ IHf]; simpl; [reflexivity|].
        now rewrite Hk, IHf. }
      set (s1 := set_heap (heap s ++ [ODict []]) s).
      destruct (copy_dict_loop n depth (IHn depth ltac:(lia)) (heap s) kvs ts Ei Hp
                  s1 [] [] [])
        as (cur' & E' & Hloop & Hfin).
      { unfold s1. now rewrite heap_set_heap. }
      { simpl. now rewrite <- Hfst. }
      { intros h1 _. constructor. }
      exists (VRef (length (heap s))), (ODict cur' :: E'). split.
      * assert (Hrun : get_show_steps (S depth) (VRef l) s =
                       (for_each kvs (fun kv => c <- get_show_steps depth (snd kv) ;;
                                                py_setitem (VRef (length (heap s))) (fst kv) c) ;;
                        ret (VRef (length (heap s)))) s1).
        { simpl. unfold bind at 1. unfold ret at 1. unfold bind at 1.
          unfold deref. rewrite El. reflexivity. }
        rewrite Hrun. unfold bind at 1. rewrite Hloop. unfold s1. now rewrite set_heap_twice.
      * intros h1 Hl. rewrite reify_ref. rewrite <- Hl, lookup_middle.
        specialize (Hfin (h1 ++ [ODict cur']) ltac:(rewrite length_app; simpl; lia)).
        rewrite <- app_assoc in Hfin. simpl in Hfin.
        apply reify_kvs_spec in Hfin. now rewrite Hfin.
Qed.

Lemma default_argument_is_show_steps depth s n t :
  reify n (heap s) (show_steps s) = Some t -> plain t = true ->
  get_show_steps (S depth) (VScalar (SStr sentinel)) s
  = get_show_steps (S depth) (show_steps s) s.
Proof.
  intros Hr Hp. simpl. unfold bind at 1. unfold bind at 2. unfold gets.
  destruct (show_steps s) as [[| | | |str]|l]; try reflexivity.
  assert (Ht : t = PScalar (SStr str)) by (destruct n; simpl in Hr; congruence).
  subst t. simpl in Hp. apply negb_true_iff in Hp. now rewrite Hp.
Qed.

(** X4. The copy of the show's steps made for a running show reads as the
    same tree as the template, the template's objects stay as they were,
    and the copy shares no object with the older part of the store:
    whatever is written there later, the copy still reads the same. *)
Theorem X4_copy_reads_as_the_template (n depth : nat) (s : machine) (t : pyval) :
  (n < depth)%nat ->
  reify n (heap s) (show_steps s) = Some t ->
  plain t = true ->
  exists v' ext,
    get_show_steps depth (VScalar (SStr sentinel)) s
    = (Ok v', set_heap (heap s ++ ext) s) /\
    forall h1, length h1 = length (heap s) -> reify n (h1 ++ ext) v' = Some t.
Proof.
  intros Hd Hr Hp. destruct depth as [|depth]; [lia|].
  rewrite (default_argument_is_show_steps depth s n t Hr Hp).
  now apply (copy_ok n (S depth) Hd s (show_steps s) t).
Qed.

Definition two_step_tree : pyval :=
  PList [PDict [(SStr "time", PScalar (SFloat 0));
                (SStr "leds", PDict [(SStr "(tok)", PDict [])])];
         PDict [(SStr "time", PScalar (SFloat 1))]].

Lemma X4_witness :
  exists v' ext,
    get_show_steps 1000 (VScalar (SStr sentinel)) two_step_show
    = (Ok v', set_heap (heap two_step_show ++ ext) two_step_show) /\
    forall h1, length h1 = length (heap two_step_show) ->
               reify 4 (h1 ++ ext) v' = Some two_step_tree.
Proof.
  apply (X4_copy_reads_as_the_template 4 1000 two_step_show two_step_tree);
    [lia | reflexivity | reflexivity].
Defined.

Lemma alter_last {A} (f : A -> A) (l : list A) (x : A) :
  alter f (length l) (l ++ [x]) = l ++ [f x].
Proof.
  rewrite alter_app_r_alt by lia. now rewrite Nat.sub_diag.
Qed.

Lemma lookup_last {A} (l : list A) (x : A) : (l ++ [x]) !! length l = Some x.
Proof. now rewrite list_lookup_middle. Qed.

(** X5. A show played with a [sync_ms] that is not zero and no token
    bindings runs no step at play time: the instance joins the running set,
    the only call made is the start notification, and one timer is set for
    the instance.  Its delay is the period less the clock time modulo the
    period, and the time of the next step is the clock time plus that delay,
    all three computed in floats from the period [sync_ms / 1000.0]. *)
Theorem X5_synchronised_start (env : collaborators) (l : loc) (items : list value)
    (prio : Z) (hold : option bool) (speed : Q) (start : Z) (cb : option nat)
    (loops sync : Z) (reset : bool) (md : option nat) (manual : bool)
    (key : option string) (s : machine) (ms : Q) :
  heap s !! l = Some (OList items) ->
  sync <> 0 ->
  float_of_int sync = Ok ms ->
  let self := length (instances s) in
  let period := float_div ms 1000 in
  let delay := float_sub period (py_fmod (clock_time s) period) in
  exists s',
    RunningShow_init env (VRef l) prio hold speed start cb loops sync reset md
      manual key [] s = (Ok self, s') /\
    clock_events s' = clock_events s ++ [(self, delay)] /\
    trace s' = trace s ++ [NotifyShowStarting self] /\
    self ∈ running s' /\
    exists r, instances s' !! self = Some r /\
              RS.next_step_time r = float_add (clock_time s) delay /\
              RS._stopped r = false.
Proof.
  intros Hl Hsync Hms self period delay.
  destruct s as [hp fl ld ss ts tk tv tks rn au lr ins ct ce tr].
  cbn [heap instances clock_events trace clock_time] in *.
  assert (E : (sync =? 0) = false) by (apply Z.eqb_neq; lia).
  destruct hold as [hd|]; destruct (existsb (Nat.eqb (length ins)) rn) eqn:Er.
  all: eexists; split;
    [ unfold RunningShow_init, bind, new_inst, py_len, bind, deref, update_inst,
        when, running_add, emit, schedule_once, modify, gets, ret;
      simpl; rewrite Hl; simpl; rewrite Er, E, Hms; reflexivity |].
  all: simpl; split; [reflexivity|]; split; [reflexivity|]; subst self; split.
  all: try (rewrite !alter_last; eexists; (split; [apply lookup_last|]); simpl;
            split; reflexivity).
  all: try (apply list_elem_of_In, in_or_app; right; now left).
  all: apply existsb_exists in Er; destruct Er as (x & Hx & Hxe);
       apply Nat.eqb_eq in Hxe; subst x; now apply list_elem_of_In.
Qed.

(** The two-step show played at half past a second with a period of a
    tenth: in floats the clock time modulo the period is just short of the
    period, the timer is set for [2 ^ -55] seconds, and the time of the next
    step is the clock time itself. *)
Lemma X5_witness :
  exists s',
    RunningShow_init env0 (VRef 0%nat) 0 None 1 0 None (-1) 100 false None false None []
      (set_clock_time (1 # 2) two_step_show) = (Ok 0%nat, s') /\
    clock_events s' = [(0%nat, 1 # 36028797018963968)] /\
    exists r, instances s' !! 0%nat = Some r /\ RS.next_step_time r = 1 # 2.
Proof.
  destruct (X5_synchronised_start env0 0%nat [VRef 1%nat; VRef 4%nat] 0 None 1 0 None (-1) 100
              false None false None (set_clock_time (1 # 2) two_step_show) 100)
    as (s' & Hrun & Hev & _ & _ & r & Hr & Hnext & _);
    [reflexivity | lia | reflexivity |].
  exists s'. split; [exact Hrun|]. split; [exact Hev|].
  exists r. split; [exact Hr | exact Hnext].
Defined.

Lemma Qlt_bool_irrefl (q : Q) : Qlt_bool q q = false.
Proof.
  unfold Qlt_bool. apply negb_false_iff, Qle_bool_iff, Qle_refl.
Qed.

Lemma norm_index_past (i : Z) (len : nat) :
  Z.of_nat len <= i -> norm_index i len = None.
Proof.
  intros H. unfold norm_index.
  destruct (i <? Z.of_nat len) eqn:E1; [apply Z.ltb_lt in E1; lia|].
  destruct (i <? 0) eqn:E2; [apply Z.ltb_lt in E2; lia|].
  now rewrite !andb_false_r.
Qed.

(** X6. A start step beyond the number of steps makes the constructor of
    the running show raise [IndexError] when it looks up its first step.
    By then the instance is in the show's running set and the start
    notification has gone out; no step has run and no timer is set. *)
Theorem X6_start_step_past_the_end (env : collaborators) (l : loc)
    (items : list value) (prio : Z) (hold : option bool) (speed : Q) (start : Z)
    (cb : option nat) (loops : Z) (reset : bool) (md : option nat) (manual : bool)
    (key : option string) (s : machine) :
  heap s !! l = Some (OList items) ->
  Z.of_nat (length items) < start ->
  let self := length (instances s) in
  exists s',
    RunningShow_init env (VRef l) prio hold speed start cb loops 0 reset md
      manual key [] s = (Raise IndexError, s') /\
    self ∈ running s' /\
    trace s' = trace s ++ [NotifyShowStarting self] /\
    clock_events s' = clock_events s /\
    exists r, instances s' !! self = Some r /\ RS._stopped r = false.
Proof.
  intros Hl Hstart self.
  destruct s as [hp fl ld ss ts tk tv tks rn au lr ins ct ce tr].
  cbn [heap instances clock_events trace clock_time running] in *.
  assert (E1 : (0 <? start) = true) by (apply Z.ltb_lt; lia).
  assert (E2 : norm_index (start - 1) (length items) = None)
    by (apply norm_index_past; lia).
  destruct hold as [hd|]; destruct (existsb (Nat.eqb (length ins)) rn) eqn:Er.
  all: eexists; split;
    [ unfold RunningShow_init, _run_next_step, bind, new_inst, py_len, py_getitem,
        get_inst, bind, deref, update_inst,
        when, running_add, emit, schedule_once, modify, gets, ret, raise;
      simpl; rewrite Hl; simpl; rewrite Er, E1; simpl;
      rewrite !alter_last, lookup_last; simpl; rewrite Qlt_bool_irrefl; simpl; rewrite Hl; simpl;
      rewrite E2; reflexivity |].
  all: simpl; repeat split; try reflexivity.
  all: try (eexists; split; [apply lookup_last | reflexivity]).
  - apply existsb_exists in Er. destruct Er as [x [Hin Hx]].
    apply Nat.eqb_eq in Hx. subst x. now apply list_elem_of_In.
  - apply elem_of_app. right. now apply list_elem_of_singleton.
  - apply existsb_exists in Er. destruct Er as [x [Hin Hx]].
    apply Nat.eqb_eq in Hx. subst x. now apply list_elem_of_In.
  - apply elem_of_app. right. now apply list_elem_of_singleton.
Qed.

(** The two-step show played from step five. *)
Lemma X6_witness :
  exists s',
    RunningShow_init env0 (VRef 0%nat) 0 None 1 5 None (-1) 0 false None false None []
      two_step_show = (Raise IndexError, s') /\
    0%nat ∈ running s' /\ clock_events s' = [].
Proof.
  destruct (X6_start_step_past_the_end env0 0%nat [VRef 1%nat; VRef 4%nat] 0 None 1 5 None (-1)
              false None false None two_step_show)
    as (s' & Hrun & Hin & _ & Hev & _); [reflexivity | simpl; lia |].
  exists s'. split; [exact Hrun|]. split; [exact Hin | exact Hev].
Defined.

Lemma next_step_time_set_index n r :
  RS.next_step_time (RS.set_next_step_index n r) = RS.next_step_time r.
Proof. now destruct r. Qed.

Lemma next_step_index_set_index n r :
  RS.next_step_index (RS.set_next_step_index n r) = n.
Proof. now destruct r. Qed.

Lemma filter_out_self (self : nat) (evs : list (nat * Q)) (ev : nat * Q) :
  ev ∈ List.filter (fun ev => negb (Nat.eqb (fst ev) self)) evs -> fst ev <> self.
Proof.
  intros H. apply list_elem_of_In, filter_In in H. destruct H as [_ H].
  apply negb_true_iff, Nat.eqb_neq in H. exact H.
Qed.

(** X11. [advance] called while the next step is not yet due cancels the
    instance's timer and moves the cursor, but runs no step and sets no new
    timer: no call goes out, and the instance is left with nothing
    scheduled. *)
Theorem X11_advance_before_the_step_is_due (env : collaborators) (self : nat)
    (steps : Z) (show_step : option Z) (s : machine) (r : RS.t) :
  instances s !! self = Some r ->
  Qlt_bool (clock_time s) (RS.next_step_time r) = true ->
  (forall n, show_step = Some n -> 0 <= n) ->
  let idx := if negb (steps - 1 =? 0) then RS._total_steps r mod (steps - 1)
             else match show_step with
                  | Some n => n - 1
                  | None => RS.next_step_index r
                  end in
  exists s',
    advance env self steps show_step s = (Ok (idx - 1), s') /\
    trace s' = trace s /\
    running s' = running s /\
    (forall ev, ev ∈ clock_events s' -> fst ev <> self) /\
    exists r', instances s' !! self = Some r' /\
               RS.next_step_index r' = idx /\
               RS._stopped r' = RS._stopped r.
Proof.
  intros Hr Hdue Hstep idx.
  assert (E0 : match show_step with Some n => n <? 0 | None => false end = false).
  { destruct show_step as [n|]; [|reflexivity]. apply Z.ltb_ge. now apply Hstep. }
  destruct s as [hp fl ld ss ts tk tv tks rn au lr ins ct ce tr].
  cbn [heap instances clock_events trace clock_time running] in *.
  unfold advance. rewrite E0. subst idx.
  destruct (steps - 1 =? 0) eqn:E1; [destruct show_step as [n|]|].
  all: eexists; split;
    [ unfold _run_next_step, bind, unschedule, update_inst, get_inst, modify, gets, ret;
      simpl; rewrite ?Hr; simpl; rewrite ?list_lookup_alter_eq, ?Hr; simpl;
      rewrite ?next_step_time_set_index, Hdue; simpl;
      rewrite ?list_lookup_alter_eq, ?Hr; simpl;
      rewrite ?next_step_index_set_index; reflexivity |].
  all: simpl; repeat split; try (intros ev; apply filter_out_self).
  all: rewrite ?list_lookup_alter_eq, Hr; eexists; split; [reflexivity|];
    now destruct r.
Qed.

(** The playing show, whose second step is due in a second. *)
Lemma X11_witness :
  exists s',
    advance env0 0 1 None playing_show = (Ok 0, s') /\
    trace s' = trace playing_show /\
    forall ev, ev ∈ clock_events s' -> fst ev <> 0%nat.
Proof.
  edestruct (X11_advance_before_the_step_is_due env0 0%nat 1 None playing_show)
    as (s' & Hrun & Htr & _ & Hev & _);
    [vm_compute; reflexivity | reflexivity | discriminate |].
  exists s'. split; [exact Hrun|]. split; [exact Htr | exact Hev].
Defined.

(** X10. Loading a show from a file whose show version is not the one
    this release reads raises [ValueError].  The step list has been replaced
    by a fresh empty list by then, while the step count, the token index and
    the loaded flag are what they were. *)
Theorem X10_wrong_show_version (env : collaborators) (name : string) (s : machine) :
  file s = Some name ->
  name <> "" ->
  get_show_file_version env name <> show_version env ->
  exists s',
    do_load env s = (Raise ValueError, s') /\
    show_steps s' = VRef (length (heap s)) /\
    heap s' = heap s ++ [OList []] /\
    show_index s' = show_index s.
Proof.
  intros Hf Hname Hver.
  destruct s as [hp fl ld ss ts tk tv tks rn au lr ins ct ce tr]. simpl in *. subst fl.
  eexists. split.
  - unfold do_load, do_load_show, reset_show_steps, load_show_from_disk, bind, alloc,
      modify, gets. simpl.
    apply String.eqb_neq in Hname. rewrite Hname. simpl.
    apply Z.eqb_neq in Hver. rewrite Hver. reflexivity.
  - simpl. auto.
Qed.

(** A release that reads version 5 given a file of version 4. *)
Lemma X10_witness :
  exists s',
    do_load (Build_collaborators (show_players env0) (validate_show_config env0)
               (string_to_secs env0) (get_show_file_version env0)
               (file_manager_load env0) 5 (recursion_limit env0))
      (new_show (Some "attract.yaml") 0) = (Raise ValueError, s') /\
    show_steps s' = VRef 0%nat.
Proof.
  destruct (X10_wrong_show_version
              (Build_collaborators (show_players env0) (validate_show_config env0)
                 (string_to_secs env0) (get_show_file_version env0)
                 (file_manager_load env0) 5 (recursion_limit env0))
              "attract.yaml" (new_show (Some "attract.yaml") 0))
    as (s' & Hrun & Hss & _); [reflexivity | discriminate | simpl; lia |].
  exists s'. split; [exact Hrun | exact Hss].
Defined.

(** ** Manual advance *)

(** The instance advances by hand, and every pending timer was already
    pending in [E0]. *)
Definition hand_driven (self : nat) (E0 : list (nat * Q)) (s : machine) : Prop :=
  inst_is self (fun r => RS.manual_advance r = true) s /\
  forall ev, ev ∈ clock_events s -> ev ∈ E0.

Lemma hand_driven_alter self E0 (f : RS.t -> RS.t) s :
  (forall r, RS.manual_advance (f r) = RS.manual_advance r) ->
  hand_driven self E0 s ->
  hand_driven self E0 (set_instances (alter f self (instances s)) s).
Proof.
  intros Hf [Hi Ht]. split.
  - apply inst_is_alter; [|exact Hi]. intros r Hr. now rewrite Hf.
  - now destruct s.
Qed.

Lemma hand_driven_frame self E0 s s' :
  instances s' = instances s -> clock_events s' = clock_events s ->
  hand_driven self E0 s -> hand_driven self E0 s'.
Proof.
  intros Hi Hc [H1 H2]. split.
  - now apply (inst_is_frame self _ s s').
  - now rewrite Hc.
Qed.

Lemma t_hand_driven_keeps {A} self E0 (m : Mm A) :
  keeps (fun s => (instances s, clock_events s)) m ->
  triple (hand_driven self E0) m (fun _ => hand_driven self E0) (hand_driven self E0).
Proof.
  intros Hk.
  apply (t_keeps (fun s => (instances s, clock_events s))
           (fun x => (exists r, fst x !! self = Some r /\ RS.manual_advance r = true) /\
                     forall ev, ev ∈ snd x -> ev ∈ E0) m Hk).
Qed.

Lemma hand_driven_schedule_next self E0 :
  triple (hand_driven self E0) (schedule_next self)
         (fun _ => hand_driven self E0) (hand_driven self E0).
Proof.
  unfold schedule_next.
  apply (t_bind _ _ _ (fun a s => hand_driven self E0 s /\ RS.manual_advance a = true)).
  { eapply t_conseq; [apply (t_get_inst (hand_driven self E0)) | auto | | auto].
    intros a s [Hs Ha]. split; [exact Hs|].
    destruct Hs as [(r & Hr & Hm) _]. rewrite Hr in Ha. now injection Ha as <-. }
  intros r. apply t_pure. intros ->. now apply t_ret.
Qed.

Lemma hand_driven_stop env self E0 hold :
  triple (hand_driven self E0) (stop env self hold)
         (fun _ => hand_driven self E0) (hand_driven self E0).
Proof.
  unfold stop.
  eapply t_bind; [apply t_read, ro_get_inst|]. intros r.
  destruct (RS._stopped r); [now apply t_ret|].
  apply (t_bind _ _ _ (fun _ => hand_driven self E0)).
  { apply t_modify. intros s. apply hand_driven_alter. now intros []. }
  intros u. apply (t_bind _ _ _ (fun _ => hand_driven self E0)).
  { apply t_hand_driven_keeps, keeps_emit. now intros []. }
  intros u1. apply (t_bind _ _ _ (fun _ => hand_driven self E0)).
  { apply t_hand_driven_keeps. intros s. unfold running_remove.
    destruct (existsb _ _); now destruct s. }
  intros u2. apply (t_bind _ _ _ (fun _ => hand_driven self E0)).
  { apply t_modify. intros s [Hi Ht]. split.
    - apply (inst_is_frame self _ s); [now destruct s | exact Hi].
    - intros ev Hev. apply Ht. destruct s; simpl in *.
      apply list_elem_of_In, filter_In in Hev. now apply list_elem_of_In. }
  intros u3. apply t_hand_driven_keeps.
  apply keeps_bind.
  { destruct (negb _); simpl; [|apply keeps_ret].
    apply keeps_for_each. intros player. apply keeps_emit. now intros []. }
  intros u4. destruct (RS.callback r); [apply keeps_emit; now intros [] | apply keeps_ret].
Qed.

Lemma hand_driven_run_next_step env self E0 :
  triple (hand_driven self E0) (_run_next_step env self)
         (fun _ => hand_driven self E0) (hand_driven self E0).
Proof.
  set (I := hand_driven self E0).
  assert (I_emit : forall s name settings md caller prio hd toks,
    I s -> I (set_trace (trace s ++ [ShowPlayCallback name settings md caller prio hd toks]) s)).
  { intros s ? ? ? ? ? ? ?. apply hand_driven_frame; now destruct s. }
  unfold _run_next_step.
  eapply t_bind; [apply t_read, ro_get_inst|]. intros r.
  eapply t_bind; [apply t_read, ro_gets|]. intros now.
  destruct (Qlt_bool now (RS.next_step_time r)); [now apply t_ret|].
  eapply t_bind; [apply t_read, ro_getitem|]. intros step.
  eapply t_bind; [apply t_read, ro_items|]. intros items.
  apply (t_bind _ _ _ (fun _ => I)); [now apply dispatch_keeps|]. intros u.
  destruct (RS.next_step_index r =? RS._total_steps r - 1).
  - destruct (RS.loops r >? 0).
    + apply (t_bind _ _ _ (fun _ => I)).
      * apply t_modify. intros s. apply hand_driven_alter. now intros [].
      * intros u'. apply hand_driven_schedule_next.
    + destruct (RS.loops r <? 0).
      * apply (t_bind _ _ _ (fun _ => I)).
        -- apply t_modify. intros s. apply hand_driven_alter. now intros [].
        -- intros u'. apply hand_driven_schedule_next.
      * apply (t_bind _ _ _ (fun _ => I)); [apply hand_driven_stop|].
        intros u'. now apply t_ret.
  - apply (t_bind _ _ _ (fun _ => I)).
    + apply t_modify. intros s. apply hand_driven_alter. now intros [].
    + intros u'. apply hand_driven_schedule_next.
Qed.

(** X9. A step of a show that advances by hand never sets a timer:
    whatever the step does and however it ends, every timer pending after
    it was pending before it. *)
Theorem X9_manual_advance_sets_no_timer (env : collaborators) (self : nat)
    (s : machine) (r : RS.t) :
  instances s !! self = Some r ->
  RS.manual_advance r = true ->
  forall ev, ev ∈ clock_events (_run_next_step env self s).2 -> ev ∈ clock_events s.
Proof.
  intros Hr Hm.
  assert (Hs : hand_driven self (clock_events s) s).
  { split; [now exists r | auto]. }
  pose proof (hand_driven_run_next_step env self (clock_events s) s Hs) as H.
  destruct (_run_next_step env self s) as [[a|e] s1]; simpl; apply H.
Qed.

(** The two-step show played with [manual_advance], stepped once more. *)
Lemma X9_witness :
  Forall (fun ev =>
            ev ∈ clock_events
                   (RunningShow_init env0 (VRef 0%nat) 0 None 1 0 None (-1) 0 false None true
                      None [] two_step_show).2)
         (clock_events
            (_run_next_step env0 0
               (RunningShow_init env0 (VRef 0%nat) 0 None 1 0 None (-1) 0 false None true
                  None [] two_step_show).2).2).
Proof.
  apply Forall_forall.
  eapply (X9_manual_advance_sets_no_timer env0 0%nat);
    [vm_compute; reflexivity | reflexivity].
Defined.

(** ** Sections the loader does not know *)

Definition known_section (env : collaborators) (k : scalar) : bool :=
  match is_show_player env k with
  | Some _ => true
  | None => py_eqb k (SStr "time")
  end.

Lemma sections_loaded env actions (items : list (scalar * pyval)) s s' :
  for_each items (fun kv => load_section env actions (fst kv) (snd kv)) s = (Ok tt, s') ->
  forallb (fun kv => known_section env (fst kv)) items = true.
Proof.
  revert s. induction items as [|kv rest IH]; intros s H; [reflexivity|].
  simpl in H. unfold bind at 1 in H.
  destruct (load_section env actions kv.1 kv.2 s) as [[u|e] s1] eqn:E; [|discriminate].
  simpl. rewrite (IH s1 H), andb_true_r.
  unfold known_section. unfold load_section in E.
  destruct (is_show_player env kv.1); [reflexivity|].
  destruct (py_eqb kv.1 (SStr "time")); [reflexivity | discriminate].
Qed.

Lemma finish_step_sections env actions step tot t s o s' :
  finish_step env actions step tot t s = (Ok o, s') ->
  forall kvs, step = PDict kvs ->
              forallb (fun kv => known_section env (fst kv)) kvs = true.
Proof.
  intros H kvs ->. unfold finish_step in H. unfold bind at 1 in H.
  destruct (py_setitem actions (SStr "time") (VScalar (SFloat t)) s) as [[u|e] s1];
    [|discriminate].
  unfold bind at 1 in H. simpl in H. unfold bind at 1 in H.
  destruct (for_each kvs _ s1) as [[u1|e] s2] eqn:E; [|discriminate].
  destruct u1. now apply (sections_loaded env actions kvs s1 s2).
Qed.

Lemma dict_set_keeps_keys {V} (p : scalar -> bool) (kvs : list (scalar * V)) k v :
  forallb (fun kv => p (fst kv)) (dict_set kvs k v) = true ->
  forallb (fun kv => p (fst kv)) kvs = true.
Proof.
  induction kvs as [|[k' v'] rest IH]; simpl; [reflexivity|].
  destruct (py_eqb k' k); simpl; intros H; apply andb_prop in H; destruct H as [-> H];
    simpl; [exact H | now apply IH].
Qed.

(** What a computation returns when it returns. *)
Definition returns {A} (m : Mm A) (phi : A -> Prop) : Prop :=
  forall s a s', m s = (Ok a, s') -> phi a.

Lemma returns_bind {A B} (m : Mm A) (k : A -> Mm B) (psi : A -> Prop) (phi : B -> Prop) :
  returns m psi -> (forall a, psi a -> returns (k a) phi) -> returns (bind m k) phi.
Proof.
  intros Hm Hk s b s' H. unfold bind in H.
  destruct (m s) as [[a|e] s1] eqn:E; [|discriminate].
  apply (Hk a (Hm _ _ _ E) s1 b s' H).
Qed.

Lemma returns_any {A} (m : Mm A) : returns m (fun _ => True).
Proof. now intros s a s' _. Qed.

Lemma returns_ret {A} (a : A) (phi : A -> Prop) : phi a -> returns (ret a) phi.
Proof. intros H s a' s' [= <- _]. exact H. Qed.

Lemma returns_raise {A} e (phi : A -> Prop) : returns (raise e) phi.
Proof. intros s a s' H. discriminate. Qed.

Lemma returns_lift {A} (r : result A) (phi : A -> Prop) :
  (forall a, r = Ok a -> phi a) -> returns (lift r) phi.
Proof.
  intros H s a s' E. destruct r as [a0|e]; simpl in E; [|discriminate].
  injection E as <- _. now apply H.
Qed.

Definition step_known (env : collaborators) (step : pyval) : Prop :=
  forall kvs, step = PDict kvs ->
              forallb (fun kv => known_section env (fst kv)) kvs = true.

Lemma finish_step_known env actions step tot t :
  returns (finish_step env actions step tot t) (fun _ => step_known env step).
Proof.
  intros s o s' H kvs Hk. now apply (finish_step_sections env actions step tot t s o s' H).
Qed.

Lemma load_step_known env n step tot :
  returns (load_step env n step tot)
          (fun o => match o with Continue _ => step_known env step | ReturnFalse => True end).
Proof.
  unfold load_step.
  apply (returns_bind _ _ (fun _ => True)); [apply returns_any|]. intros actions _.
  apply (returns_bind _ _ (fun _ => True)); [apply returns_any|]. intros has_time _.
  apply (returns_bind _ _ (fun step' => step_known env step' -> step_known env step)).
  { destruct has_time; [now apply returns_ret|].
    apply returns_lift. intros step' E Hk kvs ->. simpl in E. injection E as <-.
    eapply dict_set_keeps_keys. now apply Hk. }
  intros step' Hstep'.
  apply (returns_bind _ _ (fun _ => True)); [apply returns_any|]. intros te _.
  apply (returns_bind _ _ (fun _ => True)); [apply returns_any|]. intros st _.
  apply (returns_bind _ _ (fun _ => True)); [apply returns_any|]. intros u _.
  apply (returns_bind _ _ (fun _ => True)); [apply returns_any|]. intros relative _.
  assert (Hfin : forall t, returns (finish_step env actions step' tot t)
            (fun o => match o with Continue _ => step_known env step | ReturnFalse => True end)).
  { intros t s o s' H. destruct o; [|exact I].
    apply Hstep'. apply (finish_step_known env actions step' tot t s _ s' H). }
  destruct relative; [apply Hfin|].
  destruct (Qlt_bool st tot); [|apply Hfin].
  apply (returns_bind _ _ (fun _ => True)); [apply returns_any|]. intros u1 _.
  now apply returns_ret.
Qed.

Lemma load_steps_known env data : forall n tot,
  returns (load_steps env n data tot)
          (fun o => match o with
                    | Continue _ => Forall (step_known env) data
                    | ReturnFalse => True
                    end).
Proof.
  induction data as [|step rest IH]; intros n tot; simpl.
  - apply returns_ret. constructor.
  - apply (returns_bind _ _ _ _ (load_step_known env n step tot)).
    intros [t|] Hstep; [|now apply returns_ret].
    intros s o s' H. pose proof (IH (S n) t s o s' H) as Hr.
    destruct o; [|exact I]. now constructor.
Qed.

(** X7. Show data with a step that holds a section which is neither a
    registered player nor ['time'] is never installed: the load raises or
    returns [False], and the step count, the token index and the loaded
    flag stay what they were. *)
Theorem X7_unknown_section_is_not_loaded (env : collaborators) (l : list pyval)
    (kvs : list (scalar * pyval)) (s : machine) :
  PDict kvs ∈ l ->
  forallb (fun kv => known_section env (fst kv)) kvs = false ->
  exists s',
    (do_load_show env (PList l) s = (Ok (SBool false), s') \/
     exists e, do_load_show env (PList l) s = (Raise e, s')) /\
    show_index s' = show_index s.
Proof.
  intros Hin Hbad.
  assert (Hrun : do_load_show env (PList l) s =
                 (o <- (reset_show_steps ;; load_steps env 0 l 0) ;;
                  match o with
                  | Continue _ =>
                      ss <- gets show_steps ;;
                      n <- py_len ss ;;
                      modify (set_total_steps (Some n)) ;;
                      _get_tokens env ;;
                      ret SNone
                  | ReturnFalse => ret (SBool false)
                  end) s).
  { unfold do_load_show, bind, reset_show_steps, alloc, modify, gets.
    destruct s as [hp fl ld ss ts tk tv tks rn au lr ins ct ce tr]. simpl.
    destruct l as [|x l']; [now apply elem_of_nil in Hin|].
    destruct fl; reflexivity. }
  assert (Hkeep : keeps show_index (reset_show_steps ;; load_steps env 0 l 0)).
  { apply keeps_bind; [apply keeps_reset_show_steps; now intros []|].
    intros u. apply keeps_load_steps; now intros []. }
  pose proof (load_steps_known env l 0%nat 0%Q) as Hknown.
  unfold bind at 1 in Hrun. specialize (Hkeep s).
  destruct ((reset_show_steps ;; load_steps env 0 l 0) s) as [[o|e] s1] eqn:E.
  - destruct o as [t|].
    + exfalso. unfold bind in E.
      destruct (reset_show_steps s) as [[u|e] s0]; [|discriminate].
      specialize (Hknown s0 _ s1 E). simpl in Hknown.
      rewrite Forall_forall in Hknown. specialize (Hknown _ Hin kvs eq_refl). congruence.
    + exists s1. split; [left; exact Hrun | exact Hkeep].
  - exists s1. split; [right; exists e; exact Hrun | exact Hkeep].
Qed.

Lemma X7_witness :
  exists s',
    (do_load_show env0 (PList [time_step 0; PDict [(SStr "flashers", PDict [])]]) s0
     = (Ok (SBool false), s') \/
     exists e, do_load_show env0 (PList [time_step 0; PDict [(SStr "flashers", PDict [])]]) s0
               = (Raise e, s')) /\
    show_index s' = show_index s0.
Proof.
  apply (X7_unknown_section_is_not_loaded env0
           [time_step 0; PDict [(SStr "flashers", PDict [])]]
           [(SStr "flashers", PDict [])] s0).
  - apply elem_of_cons. right. apply elem_of_cons. now left.
  - reflexivity.
Defined.

(** ** The steps a load installs *)

(** The show's step list is the list object at [loc], and holds [k]
    steps. *)
Definition steps_at (loc : loc) (k : nat) (s : machine) : Prop :=
  show_steps s = VRef loc /\
  exists items, heap s !! loc = Some (OList items) /\ length items = k.

(** A value that is not the step list. *)
Definition apart (loc : loc) (v : value) : Prop :=
  match v with
  | VRef a => a <> loc
  | VScalar _ => True
  end.

Definition anything : machine -> Prop := fun _ => True.

Lemma steps_at_alloc loc k o :
  triple (steps_at loc k) (alloc o)
         (fun v s => steps_at loc k s /\ apart loc v) anything.
Proof.
  intros s (Hss & items & Hl & Hk). unfold alloc.
  destruct s as [hp fl ld ss ts tk tv tks rn au lr ins ct ce tr].
  unfold steps_at. cbn [heap show_steps set_heap apart] in *.
  split.
  - split; [exact Hss|]. exists items. split; [|exact Hk].
    now apply lookup_app_l_Some.
  - apply lookup_lt_Some in Hl. lia.
Qed.

Lemma steps_at_setitem loc k target x v :
  apart loc target ->
  triple (steps_at loc k) (py_setitem target x v) (fun _ => steps_at loc k) anything.
Proof.
  intros Ht s (Hss & items & Hl & Hk). unfold py_setitem.
  destruct target as [c|a]; [exact I|]. simpl in Ht.
  unfold bind, deref. destruct (heap s !! a) as [o|] eqn:Ea; [|exact I].
  assert (Hstore : forall o', steps_at loc k (set_heap (<[a := o']> (heap s)) s)).
  { intros o'. destruct s as [hp fl ld ss ts tk tv tks rn au lr ins ct ce tr].
    unfold steps_at. cbn [heap show_steps set_heap] in *.
    split; [exact Hss|]. exists items. split; [|exact Hk].
    now rewrite list_lookup_insert_ne. }
  destruct o as [its|kvs].
  - destruct (index_of x); [|exact I]. destruct (norm_index _ _); [|exact I].
    apply Hstore.
  - apply Hstore.
Qed.

Lemma steps_at_append loc k v :
  triple (steps_at loc k) (py_append (VRef loc) v)
         (fun _ => steps_at loc (S k)) anything.
Proof.
  intros s (Hss & items & Hl & Hk). unfold py_append, bind, deref. rewrite Hl.
  unfold store, modify.
  destruct s as [hp fl ld ss ts tk tv tks rn au lr ins ct ce tr].
  unfold steps_at. cbn [heap show_steps set_heap] in *.
  split; [exact Hss|]. exists (items ++ [v]). split.
  - apply list_lookup_insert_eq. now apply lookup_lt_Some in Hl.
  - rewrite length_app. simpl. lia.
Qed.

Lemma steps_at_alloc_tree loc k t :
  triple (steps_at loc k) (alloc_tree t)
         (fun v s => steps_at loc k s /\ apart loc v) anything.
Proof.
  revert t. fix IH 1. intros [c|l|kvs]; simpl.
  - apply t_ret. intros s Hs. now split.
  - apply (t_bind _ _ _ (fun _ => steps_at loc k)); [|intros items; apply steps_at_alloc].
    induction l as [|t rest IHl]; [now apply t_ret|].
    apply (t_bind _ _ _ (fun _ => steps_at loc k)).
    { eapply t_conseq; [apply IH | auto | | auto]. now intros a s [Hs _]. }
    intros v. apply (t_bind _ _ _ (fun _ => steps_at loc k)); [apply IHl|].
    intros vs. now apply t_ret.
  - apply (t_bind _ _ _ (fun _ => steps_at loc k)); [|intros items; apply steps_at_alloc].
    induction kvs as [|[key t] rest IHl]; [now apply t_ret|].
    apply (t_bind _ _ _ (fun _ => steps_at loc k)).
    { eapply t_conseq; [apply IH | auto | | auto]. now intros a s [Hs _]. }
    intros v. apply (t_bind _ _ _ (fun _ => steps_at loc k)); [apply IHl|].
    intros vs. now apply t_ret.
Qed.

Lemma steps_at_lift {A} loc k (r : result A) :
  triple (steps_at loc k) (lift r) (fun _ => steps_at loc k) anything.
Proof. apply t_lift; auto. intros s _. exact I. Qed.

Lemma steps_at_load_section env loc k actions key v :
  apart loc actions ->
  triple (steps_at loc k) (load_section env actions key v)
         (fun _ => steps_at loc k) anything.
Proof.
  intros Ha. unfold load_section. destruct (is_show_player env key) as [name|].
  - eapply t_bind; [apply (steps_at_alloc loc k)|]. intros vc. apply t_pure. intros Hvc.
    apply (t_bind _ _ _ (fun _ => steps_at loc k)).
    { destruct v; [now apply t_ret | now apply t_raise | now apply t_ret]. }
    intros entries.
    apply (t_bind _ _ _ (fun _ => steps_at loc k)); [|intros u; now apply steps_at_setitem].
    apply t_for_each. intros ds.
    apply (t_bind _ _ _ (fun _ => steps_at loc k)); [apply (steps_at_lift loc k)|].
    intros validated. apply t_for_each. intros kt.
    apply (t_bind _ _ _ (fun _ => steps_at loc k)).
    { eapply t_conseq; [apply (steps_at_alloc_tree loc k) | auto | | auto]. now intros a s [Hs _]. }
    intros x. now apply steps_at_setitem.
  - destruct (py_eqb key (SStr "time")); [now apply t_ret | now apply t_raise].
Qed.

Lemma steps_at_gets_steps loc k :
  triple (steps_at loc k) (gets show_steps)
         (fun ss s => steps_at loc k s /\ ss = VRef loc) anything.
Proof. apply t_gets. intros s Hs. split; [exact Hs|]. now destruct Hs. Qed.

Lemma steps_at_finish_step env loc k actions step tot t :
  apart loc actions ->
  triple (steps_at loc k) (finish_step env actions step tot t)
         (fun _ => steps_at loc (S k)) anything.
Proof.
  intros Ha. unfold finish_step.
  apply (t_bind _ _ _ (fun _ => steps_at loc k)); [now apply steps_at_setitem|].
  intros u. apply (t_bind _ _ _ (fun _ => steps_at loc k)); [apply (steps_at_lift loc k)|].
  intros items. apply (t_bind _ _ _ (fun _ => steps_at loc k)).
  { apply t_for_each. intros kv. now apply steps_at_load_section. }
  intros u1. eapply t_bind; [apply (steps_at_gets_steps loc k)|]. intros ss.
  apply t_pure. intros ->.
  apply (t_bind _ _ _ (fun _ => steps_at loc (S k))); [apply steps_at_append|].
  intros u2. now apply t_ret.
Qed.

(** What one round of the loader's loop adds: the step, and before the
    first step an empty one when it does not start at time zero. *)
Lemma steps_at_load_step env loc k n step tot :
  triple (steps_at loc k) (load_step env n step tot)
         (fun o s => match o with
                     | Continue _ =>
                         steps_at loc (S k) s \/ (n = 0%nat /\ steps_at loc (S (S k)) s)
                     | ReturnFalse => True
                     end) anything.
Proof.
  unfold load_step.
  eapply t_bind; [apply (steps_at_alloc loc k)|]. intros actions. apply t_pure. intros Ha.
  apply (t_bind _ _ _ (fun _ => steps_at loc k)); [apply (steps_at_lift loc k)|]. intros has_time.
  apply (t_bind _ _ _ (fun _ => steps_at loc k)).
  { destruct has_time; [now apply t_ret | apply steps_at_lift]. }
  intros step'.
  apply (t_bind _ _ _ (fun _ => steps_at loc k)); [apply (steps_at_lift loc k)|]. intros te.
  apply (t_bind _ _ _ (fun _ => steps_at loc k)); [apply (steps_at_lift loc k)|]. intros st.
  apply (t_bind _ _ _ (fun _ s => steps_at loc k s \/ (n = 0%nat /\ steps_at loc (S k) s))).
  { destruct (Nat.eqb_spec n 0) as [->|Hn]; simpl.
    - apply t_when; [|intros _ s Hs; now left]. intros _.
      eapply t_bind; [apply (steps_at_alloc loc k)|]. intros zero. apply t_pure. intros Hz.
      eapply t_bind; [apply (steps_at_gets_steps loc k)|]. intros ss. apply t_pure. intros ->.
      eapply t_conseq; [apply (steps_at_append loc k) | auto | | auto].
      intros u s Hs. right. now split.
    - apply t_ret. intros s Hs. now left. }
  intros u.
  assert (Hfin : forall t,
            triple (fun s => steps_at loc k s \/ (n = 0%nat /\ steps_at loc (S k) s))
              (finish_step env actions step' tot t)
              (fun o s => match o with
                          | Continue _ =>
                              steps_at loc (S k) s \/ (n = 0%nat /\ steps_at loc (S (S k)) s)
                          | ReturnFalse => True
                          end) anything).
  { intros t s [Hs|[Hn Hs]].
    - pose proof (steps_at_finish_step env loc k actions step' tot t Ha s Hs) as H.
      destruct (finish_step env actions step' tot t s) as [[[t'|]|e] s1]; auto.
    - pose proof (steps_at_finish_step env loc (S k) actions step' tot t Ha s Hs) as H.
      destruct (finish_step env actions step' tot t s) as [[[t'|]|e] s1]; auto. }
  apply (t_bind _ _ _ (fun _ s => steps_at loc k s \/ (n = 0%nat /\ steps_at loc (S k) s))).
  { apply t_lift; auto. intros s _. exact I. }
  intros relative. destruct relative; [apply Hfin|].
  destruct (Qlt_bool st tot); [|apply Hfin].
  apply (t_bind _ _ _ (fun _ => anything)); [now apply t_modify|].
  intros u1. now apply t_ret.
Qed.

Lemma steps_at_load_steps env loc (data : list pyval) : forall k n tot,
  triple (steps_at loc k) (load_steps env n data tot)
         (fun o s => match o with
                     | Continue _ =>
                         exists k', steps_at loc k' s /\
                           (k + length data <= k')%nat /\
                           (k' <= k + length data + (if Nat.eqb n 0 then 1 else 0))%nat /\
                           (data = [] -> k' = k)
                     | ReturnFalse => True
                     end) anything.
Proof.
  induction data as [|step rest IH]; intros k n tot; simpl.
  - apply t_ret. intros s Hs. exists k.
    split; [exact Hs|]. split; [lia|]. split; [|reflexivity].
    destruct (Nat.eqb n 0); lia.
  - eapply t_bind; [apply steps_at_load_step|]. intros [t|]; [|now apply t_ret].
    intros s [Hs|[-> Hs]].
    + pose proof (IH (S k) (S n) t s Hs) as H.
      destruct (load_steps env (S n) rest t s) as [[[t'|]|e] s1]; auto.
      destruct H as (k' & Hk' & Hlo & Hhi & _). exists k'. simpl in Hhi.
      split; [exact Hk'|]. split; [lia|]. split; [|discriminate].
      destruct (Nat.eqb n 0); lia.
    + pose proof (IH (S (S k)) 1%nat t s Hs) as H.
      destruct (load_steps env 1 rest t s) as [[[t'|]|e] s1]; auto.
      destruct H as (k' & Hk' & Hlo & Hhi & _). exists k'. simpl in Hhi |- *.
      split; [exact Hk'|]. split; [lia|]. split; [lia|discriminate].
Qed.

Definition step_list (s : machine) := (heap s, show_steps s, total_steps s).

Lemma keeps_check_token p data ty : keeps step_list (_check_token p data ty).
Proof.
  unfold _check_token. destruct data as [[| | | |str]|l]; try apply keeps_ret.
  destruct (find_token str) as [token|]; [|apply keeps_ret].
  unfold _add_token. apply keeps_bind.
  - apply keeps_modify. intros s. destruct (existsb _ _); now destruct s.
  - intros u. destruct ty; apply keeps_modify; now intros [].
Qed.

Lemma keeps_walk_show depth : forall data p li,
  keeps step_list (_walk_show depth data p li).
Proof.
  induction depth as [|depth IH]; intros data p li; simpl; [apply keeps_raise|].
  destruct data as [c|l]; [apply (keeps_check_token p (VScalar c) TValue)|].
  apply keeps_bind; [apply keeps_ro, ro_deref|]. intros [items|kvs].
  - apply keeps_bind; [|intros o; apply keeps_ret].
    apply keeps_fold_each. intros b x.
    apply keeps_bind; [apply keeps_check_token|]. intros u.
    apply keeps_bind; [apply IH|]. intros u1. apply keeps_ret.
  - apply keeps_for_each. intros kv.
    apply keeps_bind; [apply (keeps_check_token p (VScalar (fst kv)) TKey)|].
    intros u. apply IH.
Qed.

(** The list at [loc] holds [k] steps and the show's step count is [k]. *)
Definition installed (loc : loc) (k : nat) (s : machine) : Prop :=
  exists items, show_steps s = VRef loc /\ heap s !! loc = Some (OList items) /\
    total_steps s = Some (Z.of_nat (length items)) /\ length items = k.

Lemma steps_at_install env loc k :
  triple (steps_at loc k)
         (ss <- gets show_steps ;;
          n <- py_len ss ;;
          modify (set_total_steps (Some n)) ;;
          _get_tokens env ;;
          ret SNone)
         (fun _ => installed loc k) anything.
Proof.
  eapply t_bind; [apply (steps_at_gets_steps loc k)|]. intros ss. apply t_pure. intros ->.
  apply (t_bind _ _ _ (fun n s => steps_at loc k s /\ n = Z.of_nat k)).
  { intros s Hs. pose proof Hs as (Hss & items & Hl & Hk).
    unfold py_len, bind, deref. rewrite Hl. cbn [ret]. split; [exact Hs | now rewrite Hk]. }
  intros n. apply t_pure. intros ->.
  apply (t_bind _ _ _ (fun _ => installed loc k)).
  { apply t_modify. intros s (Hss & items & Hl & Hk). exists items.
    destruct s as [hp fl ld ss ts tk tv tks rn au lr ins ct ce tr].
    cbn [heap show_steps total_steps set_total_steps] in *. now rewrite Hk. }
  intros u. apply (t_bind _ _ _ (fun _ => installed loc k)); [|intros u1; now apply t_ret].
  unfold _get_tokens.
  apply (t_bind _ _ _ (fun ss s => installed loc k s)); [now apply t_gets|]. intros ss.
  eapply t_conseq;
    [ apply (t_keeps step_list
               (fun x => exists items, x.1.2 = VRef loc /\ x.1.1 !! loc = Some (OList items) /\
                           x.2 = Some (Z.of_nat (length items)) /\ length items = k)),
        keeps_walk_show
    | auto | auto | intros s _; exact I ].
Qed.

(** X8. A load of a list of steps that goes through installs a fresh step
    list with one step for each step of the data, and at most one more: the
    empty step put in front when the first step does not start at time zero.
    The step count set by the load is the length of that list.  (An empty
    list given to a show with a file name is replaced by the file's content,
    hence the precondition.) *)
Theorem X8_load_installs_the_steps (env : collaborators) (l : list pyval)
    (s s' : machine) :
  file s = None \/ l <> [] ->
  do_load_show env (PList l) s = (Ok SNone, s') ->
  exists items : list value,
    show_steps s' = VRef (length (heap s)) /\
    heap s' !! length (heap s) = Some (OList items) /\
    total_steps s' = Some (Z.of_nat (length items)) /\
    (length l <= length items <= S (length l))%nat /\
    (l = [] -> items = []).
Proof.
  intros Hpre Hrun.
  set (s0 := set_show_steps (VRef (length (heap s))) (set_heap (heap s ++ [OList []]) s)).
  assert (Hs0 : steps_at (length (heap s)) 0 s0).
  { unfold s0, steps_at. destruct s as [hp fl ld ss ts tk tv tks rn au lr ins ct ce tr].
    cbn [heap show_steps set_heap set_show_steps]. split; [reflexivity|].
    exists []. split; [|reflexivity]. now rewrite lookup_app_r, Nat.sub_diag by lia. }
  assert (Hfile : file s0 = file s) by (unfold s0; now destruct s).
  assert (Hstart : do_load_show env (PList l) s =
                   (o <- load_steps env 0 l 0 ;;
                    match o with
                    | Continue _ =>
                        ss <- gets show_steps ;;
                        n <- py_len ss ;;
                        modify (set_total_steps (Some n)) ;;
                        _get_tokens env ;;
                        ret SNone
                    | ReturnFalse => ret (SBool false)
                    end) s0).
  { unfold do_load_show. unfold bind at 1. unfold reset_show_steps.
    unfold bind at 1. unfold alloc at 1. unfold modify at 1. fold s0.
    unfold bind at 1. unfold gets at 1. rewrite Hfile.
    destruct Hpre as [Hnone|Hne].
    - rewrite Hnone. reflexivity.
    - destruct (file s) as [name|]; [|reflexivity].
      destruct l as [|x rest]; [congruence|]. reflexivity. }
  rewrite Hstart in Hrun. clear Hstart.
  pose proof (steps_at_load_steps env (length (heap s)) l 0%nat 0%nat 0 s0 Hs0) as Hloop.
  unfold bind at 1 in Hrun.
  destruct (load_steps env 0 l 0 s0) as [[[t|]|e] s1]; try discriminate.
  destruct Hloop as (k & Hk & Hlo & Hhi & Hnil).
  pose proof (steps_at_install env (length (heap s)) k s1 Hk) as Hfin.
  rewrite Hrun in Hfin. destruct Hfin as (items & Hss & Hl & Htot & Hlen).
  exists items. cbn [Nat.eqb] in Hhi.
  split; [exact Hss|]. split; [exact Hl|]. split; [exact Htot|]. split; [lia|].
  intros Hempty. specialize (Hnil Hempty). apply nil_length_inv. lia.
Qed.

(** A show with no file takes its two steps as given. *)
Lemma X8_witness :
  exists items : list value,
    show_steps (do_load_show env0 two_step_data s0).2 = VRef (length (heap s0)) /\
    heap (do_load_show env0 two_step_data s0).2 !! length (heap s0) = Some (OList items) /\
    total_steps (do_load_show env0 two_step_data s0).2 = Some (Z.of_nat (length items)) /\
    (2 <= length items <= 3)%nat.
Proof.
  destruct (X8_load_installs_the_steps env0
              (match two_step_data with PList l => l | _ => [] end)
              s0 (do_load_show env0 two_step_data s0).2)
    as (items & H1 & H2 & H3 & H4 & _).
  - right. vm_compute. discriminate.
  - vm_compute. reflexivity.
  - exists items. simpl in H4. split; [exact H1|]. split; [exact H2|].
    split; [exact H3 | exact H4].
Defined.

End ShowExtra.

(* ===================================================================== *)
(** * Further properties of the platform: serial input, drivers, machine loop *)
(* ===================================================================== *)

Module OppExtra.
Import Py OppModel OppDriverModel Samples OppSpec.
Local Open Scope py_scope.

Lemma split_frames_step intf (p : list byte) :
  split_frames intf p =
  if (7 <=? length p)%nat then
    match p with
    | [] => ([], [])
    | b0 :: rest =>
        if is_gen2_addr b0 then
          if match rest with
             | b1 :: _ => ord b1 =? ord (READ_GEN2_INP_CMD intf)
             | [] => false
             end
          then (take 7 p :: (split_frames intf (drop 7 p)).1,
                (split_frames intf (drop 7 p)).2)
          else split_frames intf (resync (drop 2 p))
        else if ord b0 =? ord (EOM_CMD intf) then split_frames intf rest
        else split_frames intf (resync rest)
    end
  else ([], p).
Proof.
  rewrite split_frames_equation_1.
  destruct (le_lt_dec 7 (length p)) as [H|H].
  - rewrite split_frames_clause_1_equation_1.
    destruct (Nat.leb_spec 7 (length p)); [|lia].
    destruct p as [|b0 rest]; [reflexivity|].
    rewrite split_frames_clause_1_clause_2_equation_2. reflexivity.
  - rewrite split_frames_clause_1_equation_2.
    destruct (Nat.leb_spec 7 (length p)); [lia | reflexivity].
Qed.

(** ** The receive loop *)

(** A sub-frame as the receive loop cuts it: seven bytes, a Gen2 card
    address first, the read-inputs command second. *)
Definition input_frame (intf : OppRs232Intf) (f : list byte) : bool :=
  match f with
  | a :: b :: _ =>
      is_gen2_addr a && (ord b =? ord (READ_GEN2_INP_CMD intf)) && (length f =? 7)%nat
  | _ => false
  end.

Lemma resync_suffix (p : list byte) : resync p `suffix_of` p.
Proof.
  induction p as [|b rest IH]; simpl; [reflexivity|].
  destruct (is_gen2_addr b); [reflexivity|]. now apply suffix_cons_r.
Qed.

Lemma split_frames_sound intf (n : nat) : forall p : list byte,
  (length p <= n)%nat ->
  forallb (input_frame intf) (split_frames intf p).1 = true /\
  (length (split_frames intf p).2 < 7)%nat /\
  (split_frames intf p).2 `suffix_of` p /\
  (length (concat (split_frames intf p).1) + length (split_frames intf p).2
   <= length p)%nat.
Proof.
  induction n as [|n IH]; intros p Hn; rewrite split_frames_step.
  - destruct p; [|simpl in Hn; lia]. simpl.
    repeat split; [simpl; lia | reflexivity | simpl; lia].
  - destruct (Nat.leb_spec 7 (length p)) as [H7|H7];
      [|simpl; repeat split; [lia | reflexivity | lia]].
    destruct p as [|b0 rest]; [simpl in H7; lia|]. simpl in Hn.
    destruct (is_gen2_addr b0) eqn:Ea.
    + destruct rest as [|b1 rest']; [simpl in H7; lia|].
      destruct (ord b1 =? ord (READ_GEN2_INP_CMD intf)) eqn:Ec.
      * destruct (IH (drop 7 (b0 :: b1 :: rest'))) as (F & L & S & C).
        { rewrite length_drop. cbn [length] in *. lia. }
        cbn [fst snd]. repeat split.
        -- cbn [forallb]. rewrite F, andb_true_r.
           assert (Hl : length (take 7 (b0 :: b1 :: rest')) = 7%nat)
             by (rewrite length_take; cbn [length] in *; lia).
           simpl in Hl |- *. rewrite Ea, Ec. simpl.
           injection Hl as Hl. rewrite Hl. reflexivity.
        -- exact L.
        -- etransitivity; [exact S|]. apply suffix_drop.
        -- cbn [concat]. rewrite length_app, length_take.
           rewrite length_drop in C. cbn [length] in *. lia.
      * change (drop 2 (b0 :: b1 :: rest')) with rest'.
        pose proof (resync_suffix rest') as Hs.
        destruct (IH (resync rest')) as (F & L & S & C).
        { apply suffix_length in Hs. cbn [length drop] in *. lia. }
        repeat split; auto.
        -- etransitivity; [exact S|]. etransitivity; [exact Hs|].
           apply suffix_cons_r. now apply suffix_cons_r.
        -- apply suffix_length in Hs. cbn [length drop] in *. lia.
    + destruct (ord b0 =? ord (EOM_CMD intf)).
      * destruct (IH rest) as (F & L & S & C); [lia|].
        repeat split; auto; [now apply suffix_cons_r | cbn [length] in *; lia].
      * pose proof (resync_suffix rest) as Hs.
        destruct (IH (resync rest)) as (F & L & S & C).
        { apply suffix_length in Hs. cbn [length drop] in *. lia. }
        repeat split; auto.
        -- etransitivity; [exact S|]. now apply suffix_cons_r.
        -- apply suffix_length in Hs. cbn [length drop] in *. lia.
Qed.

(** The stream a list of frames was cut from: before each frame, the
    bytes that were thrown away. *)
Fixpoint weave (gaps fs : list (list byte)) : list byte :=
  match gaps, fs with
  | g :: gaps', f :: fs' => g ++ f ++ weave gaps' fs'
  | _, _ => []
  end.

Lemma weave_prepend (k : list byte) (gaps fs : list (list byte)) (tail : list byte) :
  length gaps = length fs ->
  exists gaps' tail',
    length gaps' = length fs /\
    forall rest, k ++ weave gaps fs ++ tail ++ rest = weave gaps' fs ++ tail' ++ rest.
Proof.
  destruct gaps as [|g gaps], fs as [|f fs]; simpl; intros H; try discriminate.
  - exists [], (k ++ tail). split; [reflexivity|]. intros rest. simpl.
    now rewrite <- app_assoc.
  - exists ((k ++ g) :: gaps), tail. split; [simpl; lia|]. intros rest. simpl.
    now rewrite <- !app_assoc.
Qed.

(** The buffer is, in order: for each frame cut, the bytes thrown away
    before it and the frame; then the bytes thrown away after the last
    frame; then what is left. *)
Lemma split_frames_weave intf (n : nat) : forall p : list byte,
  (length p <= n)%nat ->
  exists gaps tail,
    length gaps = length (split_frames intf p).1 /\
    p = weave gaps (split_frames intf p).1 ++ tail ++ (split_frames intf p).2.
Proof.
  assert (Hskip : forall (k p' : list byte),
            (exists gaps tail,
               length gaps = length (split_frames intf p').1 /\
               p' = weave gaps (split_frames intf p').1 ++ tail ++ (split_frames intf p').2) ->
            exists gaps tail,
              length gaps = length (split_frames intf p').1 /\
              k ++ p' = weave gaps (split_frames intf p').1 ++ tail
                        ++ (split_frames intf p').2).
  { intros k p' (gaps & tail & Hlen & Heq).
    destruct (weave_prepend k gaps (split_frames intf p').1 tail Hlen)
      as (gaps' & tail' & Hlen' & Hall).
    exists gaps', tail'. split; [exact Hlen'|].
    rewrite <- Hall. now rewrite <- Heq. }
  induction n as [|n IH]; intros p Hn; rewrite split_frames_step.
  - destruct p; [|simpl in Hn; lia]. simpl. now exists [], [].
  - destruct (Nat.leb_spec 7 (length p)) as [H7|H7]; [|now exists [], []].
    destruct p as [|b0 rest]; [simpl in H7; lia|]. simpl in Hn.
    destruct (is_gen2_addr b0) eqn:Ea.
    + destruct rest as [|b1 rest']; [simpl in H7; lia|].
      destruct (ord b1 =? ord (READ_GEN2_INP_CMD intf)) eqn:Ec.
      * destruct (IH (drop 7 (b0 :: b1 :: rest'))) as (gaps & tail & Hlen & Heq).
        { rewrite length_drop. cbn [length] in *. lia. }
        exists ([] :: gaps), tail. cbn [fst snd]. split; [simpl; now rewrite Hlen|].
        cbn [weave]. rewrite app_nil_l, <- !app_assoc.
        rewrite (app_assoc (weave gaps _)), <- app_assoc, <- Heq.
        now rewrite take_drop.
      * change (drop 2 (b0 :: b1 :: rest')) with rest'.
        pose proof (resync_suffix rest') as [k Hk].
        assert (Hshort : (length (resync rest') <= n)%nat).
        { assert (Hl := f_equal length Hk). rewrite length_app in Hl.
          cbn [length] in *. lia. }
        pose proof (Hskip (b0 :: b1 :: k) (resync rest') (IH _ Hshort)) as Hgoal.
        cbn [app] in Hgoal. rewrite <- Hk in Hgoal. exact Hgoal.
    + destruct (ord b0 =? ord (EOM_CMD intf)).
      * assert (Hshort : (length rest <= n)%nat) by lia.
        exact (Hskip [b0] rest (IH _ Hshort)).
      * pose proof (resync_suffix rest) as [k Hk].
        assert (Hshort : (length (resync rest) <= n)%nat).
        { assert (Hl := f_equal length Hk). rewrite length_app in Hl.
          cbn [length] in *. lia. }
        pose proof (Hskip (b0 :: k) (resync rest) (IH _ Hshort)) as Hgoal.
        cbn [app] in Hgoal. rewrite <- Hk in Hgoal. exact Hgoal.
Qed.

(** X12. Whatever bytes arrive, the receive loop puts on the queue only
    sub-frames of seven bytes that start with a Gen2 card address and the
    read-inputs command, and leaves fewer than seven bytes in its buffer.
    Nothing is queued twice or made up: the bytes it had and the bytes read
    are, in order, the bytes thrown away before the first frame queued, that
    frame, and so on to the last frame queued, the bytes thrown away after
    it, and the bytes left in the buffer. *)
Theorem X12_receive_queues_input_frames_only (intf : OppRs232Intf) (resp : list byte)
    (s : platform) :
  exists fs s',
    receive intf resp s = (Ok tt, s') /\
    receive_queue s' = receive_queue s ++ fs /\
    forallb (input_frame intf) fs = true /\
    (length (partMsg s') < 7)%nat /\
    exists gaps tail : list _,
      length gaps = length fs /\
      partMsg s ++ resp = weave gaps fs ++ tail ++ partMsg s'.
Proof.
  destruct s as [oi idt os sd inp ipd iad rim onp ncd ngb gaa cid bc ofv mv hsc rq pm se lg].
  cbn [partMsg receive_queue].
  destruct (split_frames_sound intf (length (pm ++ resp)) (pm ++ resp))
    as (F & L & S & C); [lia|].
  destruct (split_frames_weave intf (length (pm ++ resp)) (pm ++ resp))
    as (gaps & tail & Hlen & Heq); [lia|].
  exists (split_frames intf (pm ++ resp)).1. eexists. split.
  - unfold receive, bind, modify, gets. simpl. reflexivity.
  - simpl. split; [reflexivity|]. split; [exact F|]. split; [exact L|].
    exists gaps, tail. split; [exact Hlen | exact Heq].
Qed.

(** A read that holds a stray byte, a sub-frame, and five bytes more: the
    stray byte is thrown away, the sub-frame queued, and the five bytes wait
    in the buffer. *)
Lemma X12_sample :
  let frame := [Byte.x20; Byte.x08; Byte.x00; Byte.x00; Byte.x00; Byte.x01; Byte.x8a] in
  let out := receive sample_intf
               ([Byte.x00] ++ frame ++ [Byte.xff; Byte.x21; Byte.x08; Byte.x00; Byte.x00])
               (new_platform false) in
  receive_queue out.2 = [frame] /\
  partMsg out.2 = [Byte.xff; Byte.x21; Byte.x08; Byte.x00; Byte.x00].
Proof. vm_compute. split; reflexivity. Qed.

Lemma input_frame_shape intf f :
  input_frame intf f = true ->
  length f = 7%nat /\
  exists a b rest, f = a :: b :: rest /\ is_gen2_addr a = true /\
                   (ord b =? ord (READ_GEN2_INP_CMD intf)) = true.
Proof.
  unfold input_frame. destruct f as [|a [|b rest]]; try discriminate.
  intros H. apply andb_prop in H. destruct H as [H H7].
  apply andb_prop in H. destruct H as [Ha Hb].
  apply Nat.eqb_eq in H7. split; [exact H7|]. now exists a, b, rest.
Qed.

Lemma split_frames_frames intf (fs : list (list byte)) (r : list byte) :
  forallb (input_frame intf) fs = true -> (length r < 7)%nat ->
  split_frames intf (concat fs ++ r) = (fs, r).
Proof.
  intros Hfs Hr. induction fs as [|f fs IH]; rewrite split_frames_step.
  - cbn [concat app]. destruct (Nat.leb_spec 7 (length r)); [lia | reflexivity].
  - simpl in Hfs. apply andb_prop in Hfs. destruct Hfs as [Hf Hfs].
    destruct (input_frame_shape intf f Hf) as (H7 & a & b & rest & -> & Ha & Hb).
    cbn [concat]. rewrite <- app_assoc.
    destruct (Nat.leb_spec 7 (length ((a :: b :: rest) ++ concat fs ++ r))) as [H|H];
      [|rewrite length_app in H; lia].
    cbn [app]. rewrite Ha, Hb.
    change (a :: b :: rest ++ concat fs ++ r) with ((a :: b :: rest) ++ concat fs ++ r).
    rewrite <- H7 at 1 2 3.
    rewrite take_app_length, drop_app_length, (IH Hfs). reflexivity.
Qed.

Lemma frames_prefix intf (fs : list (list byte)) : forall (b rest r : list byte),
  forallb (input_frame intf) fs = true ->
  b ++ rest = concat fs ++ r -> (length r < 7)%nat ->
  exists fs1 fs2 r1,
    fs = fs1 ++ fs2 /\ b = concat fs1 ++ r1 /\ (length r1 < 7)%nat /\
    r1 ++ rest = concat fs2 ++ r.
Proof.
  induction fs as [|f fs IH]; intros b rest r Hfs Heq Hr.
  - exists [], [], b. simpl in *. repeat split; auto.
    apply (f_equal length) in Heq. rewrite length_app in Heq. lia.
  - simpl in Hfs. apply andb_prop in Hfs. destruct Hfs as [Hf Hfs].
    destruct (input_frame_shape intf f Hf) as (H7 & _).
    destruct (Nat.lt_ge_cases (length b) 7) as [Hb|Hb].
    + exists [], (f :: fs), b. simpl. repeat split; auto.
    + cbn [concat] in Heq. rewrite <- app_assoc in Heq.
      assert (Hbf : b = f ++ drop 7 b).
      { rewrite <- (take_drop 7 b) at 1. f_equal.
        apply (f_equal (take 7)) in Heq.
        rewrite take_app_le in Heq by lia.
        rewrite <- H7 in Heq at 2. rewrite take_app_length in Heq. exact Heq. }
      rewrite Hbf, <- app_assoc in Heq. apply app_inv_head in Heq.
      destruct (IH (drop 7 b) rest r Hfs Heq Hr) as (fs1 & fs2 & r1 & -> & Hb1 & Hr1 & Hrest).
      exists (f :: fs1), fs2, r1. repeat split; auto.
      cbn [concat]. rewrite <- app_assoc, <- Hb1. exact Hbf.
Qed.

Lemma receive_eq intf resp s :
  receive intf resp s =
  (Ok tt,
   set_partMsg (split_frames intf (partMsg s ++ resp)).2
     (set_receive_queue (receive_queue s ++ (split_frames intf (partMsg s ++ resp)).1) s)).
Proof. now destruct s. Qed.

Lemma receive_chunks intf (chunks : list (list byte)) : forall fs r s,
  forallb (input_frame intf) fs = true -> (length r < 7)%nat ->
  (length (partMsg s) < 7)%nat ->
  partMsg s ++ concat chunks = concat fs ++ r ->
  exists s',
    for_each chunks (receive intf) s = (Ok tt, s') /\
    receive_queue s' = receive_queue s ++ fs /\
    partMsg s' = r.
Proof.
  induction chunks as [|c chunks IH]; intros fs r s Hfs Hr Hp Heq.
  - exists s. simpl in *. rewrite app_nil_r in Heq. split; [reflexivity|].
    destruct fs as [|f fs].
    + simpl in Heq. rewrite app_nil_r. now split.
    + simpl in Hfs. apply andb_prop in Hfs. destruct Hfs as [Hf _].
      destruct (input_frame_shape intf f Hf) as (H7 & _).
      apply (f_equal length) in Heq. cbn [concat] in Heq.
      rewrite !length_app in Heq. lia.
  - cbn [concat] in Heq. rewrite app_assoc in Heq.
    destruct (frames_prefix intf fs (partMsg s ++ c) (concat chunks) r Hfs Heq Hr)
      as (fs1 & fs2 & r1 & -> & Hb & Hr1 & Hrest).
    rewrite forallb_app in Hfs. apply andb_prop in Hfs. destruct Hfs as [Hfs1 Hfs2].
    pose proof (receive_eq intf c s) as Hrecv.
    rewrite Hb, (split_frames_frames intf fs1 r1 Hfs1 Hr1) in Hrecv. cbn [fst snd] in Hrecv.
    set (s1 := set_partMsg r1 (set_receive_queue (receive_queue s ++ fs1) s)) in *.
    destruct (IH fs2 r s1 Hfs2 Hr) as (s' & Hrun & Hq & Hpm).
    { unfold s1. now destruct s. }
    { unfold s1. destruct s; simpl. exact Hrest. }
    exists s'. split.
    + simpl. unfold bind. now rewrite Hrecv.
    + split; [|exact Hpm]. rewrite Hq. unfold s1. destruct s; simpl.
      now rewrite app_assoc.
Qed.

(** X13. Read-inputs sub-frames that reach the receive loop cut up over
    any number of reads come out whole: starting from an empty buffer, once
    all the reads are in, the queue has gained exactly the sub-frames sent,
    in order, and the buffer holds the bytes that follow them. *)
Theorem X13_frames_survive_any_chunking (intf : OppRs232Intf)
    (fs chunks : list (list byte)) (r : list byte) (s : platform) :
  forallb (input_frame intf) fs = true ->
  (length r < 7)%nat ->
  concat chunks = concat fs ++ r ->
  partMsg s = [] ->
  exists s',
    for_each chunks (receive intf) s = (Ok tt, s') /\
    receive_queue s' = receive_queue s ++ fs /\
    partMsg s' = r.
Proof.
  intros Hfs Hr Heq Hp.
  apply (receive_chunks intf chunks fs r s Hfs Hr).
  - rewrite Hp. simpl. lia.
  - now rewrite Hp.
Qed.

(** One sub-frame and the first byte of the next, read in two pieces. *)
Lemma X13_witness :
  exists s',
    for_each [[Byte.x20; Byte.x08; Byte.x00];
              [Byte.x00; Byte.x00; Byte.x01; Byte.x8a; Byte.x20]]
      (receive sample_intf) (new_platform false) = (Ok tt, s') /\
    receive_queue s'
    = [[Byte.x20; Byte.x08; Byte.x00; Byte.x00; Byte.x00; Byte.x01; Byte.x8a]] /\
    partMsg s' = [Byte.x20].
Proof.
  apply (X13_frames_survive_any_chunking sample_intf
           [[Byte.x20; Byte.x08; Byte.x00; Byte.x00; Byte.x00; Byte.x01; Byte.x8a]]
           [[Byte.x20; Byte.x08; Byte.x00];
            [Byte.x00; Byte.x00; Byte.x01; Byte.x8a; Byte.x20]]
           [Byte.x20] (new_platform false));
    [reflexivity | simpl; lia | reflexivity | reflexivity].
Defined.


(** ** The inventory response *)

Definition is_gen2_card (intf : OppRs232Intf) (b : byte) : bool :=
  Z.land (ord b) (ord (CARD_ID_TYPE_MASK intf)) =? ord (CARD_ID_GEN2_CARD intf).

Definition not_eom (intf : OppRs232Intf) (b : byte) : bool :=
  negb (ord b =? ord (EOM_CMD intf)).

Lemma inv_loop_boards intf (body : list byte) : forall (tail : list byte) (s : platform),
  forallb (not_eom intf) body = true ->
  exists s',
    inv_loop intf (body ++ tail) s = inv_loop intf tail s' /\
    gen2AddrArr s' = gen2AddrArr s ++ map ord (List.filter (is_gen2_card intf) body) /\
    numGen2Brd s' =
      numGen2Brd s + Z.of_nat (length (List.filter (is_gen2_card intf) body)) /\
    currInpData s' =
      currInpData s ++ map (fun _ => 0) (List.filter (is_gen2_card intf) body) /\
    log s' = log s.
Proof.
  induction body as [|b body IH]; intros tail s Hb.
  - exists s. simpl. rewrite !app_nil_r. repeat split; auto. lia.
  - simpl in Hb. apply andb_prop in Hb. destruct Hb as [Hb Hbody].
    unfold not_eom in Hb. apply negb_true_iff in Hb.
    cbn [app inv_loop List.filter]. rewrite Hb. fold (is_gen2_card intf b).
    destruct (is_gen2_card intf b) eqn:Eg.
    + set (s1 := set_currInpData (currInpData s ++ [0])
                   (set_gen2AddrArr (gen2AddrArr s ++ [ord b])
                      (set_numGen2Brd (numGen2Brd s + 1) s))).
      destruct (IH tail s1 Hbody) as (s' & Hrun & Ha & Hn & Hc & Hl).
      exists s'. split; [|repeat split].
      * rewrite <- Hrun. unfold bind, when, modify, s1. now destruct s.
      * rewrite Ha. unfold s1. destruct s; simpl. now rewrite <- app_assoc.
      * rewrite Hn. unfold s1. destruct s; simpl length; simpl numGen2Brd. lia.
      * rewrite Hc. unfold s1. destruct s; simpl. now rewrite <- app_assoc.
      * rewrite Hl. unfold s1. now destruct s.
    + destruct (IH tail s Hbody) as (s' & Hrun & Ha & Hn & Hc & Hl).
      exists s'. split; [|repeat split; assumption].
      rewrite <- Hrun. reflexivity.
Qed.

(** X14. An inventory response is read from its second byte up to the
    first end-of-message byte.  Every byte in between whose type bits are
    those of a Gen2 card is recorded as a board, in order: its address is
    appended to the address list, a zero to the input data, and the board
    count goes up by one each.  The count is then logged. *)
Theorem X14_inventory_lists_the_gen2_boards (intf : OppRs232Intf) (b0 e : byte)
    (body tail : list byte) (s : platform) :
  forallb (not_eom intf) body = true ->
  ord e = ord (EOM_CMD intf) ->
  let found := List.filter (is_gen2_card intf) body in
  exists s',
    inv_resp intf (b0 :: body ++ e :: tail) s = (Ok tt, s') /\
    gen2AddrArr s' = gen2AddrArr s ++ map ord found /\
    numGen2Brd s' = numGen2Brd s + Z.of_nat (length found) /\
    currInpData s' = currInpData s ++ map (fun _ => 0) found /\
    log s' = log s ++ [DebugInvResp; InfoFoundBoards (numGen2Brd s')].
Proof.
  intros Hbody He found.
  set (s0 := set_log (log s ++ [DebugInvResp]) s).
  destruct (inv_loop_boards intf body (e :: tail) s0 Hbody) as (s1 & Hrun & Ha & Hn & Hc & Hl).
  exists (set_log (log s1 ++ [InfoFoundBoards (numGen2Brd s1)]) s1).
  split; [|repeat split].
  - assert (Hstart : inv_resp intf (b0 :: body ++ e :: tail) s =
                     (inv_loop intf (body ++ e :: tail) ;;
                      n <- gets numGen2Brd ;;
                      log_msg (InfoFoundBoards n)) s0) by reflexivity.
    rewrite Hstart. unfold bind at 1. rewrite Hrun.
    cbn [inv_loop]. rewrite He, Z.eqb_refl. reflexivity.
  - destruct s1; simpl in *. rewrite Ha. unfold s0. now destruct s.
  - destruct s1; simpl in *. rewrite Hn. unfold s0. now destruct s.
  - destruct s1; simpl in *. rewrite Hc. unfold s0. now destruct s.
  - destruct s1; simpl in *. rewrite Hl. unfold s0. destruct s; simpl.
    now rewrite <- app_assoc.
Qed.

(** An inventory naming the cards at [0x20] and [0x21]. *)
Lemma X14_witness :
  exists s',
    inv_resp sample_intf [Byte.xf0; Byte.x20; Byte.x21; Byte.xff] (new_platform false)
    = (Ok tt, s') /\
    gen2AddrArr s' = [0x20; 0x21] /\
    numGen2Brd s' = 2.
Proof.
  destruct (X14_inventory_lists_the_gen2_boards sample_intf Byte.xf0 Byte.xff
              [Byte.x20; Byte.x21] [] (new_platform false))
    as (s' & Hrun & Haddr & Hnum & _); [reflexivity | reflexivity |].
  exists s'. split; [exact Hrun|]. split; [exact Haddr | exact Hnum].
Defined.

Lemma inv_loop_no_eom intf (body : list byte) (s : platform) :
  forallb (not_eom intf) body = true ->
  exists s',
    inv_loop intf body s = (Raise IndexError, s') /\
    gen2AddrArr s' = gen2AddrArr s ++ map ord (List.filter (is_gen2_card intf) body) /\
    numGen2Brd s' =
      numGen2Brd s + Z.of_nat (length (List.filter (is_gen2_card intf) body)).
Proof.
  intros Hb.
  destruct (inv_loop_boards intf body [] s Hb) as (s' & Hrun & Ha & Hn & _ & _).
  exists s'. rewrite app_nil_r in Hrun. rewrite Hrun. now repeat split.
Qed.

(** X15. An inventory response with no end-of-message byte after its
    first byte, the empty message included, raises [IndexError] when the
    scan runs off its end; the boards seen on the way stay recorded. *)
Theorem X15_inventory_without_end_of_message (intf : OppRs232Intf) (msg : list byte)
    (s : platform) :
  forallb (not_eom intf) (drop 1 msg) = true ->
  let found := List.filter (is_gen2_card intf) (drop 1 msg) in
  exists s',
    inv_resp intf msg s = (Raise IndexError, s') /\
    gen2AddrArr s' = gen2AddrArr s ++ map ord found /\
    numGen2Brd s' = numGen2Brd s + Z.of_nat (length found).
Proof.
  intros Hbody found.
  set (s0 := set_log (log s ++ [DebugInvResp]) s).
  destruct (inv_loop_no_eom intf (drop 1 msg) s0 Hbody) as (s1 & Hrun & Ha & Hn).
  exists s1. split; [|split].
  - assert (Hstart : inv_resp intf msg s =
                     (inv_loop intf (drop 1 msg) ;;
                      n <- gets numGen2Brd ;;
                      log_msg (InfoFoundBoards n)) s0) by reflexivity.
    rewrite Hstart. unfold bind at 1. now rewrite Hrun.
  - rewrite Ha. unfold s0. now destruct s.
  - rewrite Hn. unfold s0. now destruct s.
Qed.

(** The same inventory cut off before its end-of-message byte. *)
Lemma X15_witness :
  exists s',
    inv_resp sample_intf [Byte.xf0; Byte.x20; Byte.x21] (new_platform false)
    = (Raise IndexError, s') /\
    gen2AddrArr s' = [0x20; 0x21] /\
    numGen2Brd s' = 2.
Proof.
  apply (X15_inventory_without_end_of_message sample_intf
           [Byte.xf0; Byte.x20; Byte.x21] (new_platform false)).
  reflexivity.
Defined.


(** ** Firmware versions *)

(** The lowest version seen is at most [m0] and at most every version
    recorded. *)
Definition versions_bounded (m0 : Z) (s : platform) : Prop :=
  minVersion s <= m0 /\ Forall (fun v => minVersion s <= v) (oppFirmwareVers s).

Lemma vers_loop_bounded intf m0 (msg : list byte) (passes : nat) : forall idx,
  hoare (versions_bounded m0) (vers_loop intf passes msg idx)
        (fun _ => versions_bounded m0) (versions_bounded m0).
Proof.
  set (I := versions_bounded m0).
  assert (I_log : forall s l, I s -> I (set_log l s)) by (intros [] l H; exact H).
  induction passes as [|passes IH]; intros idx; simpl; [now apply h_raise|].
  eapply h_bind; [apply h_crc|]. intros c.
  eapply h_bind; [apply h_msg_at_any|]. intros got.
  destruct (negb (got =? c)).
  { apply (h_bind _ _ _ (fun _ => I)); [|intros u; now apply h_log].
    apply h_modify. now intros [] H. }
  eapply h_bind; [apply h_msg_at_any|]. intros b2.
  eapply h_bind; [apply h_msg_at_any|]. intros b3.
  eapply h_bind; [apply h_msg_at_any|]. intros b4.
  eapply h_bind; [apply h_msg_at_any|]. intros b5.
  set (version := Z.lor (Z.lor (Z.lor (Z.shiftl b2 24) (Z.shiftl b3 16)) (Z.shiftl b4 8)) b5).
  apply (h_bind _ _ _ (fun _ => I)); [now apply h_log|]. intros u.
  apply (h_bind _ _ _ (fun _ s => I s /\ minVersion s <= version)).
  { apply h_modify. unfold I, versions_bounded. intros s [Hm Hv].
    destruct (Z.ltb_spec version (minVersion s)) as [Hlt|Hge].
    - destruct s; simpl in *. repeat split; [lia| |lia].
      eapply Forall_impl; [exact Hv|]. simpl. intros v Hle. lia.
    - now repeat split. }
  intros u1. apply (h_bind _ _ _ (fun _ s => I s /\ minVersion s <= version)).
  { destruct (version =? BAD_FW_VERSION); [apply h_raise | apply h_ret]; tauto. }
  intros u2. apply (h_bind _ _ _ (fun _ => I)).
  { apply h_modify. unfold I, versions_bounded. intros s [[Hm Hv] Hnew].
    destruct s; simpl in *.
    split; [exact Hm|]. apply Forall_app. split; [exact Hv|]. now constructor. }
  intros u3. eapply h_bind; [apply h_msg_at_any|]. intros e.
  destruct (e =? ord (EOM_CMD intf)); [now apply h_ret|].
  eapply h_bind; [apply h_msg_at_any|]. intros n.
  destruct (n =? ord (GET_GET_VERS_CMD intf)); [apply IH | now apply h_log].
Qed.

(** X16. Processing a version response never raises the lowest firmware
    version on record, and keeps it at or below every version recorded,
    whether the response is accepted, cut short by a bad CRC, or aborted by
    an exception. *)
Theorem X16_lowest_version_is_a_lower_bound (intf : OppRs232Intf) (msg : list byte)
    (s : platform) :
  Forall (fun v => minVersion s <= v) (oppFirmwareVers s) ->
  let s' := (vers_resp intf msg s).2 in
  minVersion s' <= minVersion s /\
  Forall (fun v => minVersion s' <= v) (oppFirmwareVers s').
Proof.
  intros Hs.
  apply (hoare_run (versions_bounded (minVersion s)) (vers_resp intf msg)
           (versions_bounded (minVersion s)) s).
  - unfold vers_resp.
    apply (h_bind _ _ _ (fun _ => versions_bounded (minVersion s))).
    + apply h_log. now intros [] l H.
    + intros u. apply vers_loop_bounded.
  - split; [lia | exact Hs].
Qed.

(** A platform that knows the card at [0x20] and hears its version. *)
Lemma X16_witness :
  minVersion
    (vers_resp sample_intf
       [Byte.x20; Byte.x02; Byte.x00; Byte.x01; Byte.x02; Byte.x03;
        sample_crc8 [Byte.x20; Byte.x02; Byte.x00; Byte.x01; Byte.x02; Byte.x03]; Byte.xff]
       (inv_resp sample_intf [Byte.xf0; Byte.x20; Byte.xff] (new_platform false)).2).2
  <= minVersion (inv_resp sample_intf [Byte.xf0; Byte.x20; Byte.xff] (new_platform false)).2 /\
  Forall (fun v =>
            minVersion
              (vers_resp sample_intf
                 [Byte.x20; Byte.x02; Byte.x00; Byte.x01; Byte.x02; Byte.x03;
                  sample_crc8 [Byte.x20; Byte.x02; Byte.x00; Byte.x01; Byte.x02; Byte.x03];
                  Byte.xff]
                 (inv_resp sample_intf [Byte.xf0; Byte.x20; Byte.xff]
                    (new_platform false)).2).2 <= v)
         (oppFirmwareVers
            (vers_resp sample_intf
               [Byte.x20; Byte.x02; Byte.x00; Byte.x01; Byte.x02; Byte.x03;
                sample_crc8 [Byte.x20; Byte.x02; Byte.x00; Byte.x01; Byte.x02; Byte.x03];
                Byte.xff]
               (inv_resp sample_intf [Byte.xf0; Byte.x20; Byte.xff]
                  (new_platform false)).2).2).
Proof.
  apply (X16_lowest_version_is_a_lower_bound sample_intf
           [Byte.x20; Byte.x02; Byte.x00; Byte.x01; Byte.x02; Byte.x03;
            sample_crc8 [Byte.x20; Byte.x02; Byte.x00; Byte.x01; Byte.x02; Byte.x03]; Byte.xff]
           (inv_resp sample_intf [Byte.xf0; Byte.x20; Byte.xff] (new_platform false)).2).
  vm_compute. constructor.
Defined.


(** ** The configuration response *)

(** The poll message built so far holds one read-inputs command for
    each input card added to the cards at the addresses [base]. *)
Definition polled (intf : OppRs232Intf) (base : list Z) (whole_msg : list byte)
    (s : platform) : Prop :=
  exists bs : list byte,
    whole_msg = concat (map (inp_msg intf) bs) /\
    map addr (opp_inputs s) = base ++ map ord bs.

Lemma polled_frame intf base w s s' :
  opp_inputs s' = opp_inputs s -> polled intf base w s -> polled intf base w s'.
Proof. intros Heq (bs & Hw & Hc). exists bs. now rewrite Heq. Qed.

Lemma cfg_loop_polled intf base (msg : list byte) (passes : nat) : forall idx whole,
  hoare (polled intf base whole) (cfg_loop intf passes msg idx whole)
        (fun w s => polled intf base w s) (fun _ => True).
Proof.
  induction passes as [|passes IH]; intros idx whole; simpl; [now apply h_raise|].
  set (P := polled intf base whole).
  assert (P_frame : forall (f : platform -> platform),
             (forall s, opp_inputs (f s) = opp_inputs s) ->
             hoare P (modify f) (fun _ => P) (fun _ => True)).
  { intros f Hf. apply h_modify. intros s. apply polled_frame, Hf. }
  apply (h_bind _ _ _ (fun _ => P)).
  { eapply h_conseq; [apply (h_crc P) | auto | auto | auto]. }
  intros c. apply (h_bind _ _ _ (fun _ => P)).
  { eapply h_conseq; [apply (h_msg_at_any P) | auto | auto | auto]. }
  intros got. destruct (negb (got =? c)).
  { apply (h_bind _ _ _ (fun _ => P)); [apply P_frame; now intros []|]. intros u.
    apply (h_bind _ _ _ (fun _ => P)); [apply P_frame; now intros []|]. intros u1.
    now apply h_ret. }
  apply (h_bind _ _ _ (fun _ => P)).
  { eapply h_conseq;
      [apply (h_wing_masks P (fun _ => True)); auto | auto | | auto].
    now intros a s [Hs _]. }
  intros [[[neo sol] inp] inc].
  apply (h_bind _ _ _ (fun a s => P s /\ exists b, msg !! idx = Some b /\ a = ord b)).
  { eapply h_conseq; [apply (h_msg_at P) | auto | auto | auto]. }
  intros a. apply h_pure. intros (b & Hb & ->).
  apply (h_bind _ _ _ (fun _ => P)).
  { apply h_when; [|auto]. intros _. unfold new_incand_card.
    apply (h_bind _ _ _ (fun _ => P)); [apply P_frame; now intros []|]. intros u.
    apply P_frame. now intros []. }
  intros u. apply (h_bind _ _ _ (fun _ => P)).
  { apply h_when; [|auto]. intros _. unfold new_solenoid_card.
    apply (h_bind _ _ _ (fun _ => P)); [apply P_frame; now intros []|]. intros u0.
    apply P_frame. now intros []. }
  intros u1. rewrite Hb.
  set (whole' := if negb (inp =? 0) then whole ++ inp_msg intf b else whole).
  apply (h_bind _ _ _ (fun _ => polled intf base whole')).
  { unfold whole'. apply h_when; [|intros ->; auto]. intros ->. unfold new_input_card.
    apply (h_bind _ _ _ (fun _ => P)); [apply P_frame; now intros []|]. intros u2.
    apply (h_bind _ _ _ (fun _ => P)); [apply P_frame; now intros []|]. intros u3.
    apply h_modify. intros s (bs & Hw & Hc). exists (bs ++ [b]). split.
    - rewrite map_app, concat_app, Hw. cbn [map concat]. now rewrite app_nil_r.
    - destruct s; simpl in *. rewrite !map_app, Hc. simpl. now rewrite app_assoc. }
  intros u2.
  assert (P'_frame : forall (f : platform -> platform),
             (forall s, opp_inputs (f s) = opp_inputs s) ->
             hoare (polled intf base whole') (modify f)
                   (fun _ => polled intf base whole') (fun _ => True)).
  { intros f Hf. apply h_modify. intros s. apply polled_frame, Hf. }
  apply (h_bind _ _ _ (fun _ => polled intf base whole')).
  { apply h_when; [|auto]. intros _. unfold new_neopixel_card.
    apply (h_bind _ _ _ (fun _ => polled intf base whole'));
      [apply P'_frame; now intros []|]. intros u3.
    apply P'_frame. now intros []. }
  intros u3. apply (h_bind _ _ _ (fun _ => polled intf base whole')).
  { eapply h_conseq; [apply (h_msg_at_any (polled intf base whole')) | auto | auto | auto]. }
  intros e. destruct (e =? ord (EOM_CMD intf)); [now apply h_ret|].
  apply (h_bind _ _ _ (fun _ => polled intf base whole')).
  { eapply h_conseq; [apply (h_msg_at_any (polled intf base whole')) | auto | auto | auto]. }
  intros n. destruct (n =? ord (GET_GEN2_CFG intf)); [apply IH|].
  apply (h_bind _ _ _ (fun _ => polled intf base whole'));
    [apply P'_frame; now intros []|]. intros u4. now apply h_ret.
Qed.

(** X17. After a configuration response that is processed without an
    exception, the message used to poll the inputs holds one read-inputs
    command for each input card that response created, in the order the
    cards were created, followed by the end-of-message byte.  Cards known
    before are not in it. *)
Theorem X17_poll_message_follows_the_new_input_cards (intf : OppRs232Intf)
    (msg : list byte) (s s' : platform) :
  get_gen2_cfg_resp intf msg s = (Ok tt, s') ->
  exists bs : list byte,
    read_input_msg s' = concat (map (inp_msg intf) bs) ++ [EOM_CMD intf] /\
    map addr (opp_inputs s') = map addr (opp_inputs s) ++ map ord bs.
Proof.
  intros Hrun.
  assert (H : hoare (polled intf (map addr (opp_inputs s)) [])
                (get_gen2_cfg_resp intf msg)
                (fun _ s1 => exists bs : list byte,
                   read_input_msg s1 = concat (map (inp_msg intf) bs) ++ [EOM_CMD intf] /\
                   map addr (opp_inputs s1) = map addr (opp_inputs s) ++ map ord bs)
                (fun _ => True)).
  { unfold get_gen2_cfg_resp.
    apply (h_bind _ _ _ (fun _ => polled intf (map addr (opp_inputs s)) [])).
    { apply h_modify. intros s0. apply polled_frame. now destruct s0. }
    intros u. eapply h_bind; [apply cfg_loop_polled|]. intros w.
    apply h_modify. intros s1 (bs & -> & Hc). exists bs. split; [now destruct s1|].
    now destruct s1. }
  specialize (H s). rewrite Hrun in H. apply H.
  exists []. simpl. now rewrite app_nil_r.
Qed.

(** The configuration response of one card with an input wing. *)
Lemma X17_witness :
  exists bs : list byte,
    read_input_msg (one_card false)
    = concat (map (inp_msg sample_intf) bs) ++ [EOM_CMD sample_intf] /\
    map addr (opp_inputs (one_card false)) = map ord bs.
Proof.
  apply (X17_poll_message_follows_the_new_input_cards sample_intf
           (cfg_frame Byte.x20 ++ [Byte.xff]) (new_platform false) (one_card false)).
  vm_compute. reflexivity.
Defined.


(** ** Solenoids and their switches *)

Lemma matching_sw_wing (k : Z) :
  0 <= k < 16 -> matching_sw k = 8 * (k / 4) + k mod 4.
Proof.
  intros Hk.
  assert (H : k = 0 \/ k = 1 \/ k = 2 \/ k = 3 \/ k = 4 \/ k = 5 \/ k = 6 \/ k = 7 \/
              k = 8 \/ k = 9 \/ k = 10 \/ k = 11 \/ k = 12 \/ k = 13 \/ k = 14 \/ k = 15)
    by lia.
  repeat (destruct H as [->|H]; [reflexivity|]). now subst k.
Qed.

Lemma testbit_nibble (j : Z) : Z.testbit 0x0f j = true -> 0 <= j < 4.
Proof.
  intros H. destruct (Z.ltb_spec j 0) as [Hn|Hp].
  - now rewrite Z.testbit_neg_r in H.
  - destruct (Z.ltb_spec j 4) as [H4|H4]; [lia|].
    replace 0x0f with (0x0f mod 2 ^ 4) in H by reflexivity.
    rewrite Z.mod_pow2_bits_high in H by lia. discriminate.
Qed.

Lemma nibble_testbit (j : Z) : 0 <= j < 4 -> Z.testbit 0x0f j = true.
Proof.
  intros H. assert (Hj : j = 0 \/ j = 1 \/ j = 2 \/ j = 3) by lia.
  destruct Hj as [->|[->|[->| ->]]]; reflexivity.
Qed.

(** Every solenoid bit below 16 has the bit of its matching switch set in
    the input mask. *)
Definition masks_fit (masks : bool * Z * Z * Z) : Prop :=
  let '(_, sol_mask, inp_mask, _) := masks in
  forall k, 0 <= k < 16 -> Z.testbit sol_mask k = true ->
            Z.testbit inp_mask (matching_sw k) = true.

Lemma masks_fit_step neo sol inp inc (w : nat) :
  masks_fit (neo, sol, inp, inc) ->
  masks_fit (neo, Z.lor sol (Z.shiftl 0x0f (4 * Z.of_nat w)),
             Z.lor inp (Z.shiftl 0x0f (8 * Z.of_nat w)), inc) /\
  masks_fit (neo, sol, Z.lor inp (Z.shiftl 0xff (8 * Z.of_nat w)), inc) /\
  masks_fit (neo, sol, inp, Z.lor inc (Z.shiftl 0xff (8 * Z.of_nat w))) /\
  masks_fit (true, sol, inp, inc).
Proof.
  intros H. unfold masks_fit in *. repeat split; auto.
  - intros k Hk Hbit. rewrite Z.lor_spec in Hbit |- *.
    apply orb_true_iff in Hbit. destruct Hbit as [Hold|Hnew].
    + now rewrite (H k Hk Hold).
    + apply orb_true_iff. right.
      rewrite Z.shiftl_spec in Hnew by lia. apply testbit_nibble in Hnew.
      rewrite (matching_sw_wing k Hk).
      assert (Hq : k / 4 = Z.of_nat w)
        by (symmetry; apply Z.div_unique with (k - 4 * Z.of_nat w); lia).
      assert (Hr : k mod 4 = k - 4 * Z.of_nat w)
        by (symmetry; apply Z.mod_unique with (Z.of_nat w); lia).
      rewrite Hq, Hr. rewrite Z.shiftl_spec by lia. apply nibble_testbit. lia.
  - intros k Hk Hbit. rewrite Z.lor_spec, (H k Hk Hbit). reflexivity.
Qed.

Lemma elem_of_add_keys (ks d : list string) (x : string) :
  x ∈ add_keys d ks <-> x ∈ d \/ x ∈ ks.
Proof.
  unfold add_keys. revert d. induction ks as [|k ks IH]; intros d; simpl.
  - split; [now left | intros [H|H]; [exact H | now apply elem_of_nil in H]].
  - rewrite IH. destruct (existsb (String.eqb k) d) eqn:E.
    + apply existsb_exists in E. destruct E as [y [Hin Hy]].
      apply String.eqb_eq in Hy. subst y. apply list_elem_of_In in Hin.
      rewrite elem_of_cons. split; [tauto|]. intros [H|[->|H]]; auto.
    + rewrite elem_of_app, list_elem_of_singleton, elem_of_cons. tauto.
Qed.

Lemma elem_of_channels (card : string) (m : Z) (n : nat) (key : string) :
  key ∈ channels card m n <->
  exists i : nat, (i < n)%nat /\ Z.testbit m (Z.of_nat i) = true /\
                  key = channel_number card i.
Proof.
  unfold channels. rewrite list_elem_of_fmap. split.
  - intros (i & -> & Hi). apply list_elem_of_In, filter_In in Hi.
    destruct Hi as [Hseq Hbit]. apply in_seq in Hseq.
    rewrite Z.shiftl_1_l, land_pow2_testbit, negb_involutive in Hbit by lia.
    exists i. repeat split; [lia | exact Hbit].
  - intros (i & Hi & Hbit & ->). exists i. split; [reflexivity|].
    apply list_elem_of_In, filter_In. split; [apply in_seq; lia|].
    now rewrite Z.shiftl_1_l, land_pow2_testbit, negb_involutive by lia.
Qed.

(** Each solenoid number on file names a card and a solenoid below 16
    whose matching switch on the same card is on file as well. *)
Definition solenoids_have_switches (s : platform) : Prop :=
  forall key, key ∈ solDict s ->
    exists (card : string) (k : nat),
      (k < 16)%nat /\ key = channel_number card k /\
      channel_number card (Z.to_nat (matching_sw (Z.of_nat k))) ∈ inpDict s.

Lemma have_switches_frame s s' :
  solDict s' = solDict s -> (forall x, x ∈ inpDict s -> x ∈ inpDict s') ->
  solenoids_have_switches s -> solenoids_have_switches s'.
Proof.
  intros Hs Hi H key Hkey. rewrite Hs in Hkey.
  destruct (H key Hkey) as (card & k & Hk & -> & Hin).
  exists card, k. repeat split; auto.
Qed.

Lemma matching_sw_bound (k : Z) : 0 <= k < 16 -> 0 <= matching_sw k < 32.
Proof.
  intros Hk. rewrite (matching_sw_wing k Hk).
  pose proof (Z.mod_pos_bound k 4). assert (0 <= k / 4 < 4); [|lia].
  split; [apply Z.div_pos; lia | apply Z.div_lt_upper_bound; lia].
Qed.

Lemma cfg_loop_switches intf (msg : list byte) (passes : nat) : forall idx whole,
  hoare solenoids_have_switches (cfg_loop intf passes msg idx whole)
        (fun _ => solenoids_have_switches) solenoids_have_switches.
Proof.
  set (J := solenoids_have_switches).
  assert (J_frame : forall (f : platform -> platform),
             (forall s, solDict (f s) = solDict s /\ inpDict (f s) = inpDict s) ->
             hoare J (modify f) (fun _ => J) J).
  { intros f Hf. apply h_modify. intros s. destruct (Hf s) as [H1 H2].
    apply have_switches_frame; [exact H1 | now rewrite H2]. }
  induction passes as [|passes IH]; intros idx whole; simpl; [now apply h_raise|].
  eapply h_bind; [apply h_crc|]. intros c.
  eapply h_bind; [apply h_msg_at_any|]. intros got.
  destruct (negb (got =? c)).
  { apply (h_bind _ _ _ (fun _ => J)); [apply J_frame; now intros []|]. intros u.
    apply (h_bind _ _ _ (fun _ => J)); [apply J_frame; now intros []|]. intros u1.
    now apply h_ret. }
  eapply h_bind.
  { apply (h_wing_masks J masks_fit).
    - intros k Hk Hbit. now rewrite Z.bits_0 in Hbit.
    - intros neo sol inp inc w. apply masks_fit_step. }
  intros [[[neo sol] inp] inc]. apply h_pure. intros Hfit.
  eapply h_bind; [apply h_msg_at_any|]. intros a.
  apply (h_bind _ _ _ (fun _ => J)).
  { apply h_when; [|auto]. intros _. unfold new_incand_card.
    apply (h_bind _ _ _ (fun _ => J)); [apply J_frame; now intros []|]. intros u.
    apply J_frame. now intros []. }
  intros u.
  set (Mid := fun s : platform =>
         forall key, key ∈ solDict s ->
           (exists (card : string) (k : nat),
              (k < 16)%nat /\ key = channel_number card k /\
              channel_number card (Z.to_nat (matching_sw (Z.of_nat k))) ∈ inpDict s) \/
           key ∈ channels (card_name intf a) sol 16).
  apply (h_bind _ _ _ (fun _ => Mid)).
  { apply h_when.
    - intros _. unfold new_solenoid_card.
      apply (h_bind _ _ _ (fun _ => Mid)).
      + apply h_modify. intros s Hs key Hkey. destruct s; simpl in *.
        apply elem_of_add_keys in Hkey. destruct Hkey as [Hkey|Hkey]; [left|now right].
        now apply Hs.
      + intros u0. apply h_modify. intros s Hs key Hkey. destruct s; simpl in *.
        now apply Hs.
    - intros _ s Hs key Hkey. left. now apply Hs. }
  intros u1.
  apply (h_bind _ _ _ (fun _ => J)).
  { assert (Hnew : forall key, key ∈ channels (card_name intf a) sol 16 ->
              exists (card : string) (k : nat),
                (k < 16)%nat /\ key = channel_number card k /\
                Z.testbit inp (matching_sw (Z.of_nat k)) = true /\
                channel_number card (Z.to_nat (matching_sw (Z.of_nat k)))
                  ∈ channels (card_name intf a) inp 32).
    { intros key Hkey. apply elem_of_channels in Hkey.
      destruct Hkey as (k & Hk & Hbit & ->).
      assert (Hm : Z.testbit inp (matching_sw (Z.of_nat k)) = true)
        by (apply Hfit; [lia | exact Hbit]).
      pose proof (matching_sw_bound (Z.of_nat k) ltac:(lia)) as Hb.
      exists (card_name intf a), k. repeat split; auto.
      apply elem_of_channels. exists (Z.to_nat (matching_sw (Z.of_nat k))).
      repeat split; [lia|]. now rewrite Z2Nat.id by lia. }
    apply h_when.
    - intros _. unfold new_input_card.
      apply (h_bind _ _ _ (fun _ => Mid)).
      { apply h_modify. intros s Hs. now destruct s. }
      intros u2.
      apply (h_bind _ _ _ (fun _ => J)).
      + apply h_modify. intros s Hs key Hkey. destruct s; simpl in *.
        destruct (Hs key Hkey) as [(card & k & Hk & -> & Hin)|Hin].
        * exists card, k. repeat split; auto. apply elem_of_add_keys. now left.
        * destruct (Hnew key Hin) as (card & k & Hk & -> & _ & Hin').
          exists card, k. repeat split; auto. apply elem_of_add_keys. now right.
      + intros u3. apply J_frame. now intros [].
    - intros Hinp s Hs key Hkey.
      destruct (Hs key Hkey) as [H|Hin]; [exact H|].
      destruct (Hnew key Hin) as (card & k & Hk & -> & Hbit & _).
      apply negb_false_iff, Z.eqb_eq in Hinp. subst inp.
      now rewrite Z.bits_0 in Hbit. }
  intros u2. apply (h_bind _ _ _ (fun _ => J)).
  { apply h_when; [|auto]. intros _. unfold new_neopixel_card.
    apply (h_bind _ _ _ (fun _ => J)); [apply J_frame; now intros []|]. intros u3.
    apply J_frame. now intros []. }
  intros u3. eapply h_bind; [apply h_msg_at_any|]. intros e.
  destruct (e =? ord (EOM_CMD intf)); [now apply h_ret|].
  eapply h_bind; [apply h_msg_at_any|]. intros n.
  destruct (n =? ord (GET_GEN2_CFG intf)); [apply IH|].
  apply (h_bind _ _ _ (fun _ => J)); [apply J_frame; now intros []|]. intros u4.
  now apply h_ret.
Qed.

(** X18. Processing a configuration response keeps the solenoid and
    switch numbers in step: when every solenoid number on file had the
    switch that [_verify_coil_and_switch_fit] asks for on file before, the
    same holds after, whether the response is accepted, cut short or aborted
    by an exception. *)
Theorem X18_every_solenoid_has_its_switch (intf : OppRs232Intf) (msg : list byte)
    (s : platform) :
  solenoids_have_switches s ->
  solenoids_have_switches (get_gen2_cfg_resp intf msg s).2.
Proof.
  intros Hs.
  apply (hoare_run solenoids_have_switches (get_gen2_cfg_resp intf msg)
           solenoids_have_switches s); [|exact Hs].
  unfold get_gen2_cfg_resp.
  apply (h_bind _ _ _ (fun _ => solenoids_have_switches)).
  { apply h_modify. intros s0. apply have_switches_frame; now destruct s0. }
  intros u. eapply h_bind; [apply cfg_loop_switches|]. intros w.
  apply h_modify. intros s1. apply have_switches_frame; now destruct s1.
Qed.

(** A card with a solenoid wing, heard by a platform that has no card
    yet. *)
Lemma X18_witness :
  solenoids_have_switches (new_platform false) /\
  solenoids_have_switches
    (get_gen2_cfg_resp sample_intf
       [Byte.x20; Byte.x0d; Byte.x01; Byte.x00; Byte.x00; Byte.x00;
        sample_crc8 [Byte.x20; Byte.x0d; Byte.x01; Byte.x00; Byte.x00; Byte.x00]; Byte.xff]
       (new_platform false)).2.
Proof.
  assert (H : solenoids_have_switches (new_platform false)).
  { intros key Hkey. simpl in Hkey. now apply elem_of_nil in Hkey. }
  split; [exact H|].
  apply (X18_every_solenoid_has_its_switch sample_intf
           [Byte.x20; Byte.x0d; Byte.x01; Byte.x00; Byte.x00; Byte.x00;
            sample_crc8 [Byte.x20; Byte.x0d; Byte.x01; Byte.x00; Byte.x00; Byte.x00]; Byte.xff]
           (new_platform false) H).
Defined.

(** ** Hardware numbers *)

Lemma split_on_no_sep (sep : ascii) (s : string) :
  (forall c, In c (list_ascii_of_string s) -> c <> sep) ->
  split_on sep s = [s].
Proof.
  induction s as [|c s IH]; intros H; simpl; [reflexivity|].
  destruct (Ascii.eqb_spec c sep) as [->|Hne].
  - exfalso. apply (H sep); [now left | reflexivity].
  - rewrite IH; [reflexivity|]. intros c' Hc'. apply H. now right.
Qed.

Definition no_dash (s : string) : bool :=
  forallb (fun c => negb (Ascii.eqb c "-"%char)) (list_ascii_of_string s).

Lemma no_dash_spec (s : string) :
  no_dash s = true -> forall c, In c (list_ascii_of_string s) -> c <> "-"%char.
Proof.
  unfold no_dash. rewrite forallb_forall. intros H c Hc.
  specialize (H c Hc). apply negb_true_iff in H. now apply Ascii.eqb_neq.
Qed.

Lemma split_on_append (card rest : string) :
  no_dash card = true ->
  split_on "-"%char (String.append card (String "-"%char rest))
  = card :: split_on "-"%char rest.
Proof.
  intros H. pose proof (no_dash_spec card H) as Hc. clear H.
  induction card as [|c card IH].
  - reflexivity.
  - change (String.append (String c card) (String "-"%char rest))
      with (String c (String.append card (String "-"%char rest))).
    cbn [split_on]. destruct (Ascii.eqb_spec c "-"%char) as [->|Hne].
    + exfalso. apply (Hc "-"%char); [now left | reflexivity].
    + rewrite IH; [reflexivity|]. intros c' Hc'. apply Hc. now right.
Qed.

Lemma pretty_index_parts (i : nat) :
  (i < 32)%nat ->
  no_dash (pretty i) = true /\ int_of (pretty i) = Ok (Z.of_nat i).
Proof.
  intros Hi.
  assert (H : forallb (fun i => no_dash (pretty i) &&
                        match int_of (pretty i) with
                        | Ok z => z =? Z.of_nat i
                        | Raise _ => false
                        end) (seq 0 32) = true) by (vm_compute; reflexivity).
  rewrite forallb_forall in H. specialize (H i).
  assert (Hin : In i (seq 0 32)) by (apply in_seq; lia).
  apply H in Hin. apply andb_prop in Hin. destruct Hin as [Hd Hint].
  split; [exact Hd|]. destruct (int_of (pretty i)) as [z|e]; [|discriminate].
  apply Z.eqb_eq in Hint. now subst z.
Qed.

(** A number the card constructors issue is taken apart again into the
    card's name and the channel. *)
Lemma number_parts (card : string) (i : nat) :
  no_dash card = true -> (i < 32)%nat ->
  two_parts (channel_number card i) = Ok (card, pretty i) /\
  int_of (pretty i) = Ok (Z.of_nat i).
Proof.
  intros Hc Hi. destruct (pretty_index_parts i Hi) as [Hd Hint].
  split; [|exact Hint]. unfold two_parts, channel_number.
  change (String.append "-" (pretty i)) with (String "-"%char (pretty i)).
  rewrite (split_on_append card (pretty i) Hc).
  rewrite (split_on_no_sep "-"%char (pretty i) (no_dash_spec _ Hd)). reflexivity.
Qed.


(** X19. For a coil and a switch whose numbers were issued by the card
    constructors (cards named without a dash, channels below 32), the
    check for a hardware rule passes exactly when both sit on the same card
    and the switch is the solenoid's matching one; every other pair is an
    [AssertionError]. *)
Theorem X19_coil_and_switch_fit (card sw_card : string) (sol sw : nat) :
  no_dash card = true -> no_dash sw_card = true ->
  (sol < 32)%nat -> (sw < 32)%nat ->
  _verify_coil_and_switch_fit (channel_number sw_card sw) (channel_number card sol)
  = if String.eqb card sw_card && (matching_sw (Z.of_nat sol) =? Z.of_nat sw)
    then Ok tt else Raise AssertionError.
Proof.
  intros Hc Hs Hsol Hsw. unfold _verify_coil_and_switch_fit.
  destruct (number_parts card sol Hc Hsol) as [-> ->].
  destruct (number_parts sw_card sw Hs Hsw) as [-> ->].
  destruct (String.eqb card sw_card); simpl; [|reflexivity].
  now destruct (matching_sw (Z.of_nat sol) =? Z.of_nat sw).
Qed.

Lemma X19_witness :
  _verify_coil_and_switch_fit (channel_number "0" 9) (channel_number "0" 5)
  = if String.eqb "0" "0" && (matching_sw (Z.of_nat 5) =? Z.of_nat 9)
    then Ok tt else Raise AssertionError.
Proof.
  apply (X19_coil_and_switch_fit "0" "0" 5 9); [reflexivity | reflexivity | lia | lia].
Defined.

(** ** Messages to the hardware *)

Lemma ord_byte_of (x : Z) : 0 <= x < 256 -> ord (byte_of x) = x.
Proof.
  intros Hx. unfold ord, byte_of.
  destruct (Byte.of_N (Z.to_N x)) as [b|] eqn:E.
  - apply Byte.to_of_N in E. rewrite E. lia.
  - apply Byte.of_N_None_iff in E. lia.
Qed.

Lemma append_byte_ok (msg : list byte) (x : Z) :
  0 <= x < 256 -> append_byte msg x = Ok (msg ++ [byte_of x]).
Proof.
  intros Hx. unfold append_byte.
  destruct (Z.leb_spec 0 x); [|lia]. destruct (Z.ltb_spec x 256); [|lia]. reflexivity.
Qed.

Lemma low_byte_range (x : Z) : 0 <= Z.land x 0xff < 256.
Proof.
  change 0xff with (Z.ones 8). rewrite Z.land_ones by lia.
  apply Z.mod_pos_bound. reflexivity.
Qed.

(** X23. Kicking solenoid [sol] of the card at [a] hands the communicator
    one message: the card address, the kick command, two value bytes, two
    mask bytes and the CRC.  The mask bytes hold the single bit [sol] of a
    16-bit word, most significant byte first, and nothing at all for a
    solenoid number of 16 or more; the value bytes repeat the mask to switch
    on and are zero to switch off. *)
Theorem X23_kick_message (intf : OppRs232Intf) (out : OppRs232IntfOut) (a sol : Z)
    (on : bool) (d : drivers) (q : list (list byte)) :
  0 <= a < 256 -> 0 <= sol ->
  opp_connection d = Some q ->
  exists hi lo : byte,
    256 * ord hi + ord lo = (if sol <? 16 then 2 ^ sol else 0) /\
    let body := [byte_of a] ++ KICK_SOL_CMD out
                ++ [if on then hi else Byte.x00; if on then lo else Byte.x00; hi; lo] in
    let cmd := body ++ [crc8 intf body] in
    _kick_coil intf out a sol on d
    = (Ok tt, set_opp_connection (Some (q ++ [cmd]))
                (set_debug_log (debug_log d ++ [DebugTriggeringSolenoid cmd]) d)).
Proof.
  intros Ha Hsol Hq.
  set (mask := Z.shiftl 1 sol).
  pose proof (low_byte_range (Z.shiftr mask 8)) as Hhi.
  pose proof (low_byte_range mask) as Hlo.
  exists (byte_of (Z.land (Z.shiftr mask 8) 0xff)), (byte_of (Z.land mask 0xff)).
  rewrite !ord_byte_of by assumption. split.
  - unfold mask. rewrite Z.shiftl_1_l. change 0xff with (Z.ones 8).
    rewrite !Z.land_ones, Z.shiftr_div_pow2 by lia.
    destruct (Z.ltb_spec sol 16) as [H16|H16].
    + assert (H : 0 <= 2 ^ sol < 2 ^ 16) by (split; [lia | apply Z.pow_lt_mono_r; lia]).
      change (2 ^ 16) with 65536 in H. change (2 ^ 8) with 256.
      rewrite (Z.mod_small (2 ^ sol / 256) 256)
        by (split; [apply Z.div_pos; lia | apply Z.div_lt_upper_bound; lia]).
      pose proof (Z.div_mod (2 ^ sol) 256). lia.
    + assert (H : 2 ^ sol = 2 ^ 16 * 2 ^ (sol - 16)).
      { rewrite <- Z.pow_add_r by lia. f_equal. lia. }
      change (2 ^ 8) with 256. rewrite H. change (2 ^ 16) with (256 * 256).
      rewrite <- !Z.mul_assoc, (Z.mul_comm 256 (256 * _)), Z.div_mul by lia.
      rewrite (Z.mul_comm 256 (2 ^ _)), !Z.mod_mul by lia. reflexivity.
  - cbv zeta. unfold _kick_coil. destruct (Z.ltb_spec sol 0) as [Hneg|_]; [lia|].
    fold mask. unfold bind, lift, debug, send, modify.
    rewrite (append_byte_ok [] a Ha). cbn [ret].
    destruct on.
    + repeat (rewrite append_byte_ok by assumption; cbn [ret]).
      destruct d; simpl in *. subst. rewrite <- !app_assoc. reflexivity.
    + rewrite (append_byte_ok _ 0) by lia. cbn [ret].
      rewrite (append_byte_ok _ 0) by lia. cbn [ret].
      repeat (rewrite append_byte_ok by assumption; cbn [ret]).
      destruct d; simpl in *. subst. rewrite <- !app_assoc. reflexivity.
Qed.

(** Solenoid 3 of the card at [0x20] switched on. *)
Lemma X23_witness :
  exists hi lo : byte,
    256 * ord hi + ord lo = 8 /\
    exists crc : byte,
      let cmd := [Byte.x20; Byte.x07; hi; lo; hi; lo; crc] in
      _kick_coil sample_intf sample_out 0x20 3 true (new_drivers (new_platform false))
      = (Ok tt, set_opp_connection (Some [cmd])
                  (set_debug_log [DebugTriggeringSolenoid cmd]
                     (new_drivers (new_platform false)))).
Proof.
  destruct (X23_kick_message sample_intf sample_out 0x20 3 true
              (new_drivers (new_platform false)) [])
    as (hi & lo & Hbits & Hrun); [lia | lia | reflexivity |].
  exists hi, lo. split; [exact Hbits|]. eexists. exact Hrun.
Defined.


Lemma low_byte_bits (x m : Z) :
  0 <= m -> Z.testbit (Z.land x 0xff) m = Z.testbit x m && (m <? 8).
Proof.
  intros Hm. change 0xff with (Z.ones 8).
  now rewrite Z.land_spec, Z.testbit_ones_nonneg by lia.
Qed.

Lemma state_bytes (st : Z) :
  state_of (byte_of (Z.land (Z.shiftr st 24) 0xff))
           (byte_of (Z.land (Z.shiftr st 16) 0xff))
           (byte_of (Z.land (Z.shiftr st 8) 0xff))
           (byte_of (Z.land st 0xff))
  = st mod 2 ^ 32.
Proof.
  unfold state_of. rewrite !ord_byte_of by apply low_byte_range.
  apply Z.bits_inj'. intros n Hn.
  rewrite !Z.lor_spec.
  destruct (Z.ltb_spec n 32) as [H32|H32].
  - rewrite Z.mod_pow2_bits_low by lia.
    destruct (Z.ltb_spec n 8) as [H8|H8].
    + rewrite !Z.shiftl_spec_low, low_byte_bits by lia.
      destruct (Z.ltb_spec n 8); [|lia]. simpl. now rewrite andb_true_r.
    + rewrite (low_byte_bits st n) by lia.
      destruct (Z.ltb_spec n 8) as [?|_]; [lia|]. rewrite andb_false_r, orb_false_r.
      destruct (Z.ltb_spec n 16) as [H16|H16].
      * rewrite (Z.shiftl_spec_low _ 24), (Z.shiftl_spec_low _ 16) by lia.
        rewrite Z.shiftl_spec, low_byte_bits, Z.shiftr_spec by lia.
        destruct (Z.ltb_spec (n - 8) 8); [|lia].
        simpl. rewrite andb_true_r. f_equal. lia.
      * rewrite (Z.shiftl_spec _ 8), low_byte_bits by lia.
        destruct (Z.ltb_spec (n - 8) 8) as [?|_]; [lia|].
        rewrite andb_false_r, orb_false_r.
        destruct (Z.ltb_spec n 24) as [H24|H24].
        -- rewrite (Z.shiftl_spec_low _ 24) by lia.
           rewrite Z.shiftl_spec, low_byte_bits, Z.shiftr_spec by lia.
           destruct (Z.ltb_spec (n - 16) 8); [|lia].
           simpl. rewrite andb_true_r. f_equal. lia.
        -- rewrite (Z.shiftl_spec _ 16), low_byte_bits by lia.
           destruct (Z.ltb_spec (n - 16) 8) as [?|_]; [lia|].
           rewrite andb_false_r, orb_false_r.
           rewrite Z.shiftl_spec, low_byte_bits, Z.shiftr_spec by lia.
           destruct (Z.ltb_spec (n - 24) 8); [|lia].
           rewrite andb_true_r. f_equal. lia.
  - rewrite Z.mod_pow2_bits_high by lia.
    rewrite !Z.shiftl_spec, !low_byte_bits by lia.
    destruct (Z.ltb_spec (n - 24) 8); [lia|].
    destruct (Z.ltb_spec (n - 16) 8); [lia|].
    destruct (Z.ltb_spec (n - 8) 8); [lia|].
    destruct (Z.ltb_spec n 8); [lia|].
    now rewrite !andb_false_r.
Qed.

(** X22. The message that updates the lights of an incandescent card is
    the card address, the two command strings, four state bytes and the
    CRC.  Read back the way an input response is decoded, the four bytes
    give the low 32 bits of the state: they are sent most significant byte
    first. *)
Theorem X22_light_state_bytes (intf : OppRs232Intf) (out : OppRs232IntfOut)
    (a st : Z) :
  0 <= a < 256 ->
  exists b3 b2 b1 b0 : byte,
    state_of b3 b2 b1 b0 = st mod 2 ^ 32 /\
    let body := [byte_of a] ++ INCAND_CMD out ++ INCAND_SET_ON_OFF out
                ++ [b3; b2; b1; b0] in
    incand_msg intf out a st = Ok (body ++ [crc8 intf body]).
Proof.
  intros Ha.
  exists (byte_of (Z.land (Z.shiftr st 24) 0xff)), (byte_of (Z.land (Z.shiftr st 16) 0xff)),
         (byte_of (Z.land (Z.shiftr st 8) 0xff)), (byte_of (Z.land st 0xff)).
  split; [apply state_bytes|].
  cbv zeta. unfold incand_msg.
  rewrite (append_byte_ok [] a Ha).
  repeat (rewrite append_byte_ok by apply low_byte_range).
  unfold calc_crc8_whole_msg. rewrite <- !app_assoc. reflexivity.
Qed.

(** The lights 0 and 2 of the card at [0x21]. *)
Lemma X22_witness :
  exists b3 b2 b1 b0 : byte,
    state_of b3 b2 b1 b0 = 5 /\
    exists crc : byte,
      incand_msg sample_intf sample_out 0x21 5
      = Ok [Byte.x21; Byte.x13; Byte.x01; b3; b2; b1; b0; crc].
Proof.
  destruct (X22_light_state_bytes sample_intf sample_out 0x21 5)
    as (b3 & b2 & b1 & b0 & Hst & Hmsg); [lia |].
  exists b3, b2, b1, b0. split; [exact Hst|]. eexists. exact Hmsg.
Defined.


(** ** Incandescent lights *)

Lemma incand_state_set (p q : nat) (st : Z * Z) (d : drivers) :
  incand_state (set_incand_state p st d) q
  = if Nat.eqb p q then st else incand_state d q.
Proof.
  unfold incand_state, set_incand_state. destruct d as [h l c r t g]. simpl.
  set (l' := l ++ replicate (S p - length l) (0, 0)).
  assert (Hlen : (p < length l')%nat).
  { unfold l'. rewrite length_app, length_replicate. lia. }
  destruct (Nat.eqb_spec p q) as [<-|Hne].
  - now rewrite list_lookup_insert_eq.
  - rewrite list_lookup_insert_ne by exact Hne. unfold l'.
    destruct (Nat.lt_ge_cases q (length l)) as [Hq|Hq].
    + now rewrite lookup_app_l.
    + rewrite lookup_app_r by exact Hq. rewrite (lookup_ge_None_2 l q Hq). simpl.
      destruct (replicate _ _ !! _) as [x|] eqn:E; [|reflexivity].
      apply lookup_replicate in E. now destruct E as [-> _].
Qed.

(** X20. Switching a light on or off changes the one bit of its card's
    new state that the light's number names, and nothing else: the old
    state, the other bits and the other cards stay.  [on] with a brightness
    of zero is [off]. *)
Theorem X20_light_switches_one_bit (p : nat) (card : string) (i : nat)
    (brightness : Z) (d : drivers) :
  no_dash card = true -> (i < 32)%nat ->
  OPPIncand_off p (channel_number card i) d
  = OPPIncand_on p (channel_number card i) 0 d /\
  exists st' : Z,
    OPPIncand_on p (channel_number card i) brightness d
    = (Ok tt, set_incand_state p (fst (incand_state d p), st') d) /\
    forall j, 0 <= j ->
      Z.testbit st' j = if j =? Z.of_nat i then negb (brightness =? 0)
                        else Z.testbit (snd (incand_state d p)) j.
Proof.
  intros Hc Hi. split; [reflexivity|].
  destruct (number_parts card i Hc Hi) as [Hparts Hint].
  unfold OPPIncand_on, bind, lift. rewrite Hparts. cbn [ret snd]. rewrite Hint. cbn [ret].
  rewrite Z.shiftl_1_l.
  destruct (brightness =? 0); eexists; (split; [reflexivity|]); intros j Hj; cbn [negb].
  - rewrite Z.land_spec, Z.lnot_spec, Z.pow2_bits_eqb by lia.
    rewrite (Z.eqb_sym j). destruct (Z.of_nat i =? j); simpl;
      [apply andb_false_r | apply andb_true_r].
  - rewrite Z.lor_spec, Z.pow2_bits_eqb by lia.
    rewrite (Z.eqb_sym j). destruct (Z.of_nat i =? j); simpl;
      [apply orb_true_r | apply orb_false_r].
Qed.

(** Light 3 of the first card. *)
Lemma X20_witness :
  OPPIncand_off 0 (channel_number "0" 3) lights_changed
  = OPPIncand_on 0 (channel_number "0" 3) 0 lights_changed /\
  exists st' : Z,
    OPPIncand_on 0 (channel_number "0" 3) 255 lights_changed
    = (Ok tt, set_incand_state 0 (0, st') lights_changed) /\
    forall j, 0 <= j ->
      Z.testbit st' j = if j =? 3 then true else Z.testbit 5 j.
Proof.
  apply (X20_light_switches_one_bit 0 "0" 3 255 lights_changed); [reflexivity | lia].
Defined.

Lemma update_card_settled (whole : list byte) (intf : OppRs232Intf)
    (out : OppRs232IntfOut) (ic : nat * (Z * Z)) (d : drivers) :
  fst (incand_state d (fst ic)) = snd (incand_state d (fst ic)) ->
  update_card intf out whole ic d = (Ok whole, d).
Proof.
  intros H. unfold update_card, bind, gets. rewrite H, Z.lxor_nilpotent. reflexivity.
Qed.

Lemma update_loop_settled intf out (cs : list (Z * Z)) : forall k whole d,
  (forall i, (k <= i < k + length cs)%nat ->
             fst (incand_state d i) = snd (incand_state d i)) ->
  fold_each (zip (seq k (length cs)) cs) whole (update_card intf out) d = (Ok whole, d).
Proof.
  induction cs as [|c cs IH]; intros k whole d H; [reflexivity|].
  cbn [length seq zip zip_with fold_each]. unfold bind.
  rewrite update_card_settled by (apply H; simpl; lia).
  apply IH. intros i Hi. apply H. simpl. lia.
Qed.

Lemma update_loop_settles intf out (cs : list (Z * Z)) : forall k whole d w d',
  fold_each (zip (seq k (length cs)) cs) whole (update_card intf out) d = (Ok w, d') ->
  (forall i, incand_state d' i
             = if (k <=? i)%nat && (i <? k + length cs)%nat
               then (snd (incand_state d i), snd (incand_state d i))
               else incand_state d i) /\
  hw d' = hw d /\ opp_connection d' = opp_connection d /\ debug_log d' = debug_log d
  /\ incand_reg d' = incand_reg d /\ tickCnt d' = tickCnt d.
Proof.
  induction cs as [|c cs IH]; intros k whole d w d' H.
  - injection H as _ <-. split; [|auto]. intros i.
    simpl. rewrite Nat.add_0_r.
    destruct (Nat.leb_spec k i); destruct (Nat.ltb_spec i k); simpl; auto; lia.
  - cbn [length seq zip zip_with fold_each] in H. unfold bind at 1 in H.
    destruct (update_card intf out whole (k, c) d) as [[w1|e] d1] eqn:E; [|discriminate].
    assert (H1 : incand_states d1
                 = incand_states (set_incand_state k
                     (snd (incand_state d k), snd (incand_state d k)) d)
                 \/ (d1 = d /\ fst (incand_state d k) = snd (incand_state d k))).
    { unfold update_card, bind, gets in E. cbn [fst snd] in E.
      destruct (negb (Z.lxor _ _ =? 0)) eqn:Ex.
      - unfold modify in E. destruct (lift _ _) as [[m|e] d2] eqn:El; [|discriminate].
        injection E as _ <-. left.
        destruct (incand_msg _ _ _ _); simpl in El; injection El as _ <-; reflexivity.
      - injection E as _ <-. right. split; [reflexivity|].
        apply negb_false_iff, Z.eqb_eq, Z.lxor_eq in Ex. exact Ex. }
    assert (H2 : hw d1 = hw d /\ opp_connection d1 = opp_connection d /\
                 debug_log d1 = debug_log d /\ incand_reg d1 = incand_reg d /\
                 tickCnt d1 = tickCnt d).
    { unfold update_card, bind, gets in E. cbn [fst snd] in E.
      destruct (negb (Z.lxor _ _ =? 0)).
      - unfold modify in E. destruct (lift _ _) as [[m|e] d2] eqn:El; [|discriminate].
        injection E as _ <-.
        destruct (incand_msg _ _ _ _); simpl in El; injection El as _ <-;
          now destruct d.
      - injection E as _ <-. auto. }
    destruct (IH (S k) w1 d1 w d' H) as (Hst & Hhw & Hc & Hg & Hr & Ht).
    destruct H2 as (Hhw1 & Hc1 & Hg1 & Hr1 & Ht1).
    split; [|repeat split; congruence].
    intros i. rewrite Hst.
    assert (Hd1 : forall j, incand_state d1 j
                  = if Nat.eqb k j then (snd (incand_state d k), snd (incand_state d k))
                    else incand_state d j).
    { intros j. destruct H1 as [H1|[-> Heq]].
      - unfold incand_state at 1. rewrite H1. apply incand_state_set.
      - destruct (Nat.eqb_spec k j) as [<-|_]; [|reflexivity].
        rewrite <- Heq at 1. now destruct (incand_state d k). }
    rewrite !Hd1. cbn [length].
    destruct (Nat.eqb_spec k i) as [Heq|Hne];
      destruct (Nat.leb_spec (S k) i); destruct (Nat.leb_spec k i);
      destruct (Nat.ltb_spec i (S k + length cs));
      destruct (Nat.ltb_spec i (k + S (length cs))); cbn [andb];
      try lia; try reflexivity; subst; reflexivity.
Qed.

(** X21. An update of the incandescent lights that goes through settles
    every card: the old state of each card becomes its new state, which is
    kept.  A second update right after it finds nothing to do: it sends
    nothing and changes nothing. *)
Theorem X21_light_update_settles (intf : OppRs232Intf) (out : OppRs232IntfOut)
    (d d' : drivers) :
  update_incand intf out d = (Ok tt, d') ->
  (forall i, (i < length (opp_incands (hw d)))%nat ->
             incand_state d' i = (snd (incand_state d i), snd (incand_state d i))) /\
  update_incand intf out d' = (Ok tt, d').
Proof.
  intros H. unfold update_incand in H. unfold bind at 1 in H. unfold gets at 1 in H.
  unfold bind at 1 in H.
  destruct (fold_each _ _ _ d) as [[w|e] d1] eqn:E; [|discriminate].
  destruct (update_loop_settles intf out _ _ _ _ _ _ E) as (Hst & Hhw & Hc & Hg & Hr & Ht).
  assert (Hd' : incand_states d' = incand_states d1 /\ hw d' = hw d1).
  { unfold when in H. destruct (negb _).
    - unfold bind, send, debug, modify in H. destruct (opp_connection d1); [|discriminate].
      injection H as <-. now destruct d1.
    - injection H as <-. auto. }
  destruct Hd' as [Hs' Hh'].
  assert (Hstate : forall i, incand_state d' i = incand_state d1 i).
  { intros i. unfold incand_state. now rewrite Hs'. }
  assert (Hsettled : forall i, (i < length (opp_incands (hw d)))%nat ->
             incand_state d' i = (snd (incand_state d i), snd (incand_state d i))).
  { intros i Hi. rewrite Hstate, Hst.
    destruct (Nat.leb_spec 0 i); [|lia].
    destruct (Nat.ltb_spec i (0 + length (opp_incands (hw d)))); [reflexivity | lia]. }
  split; [exact Hsettled|].
  unfold update_incand. unfold bind at 1. unfold gets at 1. unfold bind at 1.
  rewrite Hh', Hhw.
  rewrite update_loop_settled; [reflexivity|].
  intros i Hi. rewrite Hsettled by lia. reflexivity.
Qed.

(** The changed lights are sent once. *)
Lemma X21_witness :
  (forall i, (i < 1)%nat ->
             incand_state (update_incand sample_intf sample_out lights_changed).2 i
             = (snd (incand_state lights_changed i), snd (incand_state lights_changed i))) /\
  update_incand sample_intf sample_out (update_incand sample_intf sample_out lights_changed).2
  = (Ok tt, (update_incand sample_intf sample_out lights_changed).2).
Proof.
  apply (X21_light_update_settles sample_intf sample_out lights_changed
           (update_incand sample_intf sample_out lights_changed).2).
  vm_compute. reflexivity.
Defined.


(** ** The machine loop *)

Lemma tenth_tick (t : Z) :
  (t + 1) / 10 - t / 10 = if (t + 1) mod 10 =? 0 then 1 else 0.
Proof.
  destruct (Z.eqb_spec ((t + 1) mod 10) 0) as [H|H];
    Z.div_mod_to_equations; lia.
Qed.

Lemma set_hw_same (d : drivers) : set_hw (hw d) d = d.
Proof. now destruct d. Qed.

Lemma quiet_tick intf out (d : drivers) (q : list (list byte)) :
  incand_reg d = false -> receive_queue (hw d) = [] -> opp_connection d = Some q ->
  tick intf out d
  = (Ok tt,
     set_opp_connection
       (Some (q ++ if (tickCnt d + 1) mod 10 =? 0 then [read_input_msg (hw d)] else []))
       (set_tickCnt (tickCnt d + 1) d)).
Proof.
  intros Hreg Hq Hc. unfold tick. unfold bind at 1. unfold modify at 1.
  unfold bind at 1. unfold gets at 1.
  assert (Ht : tickCnt (set_tickCnt (tickCnt d + 1) d) = tickCnt d + 1) by now destruct d.
  rewrite Ht. unfold bind at 1. unfold gets at 1.
  assert (Hr : incand_reg (set_tickCnt (tickCnt d + 1) d) = false) by now destruct d.
  rewrite Hr. cbn [andb when]. unfold bind at 1. unfold ret at 1.
  unfold bind at 1. unfold on_hw, process_receive_queue. unfold bind at 1. unfold gets at 1.
  assert (Hq' : receive_queue (hw (set_tickCnt (tickCnt d + 1) d)) = []) by now destruct d.
  rewrite Hq'. cbn [drain ret]. rewrite set_hw_same.
  destruct ((tickCnt d + 1) mod 10 =? 0); cbn [when].
  - unfold bind, gets, send.
    assert (Hc' : opp_connection (set_tickCnt (tickCnt d + 1) d) = Some q) by now destruct d.
    rewrite Hc'. now destruct d.
  - rewrite app_nil_r. unfold ret. f_equal. destruct d; simpl in *. now subst.
Qed.

(** X24. While nothing is received and no light is registered, the
    machine loop sends the poll for the inputs on every tick that brings the
    tick count to a multiple of ten, and nothing else: after [n] ticks the
    communicator has been handed one copy of the poll message for each
    multiple of ten passed. *)
Theorem X24_inputs_polled_every_tenth_tick (intf : OppRs232Intf)
    (out : OppRs232IntfOut) (n : nat) (d : drivers) (q : list (list byte)) :
  incand_reg d = false ->
  receive_queue (hw d) = [] ->
  opp_connection d = Some q ->
  exists d',
    for_each (seq 0 n) (fun _ => tick intf out) d = (Ok tt, d') /\
    tickCnt d' = tickCnt d + Z.of_nat n /\
    hw d' = hw d /\
    opp_connection d'
    = Some (q ++ replicate (Z.to_nat ((tickCnt d + Z.of_nat n) / 10 - tickCnt d / 10))
                   (read_input_msg (hw d))).
Proof.
  generalize 0%nat as k. revert d q.
  induction n as [|n IH]; intros d q k Hreg Hq Hc.
  - exists d. simpl. rewrite Z.add_0_r, Z.sub_diag. simpl. rewrite app_nil_r. auto.
  - cbn [seq for_each]. unfold bind. rewrite (quiet_tick intf out d q Hreg Hq Hc).
    set (sent := if (tickCnt d + 1) mod 10 =? 0 then [read_input_msg (hw d)] else []).
    set (d1 := set_opp_connection (Some (q ++ sent)) (set_tickCnt (tickCnt d + 1) d)).
    destruct (IH d1 (q ++ sent) (S k)) as (d' & Hrun & Ht & Hhw & Hconn).
    { unfold d1. now destruct d. }
    { unfold d1. now destruct d. }
    { unfold d1. now destruct d. }
    assert (Ht1 : tickCnt d1 = tickCnt d + 1) by (unfold d1; now destruct d).
    assert (Hh1 : hw d1 = hw d) by (unfold d1; now destruct d).
    exists d'. split; [exact Hrun|]. split; [lia|]. split; [congruence|].
    rewrite Hconn, Hh1, Ht1, <- app_assoc. do 2 f_equal.
    replace (tickCnt d + 1 + Z.of_nat n) with (tickCnt d + Z.of_nat (S n)) by lia.
    pose proof (tenth_tick (tickCnt d)) as Hten.
    assert (Hmono : (tickCnt d + 1) / 10 <= (tickCnt d + Z.of_nat (S n)) / 10)
      by (apply Z.div_le_mono; lia).
    unfold sent. destruct ((tickCnt d + 1) mod 10 =? 0).
    + replace ((tickCnt d + Z.of_nat (S n)) / 10 - tickCnt d / 10)
        with (Z.succ ((tickCnt d + Z.of_nat (S n)) / 10 - (tickCnt d + 1) / 10)) by lia.
      rewrite Z2Nat.inj_succ by lia. reflexivity.
    + replace ((tickCnt d + 1) / 10) with (tickCnt d / 10) by lia. reflexivity.
Qed.

(** Twenty-five ticks of a fresh platform send the poll twice. *)
Lemma X24_witness :
  exists d',
    for_each (seq 0 25) (fun _ => tick sample_intf sample_out)
      (new_drivers (new_platform false)) = (Ok tt, d') /\
    tickCnt d' = 25 /\
    opp_connection d' = Some [[Byte.xff]; [Byte.xff]].
Proof.
  destruct (X24_inputs_polled_every_tenth_tick sample_intf sample_out 25
              (new_drivers (new_platform false)) [])
    as (d' & Hrun & Htick & _ & Hconn); [reflexivity | reflexivity | reflexivity |].
  exists d'. split; [exact Hrun|]. split; [exact Htick | exact Hconn].
Defined.


(** ** Switch states *)

Lemma states_get_set (d : list (string * Z)) (k k' : string) (v : Z) :
  states_get (states_set d k v) k'
  = if String.eqb k k' then Some v else states_get d k'.
Proof.
  induction d as [|[k0 v0] rest IH]; simpl; [reflexivity|].
  destruct (String.eqb_spec k0 k) as [->|Hne]; simpl.
  - now destruct (String.eqb k k').
  - rewrite IH. destruct (String.eqb_spec k0 k') as [->|Hne'].
    + destruct (String.eqb_spec k k') as [->|_]; [congruence | reflexivity].
    + reflexivity.
Qed.

Lemma channel_number_inj (card : string) (i j : nat) :
  channel_number card i = channel_number card j -> i = j.
Proof.
  unfold channel_number. intros H.
  apply String.app_inj in H. apply String.app_inj in H.
  now apply pretty_nat_inj in H.
Qed.

Lemma channel_number_card (c c' : string) (i j : nat) :
  no_dash c = true -> no_dash c' = true -> (i < 32)%nat -> (j < 32)%nat ->
  channel_number c i = channel_number c' j -> c = c'.
Proof.
  intros Hc Hc' Hi Hj H.
  destruct (number_parts c i Hc Hi) as [H1 _].
  destruct (number_parts c' j Hc' Hj) as [H2 _].
  rewrite H in H1. rewrite H1 in H2. now injection H2.
Qed.

Definition hw_state (c : OPPInputCard) (i : nat) : Z :=
  if Z.testbit (oldState c) (Z.of_nat i) then 0 else 1.

Definition card_round (c : OPPInputCard) (acc : list (string * Z)) (index : nat)
  : list (string * Z) :=
  let curr_bit := Z.shiftl 1 (Z.of_nat index) in
  if negb (Z.land curr_bit (mask c) =? 0) then
    states_set acc (channel_number (cardNum c) index)
      (if Z.land curr_bit (oldState c) =? 0 then 1 else 0)
  else acc.

Lemma card_round_get (c : OPPInputCard) acc (index : nat) (key : string) :
  states_get (card_round c acc index) key
  = if Z.testbit (mask c) (Z.of_nat index)
       && String.eqb (channel_number (cardNum c) index) key
    then Some (hw_state c index) else states_get acc key.
Proof.
  unfold card_round, hw_state.
  rewrite Z.shiftl_1_l, !land_pow2_testbit, negb_involutive by lia.
  destruct (Z.testbit (mask c) (Z.of_nat index)); simpl; [|reflexivity].
  rewrite states_get_set.
  destruct (String.eqb _ key); [|reflexivity].
  now destruct (Z.testbit (oldState c) (Z.of_nat index)).
Qed.

Lemma card_states_other (c : OPPInputCard) (key : string) (n : nat) : forall acc,
  (forall i, (i < n)%nat -> channel_number (cardNum c) i <> key) ->
  states_get (foldl (card_round c) acc (seq 0 n)) key = states_get acc key.
Proof.
  induction n as [|n IH]; intros acc H; [reflexivity|].
  rewrite seq_S, foldl_app. simpl. rewrite card_round_get.
  destruct (String.eqb_spec (channel_number (cardNum c) n) key) as [He|_].
  - exfalso. apply (H n); [lia | exact He].
  - rewrite andb_false_r. apply IH. intros i Hi. apply H. lia.
Qed.

Lemma card_states_own (c : OPPInputCard) (i : nat) (n : nat) : forall acc,
  (i < n)%nat -> Z.testbit (mask c) (Z.of_nat i) = true ->
  states_get (foldl (card_round c) acc (seq 0 n)) (channel_number (cardNum c) i)
  = Some (hw_state c i).
Proof.
  induction n as [|n IH]; intros acc Hi Hbit; [lia|].
  rewrite seq_S, foldl_app. simpl. rewrite card_round_get.
  destruct (String.eqb_spec (channel_number (cardNum c) n) (channel_number (cardNum c) i))
    as [He|Hne].
  - apply channel_number_inj in He. subst n. now rewrite Hbit.
  - rewrite andb_false_r. apply IH; [|exact Hbit].
    assert (i <> n) by (intros ->; now apply Hne). lia.
Qed.

Lemma card_states_fold (acc : list (string * Z)) (c : OPPInputCard) :
  card_states acc c = foldl (card_round c) acc (seq 0 32).
Proof. reflexivity. Qed.

(** X25. The switch states reported for the platform give, for a channel
    in an input card's mask, 1 when the channel's bit in the card's last
    state is clear and 0 when it is set, as long as no card later in the list
    goes by the same name (names are taken to be free of dashes, as card
    numbers are). *)
Theorem X25_switch_state_is_the_inverted_bit (s : platform)
    (pre post : list OPPInputCard) (c : OPPInputCard) (i : nat) :
  opp_inputs s = pre ++ c :: post ->
  no_dash (cardNum c) = true ->
  Forall (fun c' => no_dash (cardNum c') = true /\ cardNum c' <> cardNum c) post ->
  (i < 32)%nat ->
  Z.testbit (mask c) (Z.of_nat i) = true ->
  states_get (get_hw_switch_states s) (channel_number (cardNum c) i)
  = Some (if Z.testbit (oldState c) (Z.of_nat i) then 0 else 1).
Proof.
  intros Hcards Hc Hpost Hi Hbit. unfold get_hw_switch_states.
  rewrite Hcards, foldl_app. cbn [foldl].
  set (acc := card_states (foldl card_states [] pre) c).
  assert (Hacc : states_get acc (channel_number (cardNum c) i) = Some (hw_state c i)).
  { unfold acc. rewrite card_states_fold. now apply card_states_own. }
  clearbody acc. clear Hcards. revert acc Hacc.
  induction Hpost as [|c' post [Hd Hne] _ IH]; intros acc Hacc; [exact Hacc|].
  cbn [foldl]. apply IH. rewrite card_states_fold, card_states_other; [exact Hacc|].
  intros j Hj He. apply Hne.
  now apply (channel_number_card (cardNum c') (cardNum c) j i).
Qed.

(** The first switch of the one input card, whose state bits are all
    clear. *)
Lemma X25_witness :
  states_get (get_hw_switch_states (one_card false)) (channel_number "0" 0) = Some 1.
Proof.
  apply (X25_switch_state_is_the_inverted_bit (one_card false) []
           [] {| addr := 32; oldState := 0; mask := 255; cardNum := "0" |} 0);
    [reflexivity | reflexivity | constructor | lia | reflexivity].
Defined.

End OppExtra.
